(** * pyroute2.ipdb.linkedset: cascading sets with a convergence target

    A shallow embedding of [LinkedSet] and [IPaddrSet]
    (pyroute2/ipdb/linkedset.py).  The Python objects are shared and
    mutated in place, and a set holds references to the sets linked with
    it, so the model keeps all instances in one store (a list indexed by
    reference) and every method takes and returns that store.

    [add] and [remove] call themselves on the linked sets; the model
    bounds the depth of these calls by a counter and shows the bound is
    never reached.  Besides the store and the value or exception, a call
    returns its trace: the sets it entered and the sets it changed.

    Threads are not modelled: the re-entrant lock is transparent to the
    single thread that runs a call, and the [threading.Event] is the
    boolean it holds. *)

From stdpp Require Import base strings gmap sets list.
From Stdlib Require Import ZArith Ascii.

Open Scope Z_scope.
Open Scope string_scope.
Open Scope list_scope.
Open Scope nat_scope.

(** ** Python values used as keys and payloads *)

(** Scalars: [None], a string, an integer. *)
Inductive atom :=
| ANone
| AStr (s : string)
| AInt (z : Z).

(** Hashable keys: a scalar, or a 2-tuple such as [('10.0.0.5', 24)]. *)
Inductive key :=
| KAtom (a : atom)
| KPair (a b : atom).

(** The [raw] argument of [add]: a scalar ([None] by default) or the dict
    built by [IPaddrSet.add]. *)
Inductive payload :=
| PAtom (a : atom)
| PDict (local broadcast address flags prefixlen : atom).

#[global] Instance atom_eq_dec : EqDecision atom.
Proof. solve_decision. Defined.

#[global] Instance key_eq_dec : EqDecision key.
Proof. solve_decision. Defined.

#[global] Instance payload_eq_dec : EqDecision payload.
Proof. solve_decision. Defined.

Definition atom_enc (a : atom) : unit + (string + Z) :=
  match a with
  | ANone => inl ()
  | AStr s => inr (inl s)
  | AInt z => inr (inr z)
  end.

Definition atom_dec (x : unit + (string + Z)) : atom :=
  match x with
  | inl _ => ANone
  | inr (inl s) => AStr s
  | inr (inr z) => AInt z
  end.

#[global] Instance atom_countable : Countable atom.
Proof. apply (inj_countable' atom_enc atom_dec). by intros []. Defined.

Definition key_enc (k : key) : atom + (atom * atom) :=
  match k with
  | KAtom a => inl a
  | KPair a b => inr (a, b)
  end.

Definition key_dec (x : atom + (atom * atom)) : key :=
  match x with
  | inl a => KAtom a
  | inr (a, b) => KPair a b
  end.

#[global] Instance key_countable : Countable key.
Proof. apply (inj_countable' key_enc key_dec). by intros []. Defined.

(** ** Exceptions and results *)

Inductive exn :=
| KeyError
| TypeError
| IndexError
| ValueError
| AssertionError.

(** [BadRef]: a reference that names no object of the store (no Python
    program holds one).  [OutOfFuel]: the recursion bound of the cascade
    was hit (shown below never to happen with the bound the methods use). *)
Inductive error :=
| Exn (e : exn)
| BadRef
| OutOfFuel.

Inductive result (A : Type) :=
| Ok (a : A)
| Err (e : error).

Arguments Ok {A} a.
Arguments Err {A} e.

Abbreviation Raise e := (Err (Exn e)).

#[global] Instance exn_eq_dec : EqDecision exn.
Proof. solve_decision. Defined.

#[global] Instance error_eq_dec : EqDecision error.
Proof. solve_decision. Defined.

#[global] Instance result_eq_dec `{EqDecision A} : EqDecision (result A).
Proof. solve_decision. Defined.

(** ** Objects and the store *)

(** The class of an instance; it selects [target_filter] and the entry
    points [add] and [remove]. *)
Inductive klass :=
| LinkedSet
| IPaddrSet.

#[global] Instance klass_eq_dec : EqDecision klass.
Proof. solve_decision. Defined.

(** One instance.  [members] is the [set] base object, [links] holds the
    references of the connected sets in the order of [connect], [_ct] is
    the target ([None] when there is none), [target] the state of the
    [threading.Event]. *)
Record obj := Obj {
  cls : klass;
  members : gset key;
  raw : gmap key payload;
  links : list nat;
  exclusive : gset key;
  _ct : option (gset key);
  target : bool
}.

#[global] Instance obj_eq_dec : EqDecision obj.
Proof. solve_decision. Defined.

Abbreviation heap := (list obj).

(** Field updates: [self.raw[key] = raw; set.add(self, key)],
    [set.remove(self, key)], and assignments to [links], [exclusive],
    and to [_ct] together with the event. *)
Definition with_entry (k : key) (r : payload) (o : obj) : obj :=
  Obj (cls o) ({[k]} ∪ members o) (<[k := r]> (raw o)) (links o)
      (exclusive o) (_ct o) (target o).

Definition without_member (k : key) (o : obj) : obj :=
  Obj (cls o) (members o ∖ {[k]}) (raw o) (links o)
      (exclusive o) (_ct o) (target o).

Definition with_links (ls : list nat) (o : obj) : obj :=
  Obj (cls o) (members o) (raw o) ls (exclusive o) (_ct o) (target o).

Definition with_exclusive (x : gset key) (o : obj) : obj :=
  Obj (cls o) (members o) (raw o) (links o) x (_ct o) (target o).

Definition with_target (c : option (gset key)) (t : bool) (o : obj) : obj :=
  Obj (cls o) (members o) (raw o) (links o) (exclusive o) c t.

(** The trace of a call: [ECall i c] when [add] or [remove] is entered on
    the set [i] with [cascade = c], [EInsert i k r] when [k] is put into
    the set [i] with payload [r], [EDiscard i k] when [k] is taken out of
    the set [i]. *)
Inductive event :=
| ECall (i : nat) (cascade : bool)
| EInsert (i : nat) (k : key) (r : payload)
| EDiscard (i : nat) (k : key).

#[global] Instance event_eq_dec : EqDecision event.
Proof. solve_decision. Defined.

(** What a call leaves behind: the store, its trace, and the value or
    error. *)
Definition outcome (A : Type) : Type := heap * list event * result A.

(** ** The equivalence filter *)

(** [x[n]] on a key: a tuple gives its component, a string its n-th
    character, anything else is not subscriptable. *)
Definition subscript (x : key) (n : nat) : result atom :=
  match x with
  | KPair a b =>
      match n with
      | 0 => Ok a
      | 1 => Ok b
      | _ => Raise IndexError
      end
  | KAtom (AStr s) =>
      match String.get n s with
      | Some c => Ok (AStr (String c EmptyString))
      | None => Raise IndexError
      end
  | KAtom _ => Raise TypeError
  end.

(** [v[:4]] *)
Definition slice4 (v : atom) : result atom :=
  match v with
  | AStr s => Ok (AStr (String.substring 0 4 s))
  | _ => Raise TypeError
  end.

(** [LinkedSet.target_filter] returns [True];
    [IPaddrSet.target_filter] returns
    [not ((x[0][:4] == 'fe80') and (x[1] == 64))], where [and] evaluates
    its right operand only when the left one holds. *)
Definition target_filter (c : klass) (x : key) : result bool :=
  match c with
  | LinkedSet => Ok true
  | IPaddrSet =>
      match subscript x 0 with
      | Err e => Err e
      | Ok x0 =>
          match slice4 x0 with
          | Err e => Err e
          | Ok p =>
              if bool_decide (p = AStr "fe80") then
                match subscript x 1 with
                | Err e => Err e
                | Ok x1 => Ok (negb (bool_decide (x1 = AInt 64)))
                end
              else Ok true
          end
      end
  end.

(** [filter(f, xs)], stopping at the first element on which [f] raises. *)
Fixpoint filter_keys (f : key → result bool) (l : list key) : result (list key) :=
  match l with
  | [] => Ok []
  | x :: l' =>
      match f x with
      | Err e => Err e
      | Ok b =>
          match filter_keys f l' with
          | Err e => Err e
          | Ok r => Ok (if b then x :: r else r)
          end
      end
  end.

(** [set(filter(f, s))].  The members are visited in the order of
    [elements]; Python visits them in hash order, which matters only for
    which exception is reported when [f] raises on several members. *)
Definition filtered (f : key → result bool) (s : gset key) : result (gset key) :=
  match filter_keys f (elements s) with
  | Err e => Err e
  | Ok l => Ok (list_to_set l)
  end.

(** ** LinkedSet *)

(** [LinkedSet(iterable)] / [IPaddrSet(iterable)]: the members are seeded
    from the iterable, everything else starts empty.  The new object gets the
    next free reference. *)
Definition new_obj (c : klass) (seed : list key) : obj :=
  Obj c (list_to_set seed) ∅ [] ∅ None false.

(** The store with the new object, and its reference. *)
Definition new (h : heap) (c : klass) (seed : list key) : heap * nat :=
  (h ++ [new_obj c seed], length h).

(** [__getitem__] *)
Definition getitem (h : heap) (i : nat) (k : key) : result payload :=
  match h !! i with
  | None => Err BadRef
  | Some o =>
      match raw o !! k with
      | Some p => Ok p
      | None => Raise KeyError
      end
  end.

(** [check_target] *)
Definition check_target (h : heap) (i : nat) : heap * result unit :=
  match h !! i with
  | None => (h, Err BadRef)
  | Some o =>
      match _ct o with
      | None => (h, Ok tt)
      | Some t =>
          match filtered (target_filter (cls o)) (members o) with
          | Err e => (h, Err e)
          | Ok l =>
              match filtered (target_filter (cls o)) t with
              | Err e => (h, Err e)
              | Ok r =>
                  if bool_decide (l = r)
                  then (<[i := with_target None true o]> h, Ok tt)
                  else (h, Ok tt)
              end
          end
      end
  end.

(** [set_target]; [None] for the value [None], [Some v] for [set(value)]. *)
Definition set_target (h : heap) (i : nat) (value : option (gset key))
  : heap * result unit :=
  match h !! i with
  | None => (h, Err BadRef)
  | Some o =>
      match value with
      | None => (<[i := with_target None false o]> h, Ok tt)
      | Some v => check_target (<[i := with_target (Some v) false o]> h) i
      end
  end.

(** [target.is_set()], which is also what [target.wait(0)] returns: the
    state of the event, without blocking. *)
Definition is_set (h : heap) (i : nat) : result bool :=
  match h !! i with
  | None => Err BadRef
  | Some o => Ok (target o)
  end.

(** [for link in links: body(link)], leaving the loop at the first error. *)
Fixpoint for_each (body : heap → nat → outcome unit) (ls : list nat) (h : heap)
  : outcome unit :=
  match ls with
  | [] => (h, [], Ok tt)
  | l :: ls' =>
      match body h l with
      | (h1, e1, Ok _) =>
          match for_each body ls' h1 with
          | (h2, e2, r) => (h2, e1 ++ e2, r)
          end
      | (h1, e1, Err e) => (h1, e1, Err e)
      end
  end.

(** [LinkedSet.add].  A linked [IPaddrSet] receives the key through
    [IPaddrSet.add], which hands a plain key straight to this method.
    [n] bounds the depth of the cascade. *)
Fixpoint add_fuel (n : nat) (k : key) (r : payload) (h : heap) (i : nat)
    (cascade : bool) : outcome unit :=
  match n with
  | 0 => (h, [], Err OutOfFuel)
  | S n' =>
      match h !! i with
      | None => (h, [], Err BadRef)
      | Some o =>
          if cascade && bool_decide (k ∈ exclusive o) then
            (h, [ECall i cascade], Ok tt)
          else if bool_decide (k ∈ members o) then
            match check_target h i with
            | (h', res) => (h', [ECall i cascade], res)
            end
          else
            match for_each (λ h' l, add_fuel n' k r h' l true) (links o)
                           (<[i := with_entry k r o]> h) with
            | (h1, ev, Ok _) =>
                match check_target h1 i with
                | (h2, res) => (h2, ECall i cascade :: EInsert i k r :: ev, res)
                end
            | (h1, ev, Err e) =>
                (h1, ECall i cascade :: EInsert i k r :: ev, Err e)
            end
      end
  end.

(** The body of the loop of [remove]:
    [if key in link: link.remove(key, cascade=True)]. *)
Definition remove_link (rec : heap → nat → outcome unit) (k : key)
    (h : heap) (l : nat) : outcome unit :=
  match h !! l with
  | None => (h, [], Err BadRef)
  | Some ol =>
      if bool_decide (k ∈ members ol) then rec h l else (h, [], Ok tt)
  end.

(** [LinkedSet.remove]; the [raw] argument is accepted and not used. *)
Fixpoint remove_fuel (n : nat) (k : key) (h : heap) (i : nat)
    (cascade : bool) : outcome unit :=
  match n with
  | 0 => (h, [], Err OutOfFuel)
  | S n' =>
      match h !! i with
      | None => (h, [], Err BadRef)
      | Some o =>
          if cascade && bool_decide (k ∈ exclusive o) then
            (h, [ECall i cascade], Ok tt)
          else if bool_decide (k ∈ members o) then
            match for_each (remove_link (λ h' l, remove_fuel n' k h' l true) k)
                           (links o) (<[i := without_member k o]> h) with
            | (h1, ev, Ok _) =>
                match check_target h1 i with
                | (h2, res) => (h2, ECall i cascade :: EDiscard i k :: ev, res)
                end
            | (h1, ev, Err e) =>
                (h1, ECall i cascade :: EDiscard i k :: ev, Err e)
            end
          else (h, [ECall i cascade], Raise KeyError)
      end
  end.

(** A cascade enters a set again only to return at once, so its depth is
    at most the number of sets plus one. *)
Definition add (h : heap) (i : nat) (k : key) (r : payload) (cascade : bool)
  : outcome unit :=
  add_fuel (S (length h)) k r h i cascade.

Definition remove (h : heap) (i : nat) (k : key) (r : payload) (cascade : bool)
  : outcome unit :=
  remove_fuel (S (length h)) k h i cascade.

(** [unlink] *)
Definition unlink (h : heap) (i : nat) (k : key) : heap * result unit :=
  match h !! i with
  | None => (h, Err BadRef)
  | Some o => (<[i := with_exclusive ({[k]} ∪ exclusive o) o]> h, Ok tt)
  end.

(** [relink]: [set.remove] raises [KeyError] on an absent key. *)
Definition relink (h : heap) (i : nat) (k : key) : heap * result unit :=
  match h !! i with
  | None => (h, Err BadRef)
  | Some o =>
      if bool_decide (k ∈ exclusive o)
      then (<[i := with_exclusive (exclusive o ∖ {[k]}) o]> h, Ok tt)
      else (h, Raise KeyError)
  end.

(** [connect]: the store holds [LinkedSet] instances only, so the
    assertion fails exactly on a reference outside it. *)
Definition connect (h : heap) (i j : nat) : heap * result unit :=
  match h !! i with
  | None => (h, Err BadRef)
  | Some o =>
      match h !! j with
      | None => (h, Raise AssertionError)
      | Some _ => (<[i := with_links (links o ++ [j]) o]> h, Ok tt)
      end
  end.

(** [list.remove(x)] drops the first element that is [x] or compares
    equal to it; [LinkedSet] inherits [set.__eq__], so two instances are
    equal when their members are. *)
Definition same_set (h : heap) (j l : nat) : bool :=
  bool_decide (l = j) ||
  match h !! l, h !! j with
  | Some a, Some b => bool_decide (members a = members b)
  | _, _ => false
  end.

Fixpoint list_remove_first (p : nat → bool) (ls : list nat) : option (list nat) :=
  match ls with
  | [] => None
  | l :: ls' =>
      if p l then Some ls'
      else match list_remove_first p ls' with
           | Some r => Some (l :: r)
           | None => None
           end
  end.

(** [disconnect] *)
Definition disconnect (h : heap) (i j : nat) : heap * result unit :=
  match h !! i with
  | None => (h, Err BadRef)
  | Some o =>
      match list_remove_first (same_set h j) (links o) with
      | Some ls => (<[i := with_links ls o]> h, Ok tt)
      | None => (h, Raise ValueError)
      end
  end.

(** ** IPaddrSet *)

(** Modelled from the spec: the decoded protocol message ([nlmsg], a class
    that linkedset.py imports and does not define), "an object that
    supports attribute lookup by name and exposes a family/type
    discriminator", together with its prefix-length field. *)
Record nlmsg := Nlmsg {
  family : Z;
  prefixlen : Z;
  attrs : list (string * atom)
}.

(** Modelled from the spec: [get_attr], the "named-attribute lookup
    returning a value or absent" of that class; absent is [None]. *)
Fixpoint get_attr_in (l : list (string * atom)) (name : string) : atom :=
  match l with
  | [] => ANone
  | (n, v) :: l' => if bool_decide (n = name) then v else get_attr_in l' name
  end.

Definition get_attr (m : nlmsg) (name : string) : atom :=
  get_attr_in (attrs m) name.

(** [socket.AF_INET] and [socket.AF_INET6] on Linux. *)
Definition AF_INET : Z := 2.
Definition AF_INET6 : Z := 10.

(** [_get_addr_nla]: the [if]/[elif] has no [else], so the function falls
    off its end and returns [None] for any other family. *)
Definition _get_addr_nla (m : nlmsg) : key :=
  if bool_decide (family m = AF_INET) then
    KPair (get_attr m "IFA_LOCAL") (AInt (prefixlen m))
  else if bool_decide (family m = AF_INET6) then
    KPair (get_attr m "IFA_ADDRESS") (AInt (prefixlen m))
  else KAtom ANone.

Definition raw_of_msg (m : nlmsg) : payload :=
  PDict (get_attr m "IFA_LOCAL") (get_attr m "IFA_BROADCAST")
        (get_attr m "IFA_ADDRESS") (get_attr m "IFA_FLAGS")
        (AInt (prefixlen m)).

(** The first argument of [add] and [remove]: a plain key or a message. *)
Inductive arg :=
| Key (k : key)
| Msg (m : nlmsg).

(** [IPaddrSet.add]: a message is added by [LinkedSet.add(self, key=key,
    raw=raw)], which drops the other arguments of the call. *)
Definition ipaddr_add (h : heap) (i : nat) (a : arg) (r : payload)
    (cascade : bool) : outcome unit :=
  match a with
  | Key k => add h i k r cascade
  | Msg m => add h i (_get_addr_nla m) (raw_of_msg m) false
  end.

(** [IPaddrSet.remove]: a message is removed by [LinkedSet.remove(self,
    key=key, *argv, **kwarg)]; the arguments after the message are those
    given by keyword. *)
Definition ipaddr_remove (h : heap) (i : nat) (a : arg) (r : payload)
    (cascade : bool) : outcome unit :=
  match a with
  | Key k => remove h i k r cascade
  | Msg m => remove h i (_get_addr_nla m) r cascade
  end.

(** ** Calls on an object of either class *)

(** [s.add(...)] and [s.remove(...)] resolved on the class of [s].  A
    message given to a plain [LinkedSet] is used as the key itself; it is
    a dict (the code reads [addr['family']] and [addr.get('prefixlen')]),
    which cannot be hashed, so the first membership test raises
    [TypeError]. *)
Definition call_add (h : heap) (i : nat) (a : arg) (r : payload)
    (cascade : bool) : outcome unit :=
  match h !! i with
  | None => (h, [], Err BadRef)
  | Some o =>
      match cls o, a with
      | IPaddrSet, _ => ipaddr_add h i a r cascade
      | LinkedSet, Key k => add h i k r cascade
      | LinkedSet, Msg _ => (h, [], Raise TypeError)
      end
  end.

Definition call_remove (h : heap) (i : nat) (a : arg) (r : payload)
    (cascade : bool) : outcome unit :=
  match h !! i with
  | None => (h, [], Err BadRef)
  | Some o =>
      match cls o, a with
      | IPaddrSet, _ => ipaddr_remove h i a r cascade
      | LinkedSet, Key k => remove h i k r cascade
      | LinkedSet, Msg _ => (h, [], Raise TypeError)
      end
  end.

(** The operations a client can perform on the store. *)
Inductive op :=
| OpNew (c : klass) (seed : list key)
| OpSetTarget (i : nat) (value : option (gset key))
| OpCheckTarget (i : nat)
| OpAdd (i : nat) (a : arg) (r : payload) (cascade : bool)
| OpRemove (i : nat) (a : arg) (r : payload) (cascade : bool)
| OpUnlink (i : nat) (k : key)
| OpRelink (i : nat) (k : key)
| OpConnect (i j : nat)
| OpDisconnect (i j : nat).

(** A method that calls neither [add] nor [remove] has an empty trace. *)
Definition quiet (x : heap * result unit) : outcome unit := (x.1, [], x.2).

(** One operation on the store. *)
Definition step (h : heap) (o : op) : outcome unit :=
  match o with
  | OpNew c seed => ((new h c seed).1, [], Ok tt)
  | OpSetTarget i v => quiet (set_target h i v)
  | OpCheckTarget i => quiet (check_target h i)
  | OpAdd i a r c => call_add h i a r c
  | OpRemove i a r c => call_remove h i a r c
  | OpUnlink i k => quiet (unlink h i k)
  | OpRelink i k => quiet (relink h i k)
  | OpConnect i j => quiet (connect h i j)
  | OpDisconnect i j => quiet (disconnect h i j)
  end.

(** A client program: a sequence of operations; an exception ends the
    operation that raised it, not the program. *)
Definition run (h : heap) (ops : list op) : heap :=
  foldl (λ h' o, (step h' o).1.1) h ops.

(** The stores that a client can bring about, starting with no object. *)
Definition reachable (h : heap) : Prop := ∃ ops, h = run [] ops.

(** * Vocabulary of the properties *)

(** ** Changes of one object *)

(** The effect of [check_target] on the object it runs on. *)
Definition ct_step (o o' : obj) : Prop :=
  o' = o ∨ (is_Some (_ct o) ∧ o' = with_target None true o).

(** The target part of an object stays, or an active target is reached. *)
Definition target_evolve (o o' : obj) : Prop :=
  (_ct o' = _ct o ∧ target o' = target o) ∨
  (is_Some (_ct o) ∧ _ct o' = None ∧ target o' = true).

(** What a call of [add] for [k] and [r] can do to an object. *)
Definition add_evolve (k : key) (r : payload) (o o' : obj) : Prop :=
  cls o' = cls o ∧ links o' = links o ∧ exclusive o' = exclusive o ∧
  ((members o' = members o ∧ raw o' = raw o) ∨
   ((k ∉ members o) ∧ members o' = {[k]} ∪ members o ∧
    raw o' = <[k := r]> (raw o))) ∧
  target_evolve o o'.

(** What a call of [remove] for [k] can do to an object. *)
Definition remove_evolve (k : key) (o o' : obj) : Prop :=
  o' = o ∨ (k ∈ members o ∧ ct_step (without_member k o) o').

(** [k] does not come into an object. *)
Definition no_gain (k : key) (o o' : obj) : Prop :=
  k ∈ members o' → k ∈ members o.

(** The changes an operation [q] can make to the object at [i]: those of
    a target check, those of an [add] (for an [add] only), those of a
    [remove], new links, a new exclusive set, or ([set_target] on [i]
    only) a new target and a cleared or set event. *)
Definition change (q : op) (i : nat) (o o' : obj) : Prop :=
  ct_step o o' ∨
  (∃ j a p c k r, q = OpAdd j a p c ∧ add_evolve k r o o') ∨
  (∃ k, remove_evolve k o o') ∨
  (∃ ls, o' = with_links ls o) ∨
  (∃ x, o' = with_exclusive x o) ∨
  (∃ v c t, q = OpSetTarget i v ∧ o' = with_target c t o).

(** An operation other than [set_target] on the object [i]. *)
Definition not_set_target_on (i : nat) (q : op) : Prop :=
  ∀ v, q ≠ OpSetTarget i v.



(** ** The depth and the trace of a cascade *)

(** The number of sets that do not hold [k]. *)
Definition lacking (k : key) (h : heap) : nat :=
  length (filter (λ o, k ∉ members o) h).

(** The number of sets that hold [k]. *)
Definition holding (k : key) (h : heap) : nat :=
  length (filter (λ o, k ∈ members o) h).

(** The sets a trace mutates, in order, with repetitions. *)
Definition mutated (ev : list event) : list nat :=
  omap (λ e, match e with
             | EInsert i _ _ | EDiscard i _ => Some i
             | ECall _ _ => None
             end) ev.

(** A call that came through a link. *)
Definition cascaded (e : event) : Prop :=
  match e with
  | ECall _ c => c = true
  | _ => True
  end.

(** The object at [j] exists and holds [k]. *)
Definition has (k : key) (h : heap) (j : nat) : Prop :=
  ∃ o, h !! j = Some o ∧ k ∈ members o.

(** The object at [j] exists and does not hold [k]. *)
Definition lacks (k : key) (h : heap) (j : nat) : Prop :=
  ∃ o, h !! j = Some o ∧ k ∉ members o.

(** The events of [add] for [k] and [r]. *)
Definition add_event (k : key) (r : payload) (e : event) : Prop :=
  match e with
  | ECall _ _ => True
  | EInsert _ k' r' => k' = k ∧ r' = r
  | EDiscard _ _ => False
  end.

(** What the trace of [add] says about the stores before and after:
    a mutated set lacked [k] and now holds it, no set is mutated twice,
    and the members and payloads of the other sets are as they were. *)
Definition add_trace (k : key) (r : payload) (h : heap) (ev : list event)
    (h' : heap) : Prop :=
  Forall2 (add_evolve k r) h h' ∧
  (∀ j, j ∈ mutated ev → lacks k h j ∧ has k h' j) ∧
  NoDup (mutated ev) ∧
  (∀ j o o', h !! j = Some o → h' !! j = Some o' → j ∉ mutated ev →
     members o' = members o ∧ raw o' = raw o) ∧
  Forall (add_event k r) ev.

(** The events of [remove] for [k]. *)
Definition remove_event (k : key) (e : event) : Prop :=
  match e with
  | ECall _ _ => True
  | EInsert _ _ _ => False
  | EDiscard _ k' => k' = k
  end.

(** What the trace of [remove] says about the stores before and after:
    a mutated set held [k] and now lacks it, no set is mutated twice, and
    the members of the other sets are as they were. *)
Definition remove_trace (k : key) (h : heap) (ev : list event) (h' : heap)
  : Prop :=
  Forall2 (no_gain k) h h' ∧
  (∀ j, j ∈ mutated ev → has k h j ∧ lacks k h' j) ∧
  NoDup (mutated ev) ∧
  (∀ j o o', h !! j = Some o → h' !! j = Some o' → j ∉ mutated ev →
     members o' = members o) ∧
  Forall (remove_event k) ev.

(** ** The trace of a program *)

(** A client program together with the trace of all its calls. *)
Definition run_from (s : heap * list event) (ops : list op)
  : heap * list event :=
  foldl (λ s' q, ((step s'.1 q).1.1, s'.2 ++ (step s'.1 q).1.2)) s ops.

(** A program run from the empty store. *)
Definition run_trace (ops : list op) : heap * list event :=
  run_from ([], []) ops.

(** The payload of the last insertion of [k] into the set [i] that a
    trace records, if there is one. *)
Fixpoint stored (ev : list event) (i : nat) (k : key) : option payload :=
  match ev with
  | [] => None
  | e :: ev' =>
      match stored ev' i k with
      | Some p => Some p
      | None =>
          match e with
          | EInsert j k' p =>
              if bool_decide (j = i ∧ k' = k) then Some p else None
          | _ => None
          end
      end
  end.

(** A payload map after the events of a trace. *)
Definition overlay (ev : list event) (i : nat) (k : key)
    (before : option payload) : option payload :=
  match stored ev i k with
  | Some p => Some p
  | None => before
  end.

(** The payloads of a store are those that its trace records. *)
Definition tracked (s : heap * list event) : Prop :=
  (∀ i o, s.1 !! i = Some o → ∀ k, raw o !! k = stored s.2 i k) ∧
  (∀ i k, length s.1 ≤ i → stored s.2 i k = None).

(** ** Predicates of the claims *)


(** The documentation's words, "a link-local IPv6 address with prefix
    length 64", read by RFC 4291: the link-local addresses are those of
    [fe80::/10], whose first sixteen bits lie between [fe80] and [febf],
    and hexadecimal digits may be written in either case. *)









(** ** Stores and inputs of the examples *)

(** Three plain keys. *)
Definition key_a : key := KAtom (AStr "a").
Definition key_b : key := KAtom (AStr "b").
Definition key_c : key := KAtom (AStr "c").

(** [A.connect(B); A.add('x', 1)] on two fresh sets. *)
Definition scenario : heap :=
  run [] [OpNew LinkedSet []; OpNew LinkedSet []; OpConnect 0 1;
          OpAdd 0 (Key (KAtom (AStr "x"))) (PAtom (AInt 1)) false].

(** Two linked sets: the first holds [key_a] and links to the second,
    which holds nothing. *)
Definition one_of_two : heap :=
  [Obj LinkedSet {[key_a]} ∅ [1] ∅ None false;
   Obj LinkedSet ∅ ∅ [] ∅ None false].

(** A set that holds [key_a] and [key_b] and waits for exactly these. *)
Definition waiting : heap :=
  [Obj LinkedSet {[key_a; key_b]} ∅ [] ∅ (Some {[key_a; key_b]}) false].

(** [('fe80::1', 64)] and [('10.0.0.5', 24)]. *)
Definition addr_ll : key := KPair (AStr "fe80::1") (AInt 64).
Definition addr_v4 : key := KPair (AStr "10.0.0.5") (AInt 24).


(** The set of the example, built with target first and members after. *)
Definition addresses (c : klass) : heap :=
  run [] [OpNew c []; OpSetTarget 0 (Some {[addr_v4]});
          OpAdd 0 (Key addr_ll) (PAtom ANone) false;
          OpAdd 0 (Key addr_v4) (PAtom ANone) false].

(** Two sets linked to each other, the first also to itself. *)
Definition two_cycle : heap :=
  [Obj LinkedSet ∅ ∅ [1; 0] ∅ None false;
   Obj LinkedSet ∅ ∅ [0] ∅ None false].


(** A set seeded with [key_a], then [add(key_b)] with no payload. *)
Definition seeded : list op :=
  [OpNew LinkedSet [key_a]; OpAdd 0 (Key key_b) (PAtom ANone) false].

(** An address message of family 35 ([AF_PHONET]). *)
Definition phonet_msg : nlmsg :=
  Nlmsg 35 0 [("IFA_LOCAL", AStr "6c")].

(** ** Vocabulary of the further properties *)

(** The parts of an object that [add] of [k] leaves alone, and the one
    direction in which membership of [k] can move. *)
Definition frame_add (k : key) (o o' : obj) : Prop :=
  links o' = links o ∧ exclusive o' = exclusive o ∧
  (k ∈ members o → k ∈ members o').

(** The same for [remove] of [k]. *)
Definition frame_remove (k : key) (o o' : obj) : Prop :=
  links o' = links o ∧ exclusive o' = exclusive o ∧
  (k ∈ members o' → k ∈ members o).

(** The object at [l] exists and has [k] in its exclusive set. *)
Definition excludes (k : key) (h : heap) (l : nat) : Prop :=
  ∃ ol, h !! l = Some ol ∧ k ∈ exclusive ol.

(** Where a finished cascade of [add] leaves a link: holding [k], or
    excluding it. *)
Definition reached (k : key) (h : heap) (l : nat) : Prop :=
  has k h l ∨ excludes k h l.

(** Where a finished cascade of [remove] leaves a link: without [k], or
    excluding it. *)
Definition cleared (k : key) (h : heap) (l : nat) : Prop :=
  lacks k h l ∨ excludes k h l.

(** A cascade for [k] that has changed the set [p] goes on into the set
    [l]: [l] is a link of [p] and does not exclude [k]. *)
Definition cascades (k : key) (h : heap) (p l : nat) : Prop :=
  ∃ op ol, h !! p = Some op ∧ l ∈ links op ∧
           h !! l = Some ol ∧ k ∉ exclusive ol.

(** One step of a cascade that stays inside the sets [M]. *)
Definition cascades_in (k : key) (h : heap) (M : list nat) (p l : nat)
  : Prop :=
  cascades k h p l ∧ l ∈ M.

(** The target of the object at [j] has been evaluated against its
    members: there is no target, or the filtered members differ from the
    filtered target. *)
Definition settled (o : obj) : Prop :=
  _ct o = None ∨
  ∃ t l l', _ct o = Some t ∧
            filtered (target_filter (cls o)) (members o) = Ok l ∧
            filtered (target_filter (cls o)) t = Ok l' ∧ l ≠ l'.

(** The members of [o] match the target [t] under the filter of [o]. *)
Definition matches (o : obj) (t : gset key) : Prop :=
  ∃ l, filtered (target_filter (cls o)) (members o) = Ok l ∧
       filtered (target_filter (cls o)) t = Ok l.

(** What [remove] of [k] can do to an object, field by field. *)
Definition remove_loose (k : key) (o o' : obj) : Prop :=
  cls o' = cls o ∧ links o' = links o ∧ exclusive o' = exclusive o ∧
  raw o' = raw o ∧
  (members o' = members o ∨
   (k ∈ members o ∧ members o' = members o ∖ {[k]})) ∧
  target_evolve o o'.

(** During [add] of [k], a target is cleared only on a set that holds
    [k], with the event set and the members matching the target. *)
Definition sound_add (k : key) (r : payload) (a b : heap) : Prop :=
  Forall2 (add_evolve k r) a b ∧
  ∀ j oj oj' t, a !! j = Some oj → b !! j = Some oj' →
    _ct oj = Some t → _ct oj' = None →
    k ∈ members oj' ∧ target oj' = true ∧ matches oj' t.

(** During [remove] of [k], a target is cleared only on a set without
    [k], with the event set and the members matching the target. *)
Definition sound_remove (k : key) (a b : heap) : Prop :=
  Forall2 (remove_loose k) a b ∧
  ∀ j oj oj' t, a !! j = Some oj → b !! j = Some oj' →
    _ct oj = Some t → _ct oj' = None →
    (k ∉ members oj') ∧ target oj' = true ∧ matches oj' t.

(** Every link of every set refers to an object of the store. *)
Definition linked_in (h : heap) : Prop :=
  ∀ i o l, h !! i = Some o → l ∈ links o → l < length h.

(** A key on which the filter of [IPaddrSet] is defined: a pair whose
    first component is a string. *)
Definition is_addr (x : key) : Prop :=
  ∃ s b, x = KPair (AStr s) b.

(** An object on which the target check cannot raise while [k] goes in
    or out: a plain [LinkedSet], or, with [k] an address pair, a set that
    holds and waits for address pairs only. *)
Definition tame (k : key) (o : obj) : Prop :=
  cls o = LinkedSet ∨
  (is_addr k ∧ (∀ x, x ∈ members o → is_addr x) ∧
   (∀ t, _ct o = Some t → ∀ x, x ∈ t → is_addr x)).

(** The sets of [h] that exclude [k] are in [h'] exactly as they were. *)
Definition shielded (k : key) (h h' : heap) : Prop :=
  ∀ j oj, h !! j = Some oj → k ∈ exclusive oj → h' !! j = Some oj.

(** ** Stores and inputs of the further examples *)

(** A chain of three empty sets, the first linked to the second and the
    second to the third. *)
Definition chain3 : heap :=
  [Obj LinkedSet ∅ ∅ [1] ∅ None false;
   Obj LinkedSet ∅ ∅ [2] ∅ None false;
   Obj LinkedSet ∅ ∅ [] ∅ None false].

(** Three empty sets, the first linked to the two others. *)
Definition fan : heap :=
  [Obj LinkedSet ∅ ∅ [1; 2] ∅ None false;
   Obj LinkedSet ∅ ∅ [] ∅ None false;
   Obj LinkedSet ∅ ∅ [] ∅ None false].

(** An IPv4 address message and an address set that excludes its key. *)
Definition inet_msg : nlmsg :=
  Nlmsg 2 24 [("IFA_ADDRESS", AStr "10.0.0.5"); ("IFA_LOCAL", AStr "10.0.0.5")].

Definition excluding : heap :=
  [Obj IPaddrSet ∅ ∅ [] {[addr_v4]} None false].

(** Two sets, the first linked to the second, which excludes [key_a]. *)
Definition guarded : heap :=
  [Obj LinkedSet ∅ ∅ [1] ∅ None false;
   Obj LinkedSet ∅ ∅ [] {[key_a]} None false].

(** * Properties *)

(** ** The scenario of the documentation *)

Example scenario_members :
  (λ o, bool_decide (KAtom (AStr "x") ∈ members o)) <$> scenario = [true; true].
Proof. vm_compute. reflexivity. Qed.

Example scenario_payload :
  getitem scenario 1 (KAtom (AStr "x")) = Ok (PAtom (AInt 1)).
Proof. vm_compute. reflexivity. Qed.

Example scenario_removed :
  (λ o, bool_decide (KAtom (AStr "x") ∈ members o)) <$>
    run scenario [OpRemove 0 (Key (KAtom (AStr "x"))) (PAtom ANone) false]
  = [false; false].
Proof. vm_compute. reflexivity. Qed.

(** ** How one object changes *)

Lemma target_evolve_refl o : target_evolve o o.
Proof. by left. Qed.

Lemma target_evolve_trans o1 o2 o3 :
  target_evolve o1 o2 → target_evolve o2 o3 → target_evolve o1 o3.
Proof.
  intros [[E1 E2]|(S1 & E1 & E2)] [[F1 F2]|(S2 & F1 & F2)].
  - left. split; congruence.
  - right. rewrite <- E1. done.
  - right. split; [done|]. split; congruence.
  - rewrite E1 in S2. by destruct S2.
Qed.

Lemma ct_step_target o o' : ct_step o o' → target_evolve o o'.
Proof. intros [->|[S ->]]; [by left | by right]. Qed.

Lemma add_evolve_refl k r o : add_evolve k r o o.
Proof. repeat split; try done. by left. by left. Qed.

Lemma add_evolve_trans k r o1 o2 o3 :
  add_evolve k r o1 o2 → add_evolve k r o2 o3 → add_evolve k r o1 o3.
Proof.
  intros (C1 & L1 & X1 & M1 & T1) (C2 & L2 & X2 & M2 & T2).
  split; [congruence|]. split; [congruence|]. split; [congruence|].
  split; [|by eapply target_evolve_trans].
  destruct M1 as [[Ma Ra]|(Na & Ma & Ra)], M2 as [[Mb Rb]|(Nb & Mb & Rb)].
  - left. split; congruence.
  - right. rewrite <- Ma, <- Ra. done.
  - right. split; [done|]. split; congruence.
  - exfalso. apply Nb. rewrite Ma. apply elem_of_union_l. by apply elem_of_singleton.
Qed.

Lemma ct_step_add_evolve k r o o' : ct_step o o' → add_evolve k r o o'.
Proof.
  intros H. pose proof (ct_step_target _ _ H) as T.
  destruct H as [->|[S ->]]; repeat split; try done; by left.
Qed.

Lemma with_entry_add_evolve k r o :
  k ∉ members o → add_evolve k r o (with_entry k r o).
Proof. intros H. repeat split; try done. by right. by left. Qed.

Lemma remove_evolve_refl k o : remove_evolve k o o.
Proof. by left. Qed.

Lemma remove_evolve_trans k o1 o2 o3 :
  remove_evolve k o1 o2 → remove_evolve k o2 o3 → remove_evolve k o1 o3.
Proof.
  intros [->|[K1 S1]] [->|[K2 S2]].
  - by left.
  - by right.
  - by right.
  - exfalso. destruct S1 as [->|[_ ->]]; simpl in K2;
      apply elem_of_difference in K2 as [_ K2]; apply K2;
      by apply elem_of_singleton.
Qed.

(** ** Stores related object by object *)

Lemma heap_rel_insert (R : obj → obj → Prop) (h : heap) i o o' :
  (∀ x, R x x) → h !! i = Some o → R o o' → Forall2 R h (<[i := o']> h).
Proof.
  intros HR Hi Ho.
  rewrite <- (list_insert_id h i o Hi) at 1.
  apply Forall2_insert; [|done].
  apply Forall_Forall2_diag, Forall_forall. auto.
Qed.

Lemma heap_rel_refl (R : obj → obj → Prop) (h : heap) :
  (∀ x, R x x) → Forall2 R h h.
Proof. intros HR. apply Forall_Forall2_diag, Forall_forall. auto. Qed.

Lemma heap_rel_trans (R : obj → obj → Prop) (h1 h2 h3 : heap) :
  (∀ x y z, R x y → R y z → R x z) →
  Forall2 R h1 h2 → Forall2 R h2 h3 → Forall2 R h1 h3.
Proof. intros HR. apply Forall2_trans. exact HR. Qed.

Lemma heap_rel_lookup (R : obj → obj → Prop) (h h' : heap) i o :
  Forall2 R h h' → h !! i = Some o → ∃ o', h' !! i = Some o' ∧ R o o'.
Proof. intros H Hi. by eapply Forall2_lookup_l. Qed.

(** ** check_target *)

Lemma check_target_cases h i h' res :
  check_target h i = (h', res) →
  h' = h ∨
  (∃ o, h !! i = Some o ∧ is_Some (_ct o) ∧ res = Ok tt ∧
        h' = <[i := with_target None true o]> h).
Proof.
  unfold check_target. intros H.
  destruct (h !! i) as [o|] eqn:Hi; [|left; congruence].
  destruct (_ct o) as [t|] eqn:Ht; [|left; congruence].
  destruct (filtered _ (members o)); [|left; congruence].
  destruct (filtered _ t); [|left; congruence].
  case_bool_decide; [|left; congruence].
  right. exists o. rewrite Ht. split; [done|]. split; [by eexists|].
  split; congruence.
Qed.

Lemma check_target_rel h i h' res :
  check_target h i = (h', res) → Forall2 ct_step h h'.
Proof.
  intros H. destruct (check_target_cases _ _ _ _ H) as [->|(o & Hi & S & _ & ->)].
  - apply heap_rel_refl. by left.
  - eapply heap_rel_insert; [by left|done|by right].
Qed.

(** ** The loop over the links *)

Lemma for_each_rel (R : heap → list event → heap → Prop) body ls :
  (∀ h, R h [] h) →
  (∀ h1 e1 h2 e2 h3, R h1 e1 h2 → R h2 e2 h3 → R h1 (e1 ++ e2) h3) →
  (∀ l h h' ev res, l ∈ ls → body h l = (h', ev, res) → R h ev h') →
  ∀ h h' ev res, for_each body ls h = (h', ev, res) → R h ev h'.
Proof.
  intros Hrefl Htrans. induction ls as [|l ls IH]; intros Hb h h' ev res H.
  - simpl in H. by simplify_eq.
  - simpl in H.
    destruct (body h l) as [[h1 e1] [[]|e]] eqn:Hl.
    + destruct (for_each body ls h1) as [[h2 e2] r2] eqn:Hr. simplify_eq.
      eapply Htrans.
      * eapply Hb; [left|done].
      * eapply IH; [|done]. intros. eapply Hb; [by right|done].
    + simplify_eq. eapply Hb; [left|done].
Qed.

(** ** The store after add and after remove *)

Lemma add_fuel_rel n k r : ∀ h i c h' ev res,
  add_fuel n k r h i c = (h', ev, res) → Forall2 (add_evolve k r) h h'.
Proof.
  induction n as [|n IH]; intros h i c h' ev res H; simpl in H.
  { simplify_eq. apply heap_rel_refl, add_evolve_refl. }
  destruct (h !! i) as [o|] eqn:Hi;
    [|simplify_eq; apply heap_rel_refl, add_evolve_refl].
  destruct (c && bool_decide (k ∈ exclusive o));
    [simplify_eq; apply heap_rel_refl, add_evolve_refl|].
  case_bool_decide as Hk.
  - destruct (check_target h i) as [h1 r1] eqn:Hc. simplify_eq.
    eapply Forall2_impl; [by eapply check_target_rel|].
    apply ct_step_add_evolve.
  - destruct (for_each _ _ _) as [[h1 e1] r1] eqn:Hf.
    assert (Forall2 (add_evolve k r) h h1) as H1.
    { eapply heap_rel_trans; [apply add_evolve_trans| |].
      - eapply heap_rel_insert; [apply add_evolve_refl|done|].
        by apply with_entry_add_evolve.
      - eapply (for_each_rel (λ a _ b, Forall2 (add_evolve k r) a b));
          [| | |exact Hf]; simpl.
        + intros. apply heap_rel_refl, add_evolve_refl.
        + intros ?????. apply heap_rel_trans, add_evolve_trans.
        + intros l h0 h0' ev0 res0 _. apply IH. }
    destruct r1 as [[]|e]; [|by simplify_eq].
    destruct (check_target h1 i) as [h2 r2] eqn:Hc. simplify_eq.
    eapply heap_rel_trans; [apply add_evolve_trans|exact H1|].
    eapply Forall2_impl; [by eapply check_target_rel|].
    apply ct_step_add_evolve.
Qed.

Lemma heap_rel_insert_r (R : obj → obj → Prop) (h h1 : heap) i o x :
  Forall2 R h h1 → h !! i = Some o → R o x → Forall2 R h (<[i := x]> h1).
Proof.
  intros H Hi Hx. rewrite <- (list_insert_id h i o Hi).
  by apply Forall2_insert.
Qed.

Lemma remove_evolve_lacking k o o' :
  k ∉ members o → remove_evolve k o o' → o' = o.
Proof. intros Hk [->|[K _]]; done. Qed.

Lemma remove_link_rel (R : heap → list event → heap → Prop) rec k :
  (∀ h, R h [] h) →
  (∀ h l h' ev res o, h !! l = Some o → k ∈ members o →
     rec h l = (h', ev, res) → R h ev h') →
  ∀ h l h' ev res, remove_link rec k h l = (h', ev, res) → R h ev h'.
Proof.
  intros Hrefl Hrec h l h' ev res H. unfold remove_link in H.
  destruct (h !! l) as [ol|] eqn:Hl; [|by simplify_eq].
  case_bool_decide; [|by simplify_eq]. by eapply Hrec.
Qed.

Lemma remove_fuel_rel n k : ∀ h i c h' ev res,
  remove_fuel n k h i c = (h', ev, res) → Forall2 (remove_evolve k) h h'.
Proof.
  induction n as [|n IH]; intros h i c h' ev res H; simpl in H.
  { simplify_eq. apply heap_rel_refl, remove_evolve_refl. }
  destruct (h !! i) as [o|] eqn:Hi;
    [|simplify_eq; apply heap_rel_refl, remove_evolve_refl].
  destruct (c && bool_decide (k ∈ exclusive o));
    [simplify_eq; apply heap_rel_refl, remove_evolve_refl|].
  case_bool_decide as Hk;
    [|simplify_eq; apply heap_rel_refl, remove_evolve_refl].
  destruct (for_each _ _ _) as [[h1 e1] r1] eqn:Hf.
  set (h0 := <[i := without_member k o]> h) in *.
  assert (Forall2 (remove_evolve k) h0 h1) as H01.
  { eapply (for_each_rel (λ a _ b, Forall2 (remove_evolve k) a b));
      [| | |exact Hf]; simpl.
    - intros. apply heap_rel_refl, remove_evolve_refl.
    - intros ?????. apply heap_rel_trans, remove_evolve_trans.
    - intros l a b ev0 res0 _.
      apply (remove_link_rel (λ a _ b, Forall2 (remove_evolve k) a b)).
      + intros. apply heap_rel_refl, remove_evolve_refl.
      + intros ????????. apply IH. }
  assert (Forall2 (remove_evolve k) h h0) as H0.
  { eapply heap_rel_insert; [apply remove_evolve_refl|done|].
    right. split; [done|by left]. }
  assert (Forall2 (remove_evolve k) h h1) as H1.
  { eapply heap_rel_trans; [apply remove_evolve_trans|done|done]. }
  destruct r1 as [[]|e]; [|by simplify_eq].
  destruct (check_target h1 i) as [h2 r2] eqn:Hc. simplify_eq.
  destruct (check_target_cases _ _ _ _ Hc) as [->|(o1 & Hi1 & S & _ & ->)];
    [done|].
  eapply heap_rel_insert_r; [done|done|].
  assert (h0 !! i = Some (without_member k o)) as Hi0.
  { apply list_lookup_insert_eq. by eapply lookup_lt_Some. }
  destruct (heap_rel_lookup _ _ _ _ _ H01 Hi0) as (o1' & Hi1' & E).
  rewrite Hi1 in Hi1'. simplify_eq.
  apply remove_evolve_lacking in E as ->.
  - right. split; [done|]. by right.
  - simpl. intros [_ K]%elem_of_difference. apply K. by apply elem_of_singleton.
Qed.

(** ** Which errors can come out *)

Lemma subscript_err x n e :
  subscript x n = Err e → e = Exn TypeError ∨ e = Exn IndexError.
Proof.
  destruct x as [[|s|z]|a b]; simpl; intros H.
  - left. congruence.
  - destruct (String.get n s); [done|]. right. congruence.
  - left. congruence.
  - destruct n as [|[|n]]; [done|done|]. right. congruence.
Qed.

Lemma target_filter_err c x e :
  target_filter c x = Err e → e = Exn TypeError ∨ e = Exn IndexError.
Proof.
  destruct c; simpl; [done|].
  destruct (subscript x 0) as [x0|e0] eqn:H0.
  - destruct x0 as [|s|z]; simpl; try (intros; left; congruence).
    case_bool_decide; [|done].
    destruct (subscript x 1) as [x1|e1] eqn:H1; [done|].
    intros ?; simplify_eq. by eapply subscript_err.
  - intros ?; simplify_eq. by eapply subscript_err.
Qed.

Lemma filter_keys_err f l e :
  filter_keys f l = Err e → ∃ x, x ∈ l ∧ f x = Err e.
Proof.
  induction l as [|x l IH]; simpl; [done|].
  destruct (f x) as [b|e0] eqn:Hx.
  - destruct (filter_keys f l) as [r0|e1]; [done|].
    intros ?; simplify_eq. destruct IH as (y & Hy & Fy); [done|].
    exists y. split; [by right|done].
  - intros ?; simplify_eq. exists x. split; [left|done].
Qed.

Lemma filtered_err c s e :
  filtered (target_filter c) s = Err e →
  e = Exn TypeError ∨ e = Exn IndexError.
Proof.
  unfold filtered.
  destruct (filter_keys _ _) as [l|e0] eqn:H; [done|].
  intros ?; simplify_eq.
  apply filter_keys_err in H as (x & _ & Hx). by eapply target_filter_err.
Qed.

Lemma check_target_err h i h' e :
  check_target h i = (h', Err e) →
  h' = h ∧ (e = Exn TypeError ∨ e = Exn IndexError ∨ e = BadRef).
Proof.
  intros H. split.
  { by destruct (check_target_cases _ _ _ _ H) as [->|(? & _ & _ & ? & _)]. }
  unfold check_target in H.
  destruct (h !! i) as [o|]; [|simplify_eq; auto].
  destruct (_ct o) as [t|]; [|done].
  destruct (filtered _ (members o)) as [l|e1] eqn:H1.
  - destruct (filtered _ t) as [l'|e2] eqn:H2.
    + by case_bool_decide.
    + simplify_eq. apply filtered_err in H2. tauto.
  - simplify_eq. apply filtered_err in H1. tauto.
Qed.

Lemma check_target_fuel h i h' res :
  check_target h i = (h', res) → res ≠ Err OutOfFuel.
Proof.
  destruct res as [u|e]; [done|]. intros H ?; simplify_eq.
  apply check_target_err in H as [_ [?|[?|?]]]; done.
Qed.

Lemma check_target_no_keyerror h i h' res :
  check_target h i = (h', res) → res ≠ Raise KeyError.
Proof.
  destruct res as [u|e]; [done|]. intros H ?; simplify_eq.
  apply check_target_err in H as [_ [?|[?|?]]]; done.
Qed.

(** ** The bound on the depth of a cascade *)

Lemma lacking_le_length k h : lacking k h ≤ length h.
Proof. apply length_filter. Qed.

Lemma holding_le_length k h : holding k h ≤ length h.
Proof. apply length_filter. Qed.

Lemma add_evolve_holds k r o o' :
  add_evolve k r o o' → k ∈ members o → k ∈ members o'.
Proof.
  intros (_ & _ & _ & [[-> _]|(_ & -> & _)] & _) H; [done|].
  by apply elem_of_union_r.
Qed.

Lemma lacking_mono k r h h' :
  Forall2 (add_evolve k r) h h' → lacking k h' ≤ lacking k h.
Proof.
  unfold lacking. induction 1 as [|o o' h h' Ho _ IH]; [done|].
  rewrite !filter_cons.
  destruct (decide (k ∉ members o')) as [N'|N'];
    destruct (decide (k ∉ members o)) as [N|N]; simpl; try lia.
  exfalso. apply N'. eapply add_evolve_holds; [done|].
  by destruct (decide (k ∈ members o)).
Qed.

Lemma lacking_insert k r h i o :
  h !! i = Some o → k ∉ members o →
  S (lacking k (<[i := with_entry k r o]> h)) ≤ lacking k h.
Proof.
  unfold lacking. revert i. induction h as [|x h IH]; intros i Hi Hk; [done|].
  destruct i as [|i]; simpl in *.
  - simplify_eq. rewrite !filter_cons.
    destruct (decide (k ∉ members (with_entry k r o))) as [N|_].
    + exfalso. apply N. simpl. apply elem_of_union_l. by apply elem_of_singleton.
    + destruct (decide (k ∉ members o)); [simpl; lia|done].
  - rewrite !filter_cons. specialize (IH i Hi Hk).
    destruct (decide (k ∉ members x)); simpl; lia.
Qed.

Lemma remove_evolve_lacks k o o' :
  remove_evolve k o o' → k ∉ members o → k ∉ members o'.
Proof. intros H N. by rewrite (remove_evolve_lacking _ _ _ N H). Qed.

Lemma holding_mono k h h' :
  Forall2 (remove_evolve k) h h' → holding k h' ≤ holding k h.
Proof.
  unfold holding. induction 1 as [|o o' h h' Ho _ IH]; [done|].
  rewrite !filter_cons.
  destruct (decide (k ∈ members o')) as [N'|N'];
    destruct (decide (k ∈ members o)) as [N|N]; simpl; try lia.
  exfalso. by eapply remove_evolve_lacks.
Qed.

Lemma holding_insert k h i o :
  h !! i = Some o → k ∈ members o →
  S (holding k (<[i := without_member k o]> h)) ≤ holding k h.
Proof.
  unfold holding. revert i. induction h as [|x h IH]; intros i Hi Hk; [done|].
  destruct i as [|i]; simpl in *.
  - simplify_eq. rewrite !filter_cons.
    destruct (decide (k ∈ members (without_member k o))) as [N|_].
    + exfalso. simpl in N. apply elem_of_difference in N as [_ N].
      apply N. by apply elem_of_singleton.
    + destruct (decide (k ∈ members o)); [simpl; lia|done].
  - rewrite !filter_cons. specialize (IH i Hi Hk).
    destruct (decide (k ∈ members x)); simpl; lia.
Qed.

Lemma for_each_avoids (e0 : error) (P : heap → Prop) body ls :
  (∀ l h h' ev res, P h → body h l = (h', ev, res) →
     P h' ∧ res ≠ Err e0) →
  ∀ h h' ev res, P h → for_each body ls h = (h', ev, res) →
    res ≠ Err e0.
Proof.
  intros Hb. induction ls as [|l ls IH]; intros h h' ev res HP H; simpl in H.
  - by simplify_eq.
  - destruct (body h l) as [[h1 e1] [[]|e]] eqn:Hl.
    + destruct (for_each body ls h1) as [[h2 e2] r2] eqn:Hr. simplify_eq.
      eapply IH; [|done]. by eapply Hb.
    + simplify_eq. by eapply Hb.
Qed.

(** Unfold one level of a cascade in [H], keeping the inner calls folded. *)
Ltac unfold_cascade f H :=
  match type of H with
  | context [f (S ?n)] =>
      let m := fresh "m" in set (m := n) in H; cbn [f] in H
  end.

(** With one unit of fuel per set that lacks [k], and one more, [add]
    does not hit the bound. *)
Lemma add_fuel_enough k r n : ∀ h i c h' ev res,
  lacking k h ≤ n → add_fuel (S n) k r h i c = (h', ev, res) →
  res ≠ Err OutOfFuel.
Proof.
  induction n as [|n IH]; intros h i c h' ev res Hn H;
    unfold_cascade add_fuel H;
    (destruct (h !! i) as [o|] eqn:Hi; [|by simplify_eq]);
    (destruct (c && bool_decide (k ∈ exclusive o)); [by simplify_eq|]);
    case_bool_decide as Hk.
  - destruct (check_target h i) as [h1 r1] eqn:Hc. simplify_eq.
    by eapply check_target_fuel.
  - pose proof (lacking_insert k r h i o Hi Hk). lia.
  - destruct (check_target h i) as [h1 r1] eqn:Hc. simplify_eq.
    by eapply check_target_fuel.
  - destruct (for_each _ _ _) as [[h1 e1] r1] eqn:Hf.
    assert (r1 ≠ Err OutOfFuel) as Hr1.
    { eapply (for_each_avoids OutOfFuel (λ a, lacking k a ≤ n)); [| |exact Hf]; cbn beta.
      - intros l a b ev0 res0 Ha Hb. split; [|eapply IH; [exact Ha|exact Hb]].
        apply add_fuel_rel, (lacking_mono k r) in Hb. lia.
      - pose proof (lacking_insert k r h i o Hi Hk). lia. }
    destruct r1 as [[]|e]; [|by simplify_eq].
    destruct (check_target h1 i) as [h2 r2] eqn:Hc. simplify_eq.
    by eapply check_target_fuel.
Qed.

Lemma remove_fuel_enough k n : ∀ h i c h' ev res,
  holding k h ≤ n → remove_fuel (S n) k h i c = (h', ev, res) →
  res ≠ Err OutOfFuel.
Proof.
  induction n as [|n IH]; intros h i c h' ev res Hn H;
    unfold_cascade remove_fuel H;
    (destruct (h !! i) as [o|] eqn:Hi; [|by simplify_eq]);
    (destruct (c && bool_decide (k ∈ exclusive o)); [by simplify_eq|]);
    (case_bool_decide as Hk; [|by simplify_eq]).
  - pose proof (holding_insert k h i o Hi Hk). lia.
  - destruct (for_each _ _ _) as [[h1 e1] r1] eqn:Hf.
    assert (r1 ≠ Err OutOfFuel) as Hr1.
    { eapply (for_each_avoids OutOfFuel (λ a, holding k a ≤ n)); [| |exact Hf]; cbn beta.
      - intros l a b ev0 res0 Ha Hb. unfold remove_link in Hb.
        destruct (a !! l) as [ol|]; [|by simplify_eq].
        case_bool_decide; [|by simplify_eq].
        split; [|eapply IH; [exact Ha|exact Hb]].
        apply remove_fuel_rel, holding_mono in Hb. lia.
      - pose proof (holding_insert k h i o Hi Hk). lia. }
    destruct r1 as [[]|e]; [|by simplify_eq].
    destruct (check_target h1 i) as [h2 r2] eqn:Hc. simplify_eq.
    by eapply check_target_fuel.
Qed.

(** Fuel that was not used up makes no difference. *)
Lemma for_each_more body body' ls :
  (∀ h l, (body h l).2 ≠ Err OutOfFuel → body' h l = body h l) →
  ∀ h, (for_each body ls h).2 ≠ Err OutOfFuel →
    for_each body' ls h = for_each body ls h.
Proof.
  intros Hb. induction ls as [|l ls IH]; intros h H; simpl in *; [done|].
  destruct (body h l) as [[h1 e1] r1] eqn:Hl.
  rewrite Hb; rewrite Hl; simpl.
  - destruct r1 as [[]|e]; [|done].
    rewrite IH; [done|].
    by destruct (for_each body ls h1) as [[h2 e2] r2].
  - destruct r1 as [[]|e]; [done|]. exact H.
Qed.

Lemma add_fuel_S k r n : ∀ h i c,
  (add_fuel n k r h i c).2 ≠ Err OutOfFuel →
  add_fuel (S n) k r h i c = add_fuel n k r h i c.
Proof.
  induction n as [|n IH]; intros h i c H; [done|].
  set (m := S n) at 1. cbn [add_fuel]. cbn [add_fuel] in H.
  destruct (h !! i) as [o|] eqn:Hi; [|done].
  destruct (c && bool_decide (k ∈ exclusive o)); [done|].
  case_bool_decide as Hk; [done|].
  rewrite (for_each_more (λ h' l, add_fuel n k r h' l true)
                         (λ h' l, add_fuel m k r h' l true)).
  - done.
  - intros a l. apply IH.
  - destruct (for_each _ _ _) as [[h1 e1] [[]|e]]; [done|exact H].
Qed.

Lemma remove_fuel_S k n : ∀ h i c,
  (remove_fuel n k h i c).2 ≠ Err OutOfFuel →
  remove_fuel (S n) k h i c = remove_fuel n k h i c.
Proof.
  induction n as [|n IH]; intros h i c H; [done|].
  set (m := S n) at 1. cbn [remove_fuel]. cbn [remove_fuel] in H.
  destruct (h !! i) as [o|] eqn:Hi; [|done].
  destruct (c && bool_decide (k ∈ exclusive o)); [done|].
  case_bool_decide as Hk; [|done].
  rewrite (for_each_more
             (remove_link (λ h' l, remove_fuel n k h' l true) k)
             (remove_link (λ h' l, remove_fuel m k h' l true) k)).
  - done.
  - intros a l. unfold remove_link.
    destruct (a !! l) as [ol|]; [|done].
    case_bool_decide; [|done]. apply IH.
  - destruct (for_each _ _ _) as [[h1 e1] [[]|e]]; [done|exact H].
Qed.

Lemma add_fuel_more k r n m h i c :
  n ≤ m → (add_fuel n k r h i c).2 ≠ Err OutOfFuel →
  add_fuel m k r h i c = add_fuel n k r h i c.
Proof.
  induction 1 as [|m _ IH]; [done|]. intros H.
  rewrite add_fuel_S; rewrite IH; done.
Qed.

Lemma remove_fuel_more k n m h i c :
  n ≤ m → (remove_fuel n k h i c).2 ≠ Err OutOfFuel →
  remove_fuel m k h i c = remove_fuel n k h i c.
Proof.
  induction 1 as [|m _ IH]; [done|]. intros H.
  rewrite remove_fuel_S; rewrite IH; done.
Qed.

Lemma add_terminates h i k r c : (add h i k r c).2 ≠ Err OutOfFuel.
Proof.
  unfold add. destruct (add_fuel _ _ _ _ _ _) as [[h' ev] res] eqn:H.
  eapply add_fuel_enough; [|exact H]. apply lacking_le_length.
Qed.

Lemma remove_terminates h i k r c : (remove h i k r c).2 ≠ Err OutOfFuel.
Proof.
  unfold remove. destruct (remove_fuel _ _ _ _ _) as [[h' ev] res] eqn:H.
  eapply remove_fuel_enough; [|exact H]. apply holding_le_length.
Qed.

(** ** The trace of a cascade *)

Lemma has_lacks k h j : has k h j → lacks k h j → False.
Proof. intros (o & Ho & K) (o' & Ho' & K'). by simplify_eq. Qed.

Lemma mutated_app e1 e2 : mutated (e1 ++ e2) = mutated e1 ++ mutated e2.
Proof. apply omap_app. Qed.

Lemma has_add_mono k r h h' j :
  Forall2 (add_evolve k r) h h' → has k h j → has k h' j.
Proof.
  intros H (o & Ho & K).
  destruct (heap_rel_lookup _ _ _ _ _ H Ho) as (o' & Ho' & E).
  exists o'. split; [done|]. by eapply add_evolve_holds.
Qed.

Lemma lacks_add_anti k r h h' j :
  Forall2 (add_evolve k r) h h' → lacks k h' j → lacks k h j.
Proof.
  intros H (o' & Ho' & K).
  destruct (Forall2_lookup_r _ _ _ _ _ H Ho') as (o & Ho & E).
  exists o. split; [done|]. intros K'. apply K. by eapply add_evolve_holds.
Qed.

Lemma add_trace_nil k r h : add_trace k r h [] h.
Proof.
  split; [apply heap_rel_refl, add_evolve_refl|].
  split; [by intros j ?%elem_of_nil|].
  split; [constructor|].
  split; [|constructor].
  intros j o o' H1 H2 _. by simplify_eq.
Qed.

Lemma add_trace_app k r h1 e1 h2 e2 h3 :
  add_trace k r h1 e1 h2 → add_trace k r h2 e2 h3 →
  add_trace k r h1 (e1 ++ e2) h3.
Proof.
  intros (R1 & M1 & N1 & U1 & F1) (R2 & M2 & N2 & U2 & F2).
  split; [by eapply heap_rel_trans; [apply add_evolve_trans|..]|].
  rewrite mutated_app.
  split; [|split; [|split]].
  - intros j [Hj|Hj]%elem_of_app.
    + destruct (M1 j Hj) as [L H]. split; [done|]. by eapply has_add_mono.
    + destruct (M2 j Hj) as [L H]. split; [|done]. by eapply lacks_add_anti.
  - apply NoDup_app. split; [done|]. split; [|done].
    intros j Hj1 Hj2. destruct (M1 j Hj1) as [_ H]. destruct (M2 j Hj2) as [L _].
    by eapply has_lacks.
  - intros j o o'' Ho Ho'' Hj.
    destruct (heap_rel_lookup _ _ _ _ _ R1 Ho) as (o' & Ho' & _).
    destruct (U1 j o o' Ho Ho') as [A1 B1].
    { intros ?. apply Hj, elem_of_app. by left. }
    destruct (U2 j o' o'' Ho' Ho'') as [A2 B2].
    { intros ?. apply Hj, elem_of_app. by right. }
    split; congruence.
  - by apply Forall_app.
Qed.

Lemma add_trace_call k r h ev h' i c :
  add_trace k r h ev h' → add_trace k r h (ECall i c :: ev) h'.
Proof.
  intros (R & M & N & U & F).
  split; [done|]. split; [done|]. split; [done|]. split; [done|].
  by constructor.
Qed.

Lemma add_trace_check k r h i h' res :
  check_target h i = (h', res) → add_trace k r h [] h'.
Proof.
  intros H. pose proof (check_target_rel _ _ _ _ H) as R.
  split; [eapply Forall2_impl; [exact R|apply ct_step_add_evolve]|].
  split; [by intros j ?%elem_of_nil|].
  split; [constructor|].
  split; [|constructor].
  intros j o o' Ho Ho' _.
  destruct (heap_rel_lookup _ _ _ _ _ R Ho) as (o2 & Ho2 & [->|[_ ->]]);
    by simplify_eq.
Qed.

Lemma add_trace_insert k r h i o :
  h !! i = Some o → k ∉ members o →
  add_trace k r h [EInsert i k r] (<[i := with_entry k r o]> h).
Proof.
  intros Hi Hk.
  assert (<[i := with_entry k r o]> h !! i = Some (with_entry k r o)) as Hi'.
  { apply list_lookup_insert_eq. by eapply lookup_lt_Some. }
  split.
  { eapply heap_rel_insert; [apply add_evolve_refl|done|].
    by apply with_entry_add_evolve. }
  split; [|split; [|split]].
  - intros j ->%list_elem_of_singleton. split; [by exists o|].
    exists (with_entry k r o). split; [done|].
    simpl. apply elem_of_union_l. by apply elem_of_singleton.
  - apply NoDup_singleton.
  - intros j o1 o2 H1 H2 Hj.
    rewrite list_lookup_insert_ne in H2.
    + by simplify_eq.
    + intros ->. apply Hj. by apply list_elem_of_singleton.
  - by repeat constructor.
Qed.

Lemma add_fuel_trace n k r : ∀ h i c h' ev res,
  add_fuel n k r h i c = (h', ev, res) → add_trace k r h ev h'.
Proof.
  induction n as [|n IH]; intros h i c h' ev res H; simpl in H.
  { simplify_eq. apply add_trace_nil. }
  destruct (h !! i) as [o|] eqn:Hi; [|simplify_eq; apply add_trace_nil].
  destruct (c && bool_decide (k ∈ exclusive o));
    [simplify_eq; apply add_trace_call, add_trace_nil|].
  case_bool_decide as Hk.
  - destruct (check_target h i) as [h1 r1] eqn:Hc. simplify_eq.
    eapply add_trace_call, add_trace_check. done.
  - destruct (for_each _ _ _) as [[h1 e1] r1] eqn:Hf.
    assert (add_trace k r h (EInsert i k r :: e1) h1) as H1.
    { apply (add_trace_app k r h [EInsert i k r]
                           (<[i := with_entry k r o]> h) e1 h1).
      - by apply add_trace_insert.
      - eapply (for_each_rel (add_trace k r)); [| | |exact Hf].
        + apply add_trace_nil.
        + apply add_trace_app.
        + intros l a b ev0 res0 _. apply IH. }
    destruct r1 as [[]|e]; [|simplify_eq; by apply add_trace_call].
    destruct (check_target h1 i) as [h2 r2] eqn:Hc. simplify_eq.
    apply add_trace_call.
    rewrite <- (app_nil_r e1), app_comm_cons.
    eapply add_trace_app; [done|]. by eapply add_trace_check.
Qed.

Lemma no_gain_refl k o : no_gain k o o.
Proof. by intros ?. Qed.

Lemma no_gain_trans k o1 o2 o3 :
  no_gain k o1 o2 → no_gain k o2 o3 → no_gain k o1 o3.
Proof. unfold no_gain. auto. Qed.

Lemma lacks_remove_mono k h h' j :
  Forall2 (no_gain k) h h' → lacks k h j → lacks k h' j.
Proof.
  intros H (o & Ho & K).
  destruct (heap_rel_lookup _ _ _ _ _ H Ho) as (o' & Ho' & E).
  exists o'. split; [done|]. intros K'. by apply K, E.
Qed.

Lemma has_remove_anti k h h' j :
  Forall2 (no_gain k) h h' → has k h' j → has k h j.
Proof.
  intros H (o' & Ho' & K).
  destruct (Forall2_lookup_r _ _ _ _ _ H Ho') as (o & Ho & E).
  exists o. split; [done|]. by apply E.
Qed.

Lemma remove_trace_nil k h : remove_trace k h [] h.
Proof.
  split; [apply heap_rel_refl, no_gain_refl|].
  split; [by intros j ?%elem_of_nil|].
  split; [constructor|].
  split; [|constructor].
  intros j o o' H1 H2 _. by simplify_eq.
Qed.

Lemma remove_trace_app k h1 e1 h2 e2 h3 :
  remove_trace k h1 e1 h2 → remove_trace k h2 e2 h3 →
  remove_trace k h1 (e1 ++ e2) h3.
Proof.
  intros (R1 & M1 & N1 & U1 & F1) (R2 & M2 & N2 & U2 & F2).
  split; [by eapply heap_rel_trans; [apply no_gain_trans|..]|].
  rewrite mutated_app.
  split; [|split; [|split]].
  - intros j [Hj|Hj]%elem_of_app.
    + destruct (M1 j Hj) as [H L]. split; [done|]. by eapply lacks_remove_mono.
    + destruct (M2 j Hj) as [H L]. split; [|done]. by eapply has_remove_anti.
  - apply NoDup_app. split; [done|]. split; [|done].
    intros j Hj1 Hj2. destruct (M1 j Hj1) as [_ L]. destruct (M2 j Hj2) as [H _].
    by eapply has_lacks.
  - intros j o o'' Ho Ho'' Hj.
    destruct (heap_rel_lookup _ _ _ _ _ R1 Ho) as (o' & Ho' & _).
    rewrite (U2 j o' o'' Ho' Ho''), (U1 j o o' Ho Ho'); [done| |];
      intros ?; apply Hj, elem_of_app; auto.
  - by apply Forall_app.
Qed.

Lemma remove_trace_call k h ev h' i c :
  remove_trace k h ev h' → remove_trace k h (ECall i c :: ev) h'.
Proof.
  intros (R & M & N & U & F).
  split; [done|]. split; [done|]. split; [done|]. split; [done|].
  by constructor.
Qed.

Lemma remove_trace_check k h i h' res :
  check_target h i = (h', res) → remove_trace k h [] h'.
Proof.
  intros H. pose proof (check_target_rel _ _ _ _ H) as R.
  split.
  { eapply Forall2_impl; [exact R|].
    intros o o' [->|[_ ->]]; unfold no_gain; simpl; auto. }
  split; [by intros j ?%elem_of_nil|].
  split; [constructor|].
  split; [|constructor].
  intros j o o' Ho Ho' _.
  destruct (heap_rel_lookup _ _ _ _ _ R Ho) as (o2 & Ho2 & [->|[_ ->]]);
    by simplify_eq.
Qed.

Lemma remove_trace_discard k h i o :
  h !! i = Some o → k ∈ members o →
  remove_trace k h [EDiscard i k] (<[i := without_member k o]> h).
Proof.
  intros Hi Hk.
  assert (<[i := without_member k o]> h !! i = Some (without_member k o)) as Hi'.
  { apply list_lookup_insert_eq. by eapply lookup_lt_Some. }
  split.
  { eapply heap_rel_insert; [apply no_gain_refl|done|].
    intros K. simpl in K. by apply elem_of_difference in K as [K _]. }
  split; [|split; [|split]].
  - intros j ->%list_elem_of_singleton. split; [by exists o|].
    exists (without_member k o). split; [done|].
    simpl. intros [_ K]%elem_of_difference. apply K. by apply elem_of_singleton.
  - apply NoDup_singleton.
  - intros j o1 o2 H1 H2 Hj.
    rewrite list_lookup_insert_ne in H2.
    + by simplify_eq.
    + intros ->. apply Hj. by apply list_elem_of_singleton.
  - by repeat constructor.
Qed.

Lemma remove_fuel_trace n k : ∀ h i c h' ev res,
  remove_fuel n k h i c = (h', ev, res) → remove_trace k h ev h'.
Proof.
  induction n as [|n IH]; intros h i c h' ev res H; simpl in H.
  { simplify_eq. apply remove_trace_nil. }
  destruct (h !! i) as [o|] eqn:Hi; [|simplify_eq; apply remove_trace_nil].
  destruct (c && bool_decide (k ∈ exclusive o));
    [simplify_eq; apply remove_trace_call, remove_trace_nil|].
  case_bool_decide as Hk;
    [|simplify_eq; apply remove_trace_call, remove_trace_nil].
  destruct (for_each _ _ _) as [[h1 e1] r1] eqn:Hf.
  assert (remove_trace k h (EDiscard i k :: e1) h1) as H1.
  { apply (remove_trace_app k h [EDiscard i k]
                            (<[i := without_member k o]> h) e1 h1).
    - by apply remove_trace_discard.
    - eapply (for_each_rel (remove_trace k)); [| | |exact Hf].
      + apply remove_trace_nil.
      + apply remove_trace_app.
      + intros l a b ev0 res0 _. apply remove_link_rel.
        * apply remove_trace_nil.
        * intros ????????. apply IH. }
  destruct r1 as [[]|e]; [|simplify_eq; by apply remove_trace_call].
  destruct (check_target h1 i) as [h2 r2] eqn:Hc. simplify_eq.
  apply remove_trace_call.
  rewrite <- (app_nil_r e1), app_comm_cons.
  eapply remove_trace_app; [done|]. by eapply remove_trace_check.
Qed.

(** Every call that a cascade makes is marked as cascaded. *)
Lemma for_each_cascaded body ls :
  (∀ h l h' ev res, body h l = (h', ev, res) → Forall cascaded ev) →
  ∀ h h' ev res, for_each body ls h = (h', ev, res) → Forall cascaded ev.
Proof.
  intros Hb.
  apply (for_each_rel (λ _ ev _, Forall cascaded ev)).
  - intros _. constructor.
  - intros _ e1 _ e2 _. apply Forall_app_2.
  - intros l h h' ev res _. apply Hb.
Qed.

Lemma add_fuel_calls n k r : ∀ h i c h' ev res,
  add_fuel n k r h i c = (h', ev, res) →
  ev = [] ∨ ∃ ev', ev = ECall i c :: ev' ∧ Forall cascaded ev'.
Proof.
  induction n as [|n IH]; intros h i c h' ev res H; simpl in H.
  { left. by simplify_eq. }
  destruct (h !! i) as [o|] eqn:Hi; [|left; by simplify_eq].
  right.
  destruct (c && bool_decide (k ∈ exclusive o));
    [simplify_eq; eexists; split; [done|constructor]|].
  case_bool_decide as Hk.
  - destruct (check_target h i) as [h1 r1]. simplify_eq.
    eexists; split; [done|constructor].
  - destruct (for_each _ _ _) as [[h1 e1] r1] eqn:Hf.
    assert (Forall cascaded e1) as F.
    { eapply for_each_cascaded; [|exact Hf].
      intros a l b ev0 res0 Hb.
      destruct (IH _ _ _ _ _ _ Hb) as [->|(ev' & -> & F)]; by constructor. }
    destruct r1 as [[]|e].
    + destruct (check_target h1 i) as [h2 r2]. simplify_eq.
      eexists; split; [done|]. by constructor.
    + simplify_eq. eexists; split; [done|]. by constructor.
Qed.

Lemma remove_fuel_calls n k : ∀ h i c h' ev res,
  remove_fuel n k h i c = (h', ev, res) →
  ev = [] ∨ ∃ ev', ev = ECall i c :: ev' ∧ Forall cascaded ev'.
Proof.
  induction n as [|n IH]; intros h i c h' ev res H; simpl in H.
  { left. by simplify_eq. }
  destruct (h !! i) as [o|] eqn:Hi; [|left; by simplify_eq].
  right.
  destruct (c && bool_decide (k ∈ exclusive o));
    [simplify_eq; eexists; split; [done|constructor]|].
  case_bool_decide as Hk;
    [|simplify_eq; eexists; split; [done|constructor]].
  destruct (for_each _ _ _) as [[h1 e1] r1] eqn:Hf.
  assert (Forall cascaded e1) as F.
  { eapply for_each_cascaded; [|exact Hf].
    intros a l b ev0 res0.
    apply (remove_link_rel (λ _ ev _, Forall cascaded ev)).
    - intros _. constructor.
    - intros a' l' b' ev1 res1 o1 _ _ Hb.
      destruct (IH _ _ _ _ _ _ Hb) as [->|(ev' & -> & F)]; by constructor. }
  destruct r1 as [[]|e].
  - destruct (check_target h1 i) as [h2 r2]. simplify_eq.
    eexists; split; [done|]. by constructor.
  - simplify_eq. eexists; split; [done|]. by constructor.
Qed.

(** ** KeyError comes from the set that was asked, never from a link *)

Lemma remove_fuel_keyerror n k : ∀ h i c h' ev res,
  remove_fuel n k h i c = (h', ev, res) → has k h i → res ≠ Raise KeyError.
Proof.
  induction n as [|n IH]; intros h i c h' ev res H (o & Hi & Hk); simpl in H.
  { by simplify_eq. }
  rewrite Hi in H.
  destruct (c && bool_decide (k ∈ exclusive o)); [by simplify_eq|].
  rewrite bool_decide_eq_true_2 in H by done.
  destruct (for_each _ _ _) as [[h1 e1] r1] eqn:Hf.
  assert (r1 ≠ Raise KeyError) as Hr1.
  { eapply (for_each_avoids (Exn KeyError) (λ _, True)); [|done|exact Hf].
    intros l a b ev0 res0 _ Hb. split; [done|].
    unfold remove_link in Hb.
    destruct (a !! l) as [ol|] eqn:Hl; [|by simplify_eq].
    case_bool_decide; [|by simplify_eq].
    eapply IH; [exact Hb|]. by exists ol. }
  destruct r1 as [[]|e]; [|by simplify_eq].
  destruct (check_target h1 i) as [h2 r2] eqn:Hc. simplify_eq.
  by eapply check_target_no_keyerror.
Qed.

(** ** What a direct call does to the set it is made on *)

Lemma union_member (k : key) (s : gset key) : k ∈ s → {[k]} ∪ s = s.
Proof. intros H. apply subseteq_union_1_L. by apply singleton_subseteq_l. Qed.

Lemma add_fuel_direct n k r h i o h' ev res :
  h !! i = Some o → add_fuel (S n) k r h i false = (h', ev, res) →
  ∃ o', h' !! i = Some o' ∧ members o' = {[k]} ∪ members o ∧
        (k ∉ members o → raw o' = <[k := r]> (raw o) ∧ i ∈ mutated ev).
Proof.
  intros Hi H. pose proof (add_fuel_trace _ _ _ _ _ _ _ _ _ H) as T.
  destruct T as (R & M & _ & _ & _).
  destruct (heap_rel_lookup _ _ _ _ _ R Hi) as (o' & Hi' & E).
  exists o'. split; [done|].
  destruct (decide (k ∈ members o)) as [Hk|Hk].
  - split; [|done]. rewrite union_member by done.
    destruct E as (_ & _ & _ & [[-> _]|(N & _)] & _); done.
  - assert (i ∈ mutated ev) as Hm.
    { unfold_cascade add_fuel H. rewrite Hi in H. simpl in H.
      rewrite bool_decide_eq_false_2 in H by done.
      destruct (for_each _ _ _) as [[h1 e1] [[]|e]].
      - destruct (check_target h1 i). simplify_eq. simpl. left.
      - simplify_eq. simpl. left. }
    destruct (M i Hm) as [_ (o2 & Hi2 & K)]. simplify_eq.
    destruct E as (_ & _ & _ & [[Em _]|(_ & Em & Er)] & _).
    + rewrite Em in K. done.
    + done.
Qed.

Lemma remove_fuel_direct n k h i o h' ev res :
  h !! i = Some o → k ∈ members o →
  remove_fuel (S n) k h i false = (h', ev, res) →
  ∃ o', h' !! i = Some o' ∧ members o' = members o ∖ {[k]} ∧
        raw o' = raw o ∧ i ∈ mutated ev.
Proof.
  intros Hi Hk H. pose proof (remove_fuel_trace _ _ _ _ _ _ _ _ H) as T.
  pose proof (remove_fuel_rel _ _ _ _ _ _ _ _ H) as R.
  destruct T as (_ & M & _ & _ & _).
  destruct (heap_rel_lookup _ _ _ _ _ R Hi) as (o' & Hi' & E).
  exists o'. split; [done|].
  assert (i ∈ mutated ev) as Hm.
  { unfold_cascade remove_fuel H. rewrite Hi in H. simpl in H.
    rewrite bool_decide_eq_true_2 in H by done.
    destruct (for_each _ _ _) as [[h1 e1] [[]|e]].
    - destruct (check_target h1 i). simplify_eq. simpl. left.
    - simplify_eq. simpl. left. }
  destruct (M i Hm) as [_ (o2 & Hi2 & K)]. simplify_eq.
  destruct E as [->|[_ [->|[_ ->]]]]; done.
Qed.

(** ** What one operation can do to an object *)

Lemma change_same (q : op) i o : change q i o o.
Proof. left. by left. Qed.

Lemma lookup_insert_cases (h : heap) j x i o :
  h !! i = Some o →
  ∃ o', <[j := x]> h !! i = Some o' ∧ (o' = o ∨ (i = j ∧ o' = x)).
Proof.
  intros Hi. destruct (decide (i = j)) as [->|Hne].
  - exists x. split; [|by right].
    apply list_lookup_insert_eq. by eapply lookup_lt_Some.
  - exists o. split; [|by left]. by rewrite list_lookup_insert_ne.
Qed.

Lemma check_target_change h j i o :
  h !! i = Some o →
  ∃ o', (check_target h j).1 !! i = Some o' ∧ ct_step o o'.
Proof.
  intros Hi. destruct (check_target h j) as [h' res] eqn:H.
  apply check_target_rel in H. by eapply heap_rel_lookup.
Qed.

Lemma set_target_change h j v i o :
  h !! i = Some o →
  ∃ o', (set_target h j v).1 !! i = Some o' ∧ change (OpSetTarget j v) i o o'.
Proof.
  intros Hi. unfold set_target.
  destruct (h !! j) as [oj|] eqn:Hj; [|exists o; split; [done|apply change_same]].
  destruct v as [v|]; simpl.
  - destruct (lookup_insert_cases h j (with_target (Some v) false oj) i o Hi)
      as (o1 & Hi1 & Ho1).
    destruct (check_target_change _ j i o1 Hi1)
      as (o2 & Hi2 & S).
    exists o2. split; [done|].
    destruct Ho1 as [->|[-> ->]].
    + by left.
    + simplify_eq. do 5 right. exists (Some v).
      destruct S as [->|[_ ->]]; eauto.
  - destruct (lookup_insert_cases h j (with_target None false oj) i o Hi)
      as (o1 & Hi1 & Ho1); exists o1; (split; [done|]);
      destruct Ho1 as [->|[-> ->]].
    + apply change_same.
    + simplify_eq. do 5 right. by exists None, None, false.
Qed.

Lemma add_change h j a p c0 k r c i o :
  h !! i = Some o →
  ∃ o', (add h j k r c).1.1 !! i = Some o' ∧ change (OpAdd j a p c0) i o o'.
Proof.
  intros Hi. unfold add.
  destruct (add_fuel _ _ _ _ _ _) as [[h' ev] res] eqn:H.
  apply add_fuel_rel in H.
  destruct (heap_rel_lookup _ _ _ _ _ H Hi) as (o' & Hi' & E).
  exists o'. split; [done|]. right. left. by exists j, a, p, c0, k, r.
Qed.

Lemma remove_change (q : op) h j k r c i o :
  h !! i = Some o →
  ∃ o', (remove h j k r c).1.1 !! i = Some o' ∧ change q i o o'.
Proof.
  intros Hi. unfold remove.
  destruct (remove_fuel _ _ _ _ _) as [[h' ev] res] eqn:H.
  apply remove_fuel_rel in H.
  destruct (heap_rel_lookup _ _ _ _ _ H Hi) as (o' & Hi' & E).
  exists o'. split; [done|]. do 2 right. left. eauto.
Qed.

Lemma step_change (h : heap) (q : op) i o :
  h !! i = Some o →
  ∃ o', (step h q).1.1 !! i = Some o' ∧ change q i o o'.
Proof.
  intros Hi. destruct q as [c seed|j v|j|j a r c|j a r c|j k|j k|j l|j l]; simpl.
  - exists o. split; [|apply change_same].
    rewrite lookup_app_l; [done|]. by eapply lookup_lt_Some.
  - by apply set_target_change.
  - destruct (check_target_change h j i o Hi) as (o' & Hi' & S).
    exists o'. split; [done|]. by left.
  - unfold call_add.
    destruct (h !! j) as [oj|]; [|exists o; split; [done|apply change_same]].
    destruct (cls oj), a as [k|m]; simpl;
      try (by apply add_change).
    exists o; split; [done|apply change_same].
  - unfold call_remove.
    destruct (h !! j) as [oj|]; [|exists o; split; [done|apply change_same]].
    destruct (cls oj), a as [k|m]; simpl;
      try (by apply remove_change).
    exists o; split; [done|apply change_same].
  - unfold unlink.
    destruct (h !! j) as [oj|] eqn:Hj; [|exists o; split; [done|apply change_same]].
    simpl. destruct (lookup_insert_cases h j
                       (with_exclusive ({[k]} ∪ exclusive oj) oj) i o Hi)
      as (o1 & Hi1 & Ho1); exists o1; (split; [done|]);
      destruct Ho1 as [->|[-> ->]].
    + apply change_same.
    + simplify_eq. do 4 right. left. eauto.
  - unfold relink.
    destruct (h !! j) as [oj|] eqn:Hj; [|exists o; split; [done|apply change_same]].
    case_bool_decide; [|exists o; split; [done|apply change_same]].
    simpl. destruct (lookup_insert_cases h j
                       (with_exclusive (exclusive oj ∖ {[k]}) oj) i o Hi)
      as (o1 & Hi1 & Ho1); exists o1; (split; [done|]);
      destruct Ho1 as [->|[-> ->]].
    + apply change_same.
    + simplify_eq. do 4 right. left. eauto.
  - unfold connect.
    destruct (h !! j) as [oj|] eqn:Hj; [|exists o; split; [done|apply change_same]].
    destruct (h !! l); [|exists o; split; [done|apply change_same]].
    simpl. destruct (lookup_insert_cases h j
                       (with_links (links oj ++ [l]) oj) i o Hi)
      as (o1 & Hi1 & Ho1); exists o1; (split; [done|]);
      destruct Ho1 as [->|[-> ->]].
    + apply change_same.
    + simplify_eq. do 3 right. left. eauto.
  - unfold disconnect.
    destruct (h !! j) as [oj|] eqn:Hj; [|exists o; split; [done|apply change_same]].
    destruct (list_remove_first _ _) as [ls|];
      [|exists o; split; [done|apply change_same]].
    simpl. destruct (lookup_insert_cases h j (with_links ls oj) i o Hi)
      as (o1 & Hi1 & Ho1); exists o1; (split; [done|]);
      destruct Ho1 as [->|[-> ->]].
    + apply change_same.
    + simplify_eq. do 3 right. left. eauto.
Qed.

(** ** The size of the store *)

Lemma check_target_length (h : heap) i : length (check_target h i).1 = length h.
Proof.
  destruct (check_target h i) as [h' res] eqn:H.
  apply check_target_rel, Forall2_length in H. done.
Qed.

Lemma step_shape (h : heap) q :
  (∃ c seed, q = OpNew c seed ∧ (step h q).1.1 = h ++ [new_obj c seed]) ∨
  length (step h q).1.1 = length h.
Proof.
  destruct q as [c seed|j v|j|j a r c|j a r c|j k0|j k0|j l|j l]; simpl.
  - left. eauto.
  - right. unfold set_target. destruct (h !! j); [|done].
    destruct v; simpl.
    + by rewrite check_target_length, length_insert.
    + by rewrite length_insert.
  - right. apply check_target_length.
  - right. unfold call_add. destruct (h !! j) as [oj|]; [|done].
    assert (∀ k p c', length (add h j k p c').1.1 = length h) as Hadd.
    { intros k p c'. unfold add.
      destruct (add_fuel _ _ _ _ _ _) as [[h' ev] res] eqn:H.
      apply add_fuel_rel, Forall2_length in H. done. }
    destruct (cls oj), a; simpl; auto.
  - right. unfold call_remove. destruct (h !! j) as [oj|]; [|done].
    assert (∀ k p c', length (remove h j k p c').1.1 = length h) as Hrem.
    { intros k p c'. unfold remove.
      destruct (remove_fuel _ _ _ _ _) as [[h' ev] res] eqn:H.
      apply remove_fuel_rel, Forall2_length in H. done. }
    destruct (cls oj), a; simpl; auto.
  - right. unfold unlink. destruct (h !! j); [|done]. apply length_insert.
  - right. unfold relink. destruct (h !! j); [|done].
    case_bool_decide; [|done]. apply length_insert.
  - right. unfold connect. destruct (h !! j); [|done].
    destruct (h !! l); [|done]. apply length_insert.
  - right. unfold disconnect. destruct (h !! j); [|done].
    destruct (list_remove_first _ _); [|done]. apply length_insert.
Qed.

(** ** Operations while no target is active *)

Lemma change_no_target q i o o' :
  change q i o o' → not_set_target_on i q → _ct o = None →
  _ct o' = None ∧ target o' = target o.
Proof.
  intros [S|[(j & a & p & c0 & k & r & _ & E)|[(k & E)|[(ls & ->)|[(x & ->)|
            (v & c & t & -> & _)]]]]] Hq Hc.
  - destruct S as [->|[S ->]]; [done|]. rewrite Hc in S. by destruct S.
  - destruct E as (_ & _ & _ & _ & [[E1 E2]|(S & _)]).
    + split; congruence.
    + rewrite Hc in S. by destruct S.
  - destruct E as [->|[_ [->|[S ->]]]]; try done.
    simpl in S. rewrite Hc in S. by destruct S.
  - done.
  - done.
  - by destruct (Hq v).
Qed.

Lemma run_no_target ops : ∀ (h : heap) i o,
  h !! i = Some o → _ct o = None → Forall (not_set_target_on i) ops →
  ∃ o', run h ops !! i = Some o' ∧ _ct o' = None ∧ target o' = target o.
Proof.
  induction ops as [|q ops IH]; intros h i o Hi Hc F.
  - exists o. by simpl.
  - apply Forall_cons in F as [Hq F].
    destruct (step_change h q i o Hi) as (o1 & Hi1 & C).
    destruct (change_no_target _ _ _ _ C Hq Hc) as [Hc1 Ht1].
    destruct (IH _ i o1 Hi1 Hc1 F) as (o' & Hi' & Hc' & Ht').
    exists o'. split; [exact Hi'|]. split; [done|]. congruence.
Qed.

(** ** The filter of IPaddrSet *)








(** ** Every call leaves a trace *)

Lemma add_fuel_entered n k r (h : heap) i o c h' ev res :
  h !! i = Some o → add_fuel (S n) k r h i c = (h', ev, res) → ev ≠ [].
Proof.
  intros Hi H. unfold_cascade add_fuel H. rewrite Hi in H.
  destruct (c && bool_decide (k ∈ exclusive o)); [by simplify_eq|].
  case_bool_decide.
  - destruct (check_target h i). by simplify_eq.
  - destruct (for_each _ _ _) as [[h1 e1] [[]|e]]; [|by simplify_eq].
    destruct (check_target h1 i). by simplify_eq.
Qed.

Lemma remove_fuel_entered n k (h : heap) i o c h' ev res :
  h !! i = Some o → remove_fuel (S n) k h i c = (h', ev, res) → ev ≠ [].
Proof.
  intros Hi H. unfold_cascade remove_fuel H. rewrite Hi in H.
  destruct (c && bool_decide (k ∈ exclusive o)); [by simplify_eq|].
  case_bool_decide; [|by simplify_eq].
  destruct (for_each _ _ _) as [[h1 e1] [[]|e]]; [|by simplify_eq].
  destruct (check_target h1 i). by simplify_eq.
Qed.

(** ** Members and payload keys *)




(** ** Payload keys and members *)








(** ** The payloads that a trace records *)

Lemma run_from_heap ops : ∀ s, (run_from s ops).1 = run s.1 ops.
Proof.
  induction ops as [|q ops IH]; intros s; [done|].
  simpl. unfold run_from in IH. by rewrite IH.
Qed.

Lemma stored_app e1 e2 i k :
  stored (e1 ++ e2) i k = overlay e2 i k (stored e1 i k).
Proof.
  unfold overlay. induction e1 as [|e e1 IH]; simpl.
  - by destruct (stored e2 i k).
  - rewrite IH. destruct (stored e2 i k); [done|].
    by destruct (stored e1 i k).
Qed.

Lemma stored_not_mutated ev i k :
  i ∉ mutated ev → stored ev i k = None.
Proof.
  induction ev as [|e ev IH]; [done|]. intros H. simpl.
  destruct e as [j c|j k' p|j k']; simpl in H.
  - by rewrite IH.
  - apply not_elem_of_cons in H as [Hne H]. rewrite IH by done.
    rewrite bool_decide_eq_false_2; [done|]. by intros [-> _].
  - apply not_elem_of_cons in H as [Hne H]. by rewrite IH.
Qed.

Lemma stored_add_events k r ev i k' p :
  Forall (add_event k r) ev → stored ev i k' = Some p →
  k' = k ∧ p = r ∧ i ∈ mutated ev.
Proof.
  induction 1 as [|e ev He F IH]; [done|]. simpl.
  destruct (stored ev i k') as [p'|] eqn:Hs.
  - intros ?; simplify_eq. destruct (IH eq_refl) as (-> & -> & Hm).
    split; [done|]. split; [done|].
    destruct e; simpl; [done|by right|by right].
  - destruct e as [j c|j k2 p2|j k2]; [done| |done].
    case_bool_decide as Hd; [|done]. intros ?; simplify_eq.
    destruct Hd as [-> ->]. destruct He as [-> ->].
    split; [done|]. split; [done|]. simpl. left.
Qed.

Lemma stored_add_mutated k r ev i :
  Forall (add_event k r) ev → i ∈ mutated ev → stored ev i k = Some r.
Proof.
  induction 1 as [|e ev He F IH]; [by intros ?%elem_of_nil|].
  intros Hm. simpl.
  destruct (decide (i ∈ mutated ev)) as [Hi|Hi].
  { by rewrite IH. }
  rewrite stored_not_mutated by done.
  destruct e as [j c|j k2 p2|j k2]; simpl in Hm.
  - done.
  - apply elem_of_cons in Hm as [->|Hm]; [|done].
    destruct He as [-> ->]. by rewrite bool_decide_eq_true_2.
  - done.
Qed.

Lemma stored_remove_events k ev i k' :
  Forall (remove_event k) ev → stored ev i k' = None.
Proof.
  induction 1 as [|e ev He F IH]; [done|]. simpl. rewrite IH.
  by destruct e.
Qed.

(** The payloads after [add] are the payloads before, overlaid with the
    insertions of its trace. *)
Lemma add_payload (h : heap) j k r c i o :
  h !! i = Some o →
  ∃ o', (add h j k r c).1.1 !! i = Some o' ∧
        ∀ k', raw o' !! k' = overlay (add h j k r c).1.2 i k' (raw o !! k').
Proof.
  intros Hi. unfold add.
  destruct (add_fuel _ _ _ _ _ _) as [[h' ev] res] eqn:H. simpl.
  destruct (add_fuel_trace _ _ _ _ _ _ _ _ _ H) as (R & M & _ & U & F).
  destruct (heap_rel_lookup _ _ _ _ _ R Hi) as (o' & Hi' & E).
  exists o'. split; [done|]. intros k'. unfold overlay.
  destruct (decide (i ∈ mutated ev)) as [Hm|Hm].
  - destruct (M i Hm) as [(o1 & H1 & K1) (o2 & H2 & K2)]. simplify_eq.
    destruct E as (_ & _ & _ & [[Em _]|(_ & _ & Er)] & _).
    { rewrite Em in K2. done. }
    rewrite Er. destruct (decide (k' = k)) as [->|Hne].
    + rewrite (stored_add_mutated k r) by done. apply lookup_insert_eq.
    + rewrite lookup_insert_ne by done.
      destruct (stored ev i k') as [p|] eqn:Hs; [|done].
      by destruct (stored_add_events _ _ _ _ _ _ F Hs) as (? & _).
  - rewrite stored_not_mutated by done.
    destruct (U i o o' Hi Hi' Hm) as [_ ->]. done.
Qed.

Lemma add_trace_bound (h : heap) j k r c i k' :
  length h ≤ i → stored (add h j k r c).1.2 i k' = None.
Proof.
  intros Hlen. unfold add.
  destruct (add_fuel _ _ _ _ _ _) as [[h' ev] res] eqn:H. simpl.
  destruct (add_fuel_trace _ _ _ _ _ _ _ _ _ H) as (_ & M & _).
  apply stored_not_mutated. intros Hm.
  destruct (M i Hm) as [(o1 & H1 & _) _]. apply lookup_lt_Some in H1. lia.
Qed.

Lemma remove_no_store (h : heap) j k r c i k' :
  stored (remove h j k r c).1.2 i k' = None.
Proof.
  unfold remove.
  destruct (remove_fuel _ _ _ _ _) as [[h' ev] res] eqn:H. simpl.
  destruct (remove_fuel_trace _ _ _ _ _ _ _ _ H) as (_ & _ & _ & _ & F).
  by eapply stored_remove_events.
Qed.

Lemma change_raw q i o o' :
  change q i o o' → (∀ j a p c, q ≠ OpAdd j a p c) → raw o' = raw o.
Proof.
  intros [S|[(j & a & p & c0 & k & r & -> & E)|[(k & E)|[(ls & ->)|[(x & ->)|
            (v & c & t & _ & ->)]]]]] Hq; try done.
  - by destruct S as [->|[_ ->]].
  - by destruct (Hq j a p c0).
  - by destruct E as [->|[_ [->|[_ ->]]]].
Qed.

Lemma step_no_store (h : heap) q i k :
  (∀ j a p c, q ≠ OpAdd j a p c) → stored (step h q).1.2 i k = None.
Proof.
  intros Hq.
  destruct q as [c seed|j v|j|j a r c|j a r c|j k0|j k0|j l|j l]; try done.
  - by destruct (Hq j a r c).
  - simpl. unfold call_remove. destruct (h !! j) as [oj|]; [|done].
    destruct (cls oj), a as [k1|m]; simpl; try apply remove_no_store. done.
Qed.

Lemma op_add_or_not (q : op) :
  (∃ j a p c, q = OpAdd j a p c) ∨ (∀ j a p c, q ≠ OpAdd j a p c).
Proof. destruct q; try (by right); left; eauto. Qed.

Lemma step_payload (h : heap) q i o :
  h !! i = Some o →
  ∃ o', (step h q).1.1 !! i = Some o' ∧
        ∀ k, raw o' !! k = overlay (step h q).1.2 i k (raw o !! k).
Proof.
  intros Hi.
  destruct (op_add_or_not q) as [(j & a & p & c & ->)|Hq].
  - simpl. unfold call_add.
    destruct (h !! j) as [oj|]; [|by exists o].
    destruct (cls oj), a as [k1|m]; simpl; try (by apply add_payload).
    by exists o.
  - destruct (step_change h q i o Hi) as (o' & Hi' & C).
    exists o'. split; [done|]. intros k. unfold overlay.
    rewrite step_no_store by done. by rewrite (change_raw _ _ _ _ C Hq).
Qed.

Lemma step_trace_bound (h : heap) q i k :
  length h ≤ i → stored (step h q).1.2 i k = None.
Proof.
  intros Hlen.
  destruct (op_add_or_not q) as [(j & a & p & c & ->)|Hq].
  - simpl. unfold call_add. destruct (h !! j) as [oj|]; [|done].
    destruct (cls oj), a as [k1|m]; simpl; try (by apply add_trace_bound).
    done.
  - by apply step_no_store.
Qed.

Lemma step_tracked s q :
  tracked s → tracked ((step s.1 q).1.1, s.2 ++ (step s.1 q).1.2).
Proof.
  destruct s as [h ev]. intros [T B]. simpl in *. split; simpl.
  - intros i o' Hi' k. rewrite stored_app.
    destruct (h !! i) as [o|] eqn:Hi.
    + destruct (step_payload h q i o Hi) as (o2 & Hi2 & P).
      simplify_eq. rewrite P. by rewrite (T i o Hi k).
    + apply lookup_ge_None in Hi.
      unfold overlay. rewrite step_trace_bound by done. rewrite B by done.
      destruct (step_shape h q) as [(c & seed & -> & E)|E].
      * simpl in Hi'. rewrite lookup_app_r in Hi' by done.
        destruct (i - length h) as [|n]; simpl in Hi'; [|done].
        by simplify_eq.
      * apply lookup_lt_Some in Hi'. lia.
  - intros i k Hlen. rewrite stored_app. unfold overlay.
    assert (length h ≤ i) as Hlen'.
    { destruct (step_shape h q) as [(c & seed & -> & E)|E].
      - simpl in Hlen. rewrite length_app in Hlen. lia.
      - lia. }
    rewrite step_trace_bound by done. by apply B.
Qed.

Lemma run_from_tracked ops : ∀ s, tracked s → tracked (run_from s ops).
Proof.
  induction ops as [|q ops IH]; intros s T; [done|].
  simpl. apply IH. by apply step_tracked.
Qed.

Lemma run_trace_tracked ops : tracked (run_trace ops).
Proof. apply run_from_tracked. split; [by intros i o ?|done]. Qed.

(** * The claims *)

Lemma outcome_eta {A} (x : outcome A) : x = (x.1.1, x.1.2, x.2).
Proof. by destruct x as [[??]?]. Qed.

(** Settle a closed decidable statement by evaluating its decision. *)
Ltac by_compute :=
  match goal with
  | |- ?P => apply (@bool_decide_unpack P _); vm_compute; exact I
  end.

(** ** C1: payload keys and members *)




(** ** C2: a message of another address family *)

(** C2.  What the code does with a message whose family is neither
    [AF_INET] nor [AF_INET6]: [_get_addr_nla] returns [None], and
    [IPaddrSet.add] adds that [None] as a key, with the payload dict built
    from the message; [IPaddrSet.remove] asks [LinkedSet.remove] to remove
    the key [None], which raises [KeyError] when it is not a member.  The
    filter of the class cannot take the key [None]: it raises
    [TypeError]. *)
Theorem other_family_message (h : heap) i o m r c :
  h !! i = Some o → cls o = IPaddrSet →
  family m ≠ AF_INET → family m ≠ AF_INET6 →
  KAtom ANone ∉ members o →
  _get_addr_nla m = KAtom ANone ∧
  (∃ o', (call_add h i (Msg m) r c).1.1 !! i = Some o' ∧
         members o' = {[KAtom ANone]} ∪ members o ∧
         raw o' !! KAtom ANone = Some (raw_of_msg m)) ∧
  call_remove h i (Msg m) r false = (h, [ECall i false], Raise KeyError) ∧
  target_filter IPaddrSet (_get_addr_nla m) = Raise TypeError.
Proof.
  intros Hi Hc H4 H6 Hk.
  assert (_get_addr_nla m = KAtom ANone) as E.
  { unfold _get_addr_nla. by rewrite !bool_decide_eq_false_2. }
  split; [done|]. split; [|split].
  - unfold call_add. rewrite Hi, Hc. simpl. rewrite E. unfold add.
    destruct (add_fuel _ _ _ _ _ _) as [[h' ev] res] eqn:H. simpl.
    destruct (add_fuel_direct _ _ _ _ _ _ _ _ _ Hi H) as (o' & Hi' & Hm & Hr).
    exists o'. split; [done|]. split; [done|].
    destruct (Hr Hk) as [-> _]. apply lookup_insert_eq.
  - unfold call_remove. rewrite Hi, Hc. simpl. rewrite E.
    unfold remove. cbn [remove_fuel]. rewrite Hi. simpl.
    by rewrite bool_decide_eq_false_2.
  - by rewrite E.
Qed.

Lemma other_family_message_witness :
  ∃ o', (call_add [new_obj IPaddrSet []] 0 (Msg phonet_msg)
                  (PAtom ANone) false).1.1 !! 0 = Some o' ∧
        members o' = {[KAtom ANone]} ∪ ∅ ∧
        raw o' !! KAtom ANone
        = Some (PDict (AStr "6c") ANone ANone ANone (AInt 0)).
Proof.
  destruct (other_family_message [new_obj IPaddrSet []] 0
              (new_obj IPaddrSet []) phonet_msg (PAtom ANone) false)
    as (_ & H & _).
  - reflexivity.
  - reflexivity.
  - by_compute.
  - by_compute.
  - by_compute.
  - exact H.
Defined.

(** ** C3: a target that already holds is not missed *)

(** C3. When the filtered members of a set already equal the filtered
    desired set, [set_target(desired)] itself sets the event and clears
    the target: the store it returns is the old one with the object's
    target off and its event set, so a wait with no timeout sees the
    event set without any further mutation. *)
Theorem set_target_already_reached (h : heap) i o (v l : gset key) :
  h !! i = Some o →
  filtered (target_filter (cls o)) (members o) = Ok l →
  filtered (target_filter (cls o)) v = Ok l →
  set_target h i (Some v) = (<[i := with_target None true o]> h, Ok tt) ∧
  is_set (set_target h i (Some v)).1 i = Ok true ∧
  (∃ o', (set_target h i (Some v)).1 !! i = Some o' ∧ _ct o' = None ∧
         target o' = true ∧ members o' = members o).
Proof.
  intros Hi Hl Hv.
  assert (i < length h) as Hlt by by eapply lookup_lt_Some.
  assert (set_target h i (Some v)
          = (<[i := with_target None true o]> h, Ok tt)) as E.
  { unfold set_target, check_target. rewrite Hi.
    rewrite list_lookup_insert_eq by done. simpl. rewrite Hl, Hv.
    rewrite bool_decide_eq_true_2 by done.
    by rewrite list_insert_insert_eq. }
  rewrite E. split; [done|]. unfold is_set. simpl.
  rewrite list_lookup_insert_eq by done. split; [done|].
  by eexists.
Qed.

Lemma set_target_already_reached_witness :
  is_set (set_target [Obj LinkedSet {[key_a; key_b]} ∅ [] ∅ None false] 0
                     (Some {[key_a; key_b]})).1 0 = Ok true.
Proof.
  eapply (set_target_already_reached _ 0 _ _ {[key_a; key_b]}).
  - reflexivity.
  - by_compute.
  - by_compute.
Defined.

(** ** C4: reaching a target is one-shot *)

(** C4. With a target [t] active, [check_target] compares the filtered
    members with the filtered target.  When they are equal it clears the
    target and sets the event, and from then on no operation other than a
    new [set_target] on that set changes either: the target stays
    cleared and the event stays set, whatever is added or removed.  When
    they differ, [check_target] leaves the store unchanged. *)
Theorem target_one_shot (h : heap) i o (t l l' : gset key) :
  h !! i = Some o → _ct o = Some t →
  filtered (target_filter (cls o)) (members o) = Ok l →
  filtered (target_filter (cls o)) t = Ok l' →
  (l = l' →
     check_target h i = (<[i := with_target None true o]> h, Ok tt) ∧
     ∀ ops, Forall (not_set_target_on i) ops →
       ∃ o', run (check_target h i).1 ops !! i = Some o' ∧
             _ct o' = None ∧ target o' = true) ∧
  (l ≠ l' → check_target h i = (h, Ok tt)).
Proof.
  intros Hi Hc Hl Hl'. unfold check_target. rewrite Hi, Hc, Hl, Hl'. split.
  - intros E. rewrite bool_decide_eq_true_2 by done. split; [done|].
    intros ops F. simpl.
    eapply (run_no_target ops _ i (with_target None true o)); [|done|done].
    apply list_lookup_insert_eq. by eapply lookup_lt_Some.
  - intros E. by rewrite bool_decide_eq_false_2.
Qed.

Lemma target_one_shot_witness :
  ∃ o', run (check_target waiting 0).1
            [OpAdd 0 (Key key_c) (PAtom ANone) false;
             OpRemove 0 (Key key_a) (PAtom ANone) false] !! 0 = Some o' ∧
        _ct o' = None ∧ target o' = true.
Proof.
  eapply (target_one_shot waiting 0 _ {[key_a; key_b]}
            {[key_a; key_b]} {[key_a; key_b]}).
  - reflexivity.
  - reflexivity.
  - by_compute.
  - by_compute.
  - reflexivity.
  - repeat constructor; intros v; discriminate.
Defined.

(** ** C5: a duplicate add is absorbed *)

(** C5. Adding a key that the set already holds changes neither its
    members nor its payloads (the new payload is not written), enters no
    linked set, and leaves every other object of the store as it was;
    only the target check of the set itself runs. *)
Theorem duplicate_add_absorbed (h : heap) i o k p c h' ev res :
  h !! i = Some o → k ∈ members o →
  add h i k p c = (h', ev, res) →
  ev = [ECall i c] ∧
  (∀ j, j ≠ i → h' !! j = h !! j) ∧
  (∃ o', h' !! i = Some o' ∧ members o' = members o ∧ raw o' = raw o ∧
         links o' = links o ∧ exclusive o' = exclusive o).
Proof.
  intros Hi Hk H. unfold add in H. simpl in H. rewrite Hi in H.
  destruct (c && bool_decide (k ∈ exclusive o)).
  { simplify_eq. split; [done|]. split; [done|]. by exists o. }
  rewrite bool_decide_eq_true_2 in H by done.
  destruct (check_target h i) as [h1 r1] eqn:Hc. simplify_eq.
  split; [done|].
  destruct (check_target_cases _ _ _ _ Hc) as [->|(o1 & Hi1 & _ & _ & ->)].
  - split; [done|]. by exists o.
  - simplify_eq. split.
    + intros j Hj. by rewrite list_lookup_insert_ne.
    + exists (with_target None true o). split; [|done].
      apply list_lookup_insert_eq. by eapply lookup_lt_Some.
Qed.

Lemma duplicate_add_absorbed_witness :
  ∃ o', (add scenario 0 (KAtom (AStr "x")) (PAtom (AInt 2)) false).1.1 !! 0
        = Some o' ∧
        raw o' !! KAtom (AStr "x") = Some (PAtom (AInt 1)).
Proof.
  destruct (duplicate_add_absorbed scenario 0
              (Obj LinkedSet {[KAtom (AStr "x")]}
                   {[KAtom (AStr "x") := PAtom (AInt 1)]} [1] ∅ None false)
              (KAtom (AStr "x")) (PAtom (AInt 2)) false
              (add scenario 0 (KAtom (AStr "x")) (PAtom (AInt 2)) false).1.1
              (add scenario 0 (KAtom (AStr "x")) (PAtom (AInt 2)) false).1.2
              (add scenario 0 (KAtom (AStr "x")) (PAtom (AInt 2)) false).2)
    as (_ & _ & o' & Ho' & _ & Hr & _).
  - by_compute.
  - by_compute.
  - reflexivity.
  - exists o'. split; [exact Ho'|]. rewrite Hr. by_compute.
Defined.

(** ** C6: removing an absent key *)

(** C6. A direct [remove(k)] on a set that does not hold [k] raises
    [KeyError] and leaves the whole store as it was.  When the set does
    hold [k], no call of the cascade raises [KeyError]: every set that
    does not hold [k] is passed over, unchanged and not mutated. *)
Theorem remove_absent_key (h : heap) i o k r :
  h !! i = Some o →
  (k ∉ members o →
     remove h i k r false = (h, [ECall i false], Raise KeyError)) ∧
  (k ∈ members o → ∀ c h' ev res,
     remove h i k r c = (h', ev, res) →
     res ≠ Raise KeyError ∧
     ∀ j oj, h !! j = Some oj → k ∉ members oj →
       h' !! j = Some oj ∧ j ∉ mutated ev).
Proof.
  intros Hi. split.
  - intros Hk. unfold remove. simpl. rewrite Hi.
    by rewrite bool_decide_eq_false_2.
  - intros Hk c h' ev res H. unfold remove in H. split.
    + eapply remove_fuel_keyerror; [exact H|]. by exists o.
    + intros j oj Hj Nj.
      pose proof (remove_fuel_rel _ _ _ _ _ _ _ _ H) as R.
      pose proof (remove_fuel_trace _ _ _ _ _ _ _ _ H) as (_ & M & _).
      destruct (heap_rel_lookup _ _ _ _ _ R Hj) as (oj' & Hj' & E).
      apply remove_evolve_lacking in E; [|done]. subst oj'.
      split; [done|]. intros Hm. destruct (M j Hm) as [Hh _].
      eapply has_lacks; [exact Hh|]. by exists oj.
Qed.

Lemma remove_absent_key_witness :
  remove one_of_two 1 key_a (PAtom ANone) false
  = (one_of_two, [ECall 1 false], Raise KeyError) ∧
  (remove one_of_two 0 key_a (PAtom ANone) false).2 ≠ Raise KeyError ∧
  (remove one_of_two 0 key_a (PAtom ANone) false).1.1 !! 1
  = Some (Obj LinkedSet ∅ ∅ [] ∅ None false).
Proof.
  split; [|split].
  - apply (remove_absent_key one_of_two 1
             (Obj LinkedSet ∅ ∅ [] ∅ None false) key_a (PAtom ANone)).
    + reflexivity.
    + by_compute.
  - eapply (remove_absent_key one_of_two 0
              (Obj LinkedSet {[key_a]} ∅ [1] ∅ None false) key_a (PAtom ANone)).
    + reflexivity.
    + by_compute.
    + apply outcome_eta.
  - eapply (remove_absent_key one_of_two 0
              (Obj LinkedSet {[key_a]} ∅ [1] ∅ None false) key_a (PAtom ANone)).
    + reflexivity.
    + by_compute.
    + apply outcome_eta.
    + reflexivity.
    + by_compute.
Defined.

(** ** C7: what unlink suppresses *)

(** C7. After [unlink(k)] on a set, a cascaded [add] or [remove] of [k]
    that arrives at it returns at once and leaves the store as it is.  A
    direct [add(k)] still inserts [k] (with its payload when [k] was
    absent), a direct [remove(k)] still takes [k] out, or raises
    [KeyError] when [k] is absent; the members themselves are not touched
    by [unlink]. *)
Theorem unlink_scope (h : heap) i o k p :
  h !! i = Some o →
  let h1 := (unlink h i k).1 in
  h1 !! i = Some (with_exclusive ({[k]} ∪ exclusive o) o) ∧
  add h1 i k p true = (h1, [ECall i true], Ok tt) ∧
  remove h1 i k p true = (h1, [ECall i true], Ok tt) ∧
  (∀ h2 ev res, add h1 i k p false = (h2, ev, res) →
     ∃ o2, h2 !! i = Some o2 ∧ members o2 = {[k]} ∪ members o ∧
           (k ∉ members o → raw o2 !! k = Some p ∧ i ∈ mutated ev)) ∧
  (∀ h2 ev res, k ∈ members o → remove h1 i k p false = (h2, ev, res) →
     res ≠ Raise KeyError ∧
     ∃ o2, h2 !! i = Some o2 ∧ members o2 = members o ∖ {[k]} ∧
           i ∈ mutated ev) ∧
  (k ∉ members o →
     remove h1 i k p false = (h1, [ECall i false], Raise KeyError)).
Proof.
  intros Hi h1.
  assert (h1 !! i = Some (with_exclusive ({[k]} ∪ exclusive o) o)) as Hi1.
  { unfold h1, unlink. rewrite Hi. simpl.
    apply list_lookup_insert_eq. by eapply lookup_lt_Some. }
  assert (k ∈ exclusive (with_exclusive ({[k]} ∪ exclusive o) o)) as Hx.
  { simpl. apply elem_of_union_l. by apply elem_of_singleton. }
  split; [done|]. split; [|split; [|split; [|split]]].
  - unfold add. cbn [add_fuel]. rewrite Hi1.
    by rewrite bool_decide_eq_true_2.
  - unfold remove. cbn [remove_fuel]. rewrite Hi1.
    by rewrite bool_decide_eq_true_2.
  - intros h2 ev res H. unfold add in H.
    destruct (add_fuel_direct _ _ _ _ _ _ _ _ _ Hi1 H) as (o2 & Hi2 & Hm & Hr).
    exists o2. split; [done|]. split; [done|]. intros Hk.
    destruct (Hr Hk) as [-> ?]. split; [|done]. simpl.
    apply lookup_insert_eq.
  - intros h2 ev res Hk H. unfold remove in H. split.
    + eapply remove_fuel_keyerror; [exact H|].
      by exists (with_exclusive ({[k]} ∪ exclusive o) o).
    + destruct (remove_fuel_direct _ _ _ _ _ _ _ _ Hi1 Hk H)
        as (o2 & Hi2 & Hm & _ & Hin).
      by exists o2.
  - intros Hk. unfold remove. cbn [remove_fuel]. rewrite Hi1. simpl.
    by rewrite bool_decide_eq_false_2.
Qed.

Lemma unlink_scope_witness :
  add (unlink one_of_two 1 key_a).1 1 key_a (PAtom ANone) true
  = ((unlink one_of_two 1 key_a).1, [ECall 1 true], Ok tt) ∧
  ∃ o2, (add (unlink one_of_two 1 key_a).1 1 key_a (PAtom ANone) false).1.1
          !! 1 = Some o2 ∧
        members o2 = {[key_a]} ∪ ∅.
Proof.
  destruct (unlink_scope one_of_two 1 (Obj LinkedSet ∅ ∅ [] ∅ None false)
              key_a (PAtom ANone) eq_refl) as (_ & Ha & _ & Hd & _).
  split; [exact Ha|].
  destruct (Hd _ _ _ (outcome_eta _)) as (o2 & H2 & Hm & _).
  exists o2. split; [exact H2|exact Hm].
Defined.

(** ** C8: the filter of IPaddrSet *)




(** ** C9: a cascade ends and mutates each set at most once *)

(** C9. On any store, whatever the links (cycles and self-links
    included), a direct [add(k)] or [remove(k)] ends: the bound on the
    depth of the cascade is not hit, and any larger bound gives the same
    outcome.  In its trace no set is mutated twice; a set that is mutated
    by [add] lacked [k] and holds it afterwards, a set mutated by
    [remove] held [k] and lacks it afterwards, and the members of a set
    that is not mutated are unchanged.  The trace begins with the direct
    call, and every later call in it is marked as cascaded. *)
Theorem cascade_once (h : heap) i o k r :
  h !! i = Some o →
  (∀ h' ev res, add h i k r false = (h', ev, res) →
     res ≠ Err OutOfFuel ∧
     (∀ m, S (length h) ≤ m → add_fuel m k r h i false = (h', ev, res)) ∧
     NoDup (mutated ev) ∧
     (∀ j, j ∈ mutated ev → lacks k h j ∧ has k h' j) ∧
     (∀ j oj oj', h !! j = Some oj → h' !! j = Some oj' → j ∉ mutated ev →
        members oj' = members oj ∧ raw oj' = raw oj) ∧
     (∃ ev', ev = ECall i false :: ev' ∧ Forall cascaded ev')) ∧
  (∀ h' ev res, remove h i k r false = (h', ev, res) →
     res ≠ Err OutOfFuel ∧
     (∀ m, S (length h) ≤ m → remove_fuel m k h i false = (h', ev, res)) ∧
     NoDup (mutated ev) ∧
     (∀ j, j ∈ mutated ev → has k h j ∧ lacks k h' j) ∧
     (∀ j oj oj', h !! j = Some oj → h' !! j = Some oj' → j ∉ mutated ev →
        members oj' = members oj ∧ raw oj' = raw oj) ∧
     (∃ ev', ev = ECall i false :: ev' ∧ Forall cascaded ev')).
Proof.
  intros Hi. split; intros h' ev res H.
  - pose proof (add_terminates h i k r false) as HT. rewrite H in HT.
    split; [exact HT|]. split.
    { intros m Hm. rewrite <- H. unfold add. apply add_fuel_more; [done|].
      fold (add h i k r false). by rewrite H. }
    unfold add in H.
    destruct (add_fuel_trace _ _ _ _ _ _ _ _ _ H) as (_ & M & N & U & _).
    split; [done|]. split; [done|]. split; [done|].
    destruct (add_fuel_calls _ _ _ _ _ _ _ _ _ H) as [->|Hev]; [|done].
    by destruct (add_fuel_entered _ _ _ _ _ _ _ _ _ _ Hi H).
  - pose proof (remove_terminates h i k r false) as HT. rewrite H in HT.
    split; [exact HT|]. split.
    { intros m Hm. rewrite <- H. unfold remove.
      apply remove_fuel_more; [done|].
      fold (remove h i k r false). by rewrite H. }
    unfold remove in H.
    pose proof (remove_fuel_rel _ _ _ _ _ _ _ _ H) as R.
    destruct (remove_fuel_trace _ _ _ _ _ _ _ _ H) as (_ & M & N & U & _).
    split; [done|]. split; [done|]. split.
    { intros j oj oj' Hj Hj' Hm. split; [by eapply U|].
      destruct (heap_rel_lookup _ _ _ _ _ R Hj) as (o2 & Hj2 & E).
      simplify_eq. by destruct E as [->|[_ [->|[_ ->]]]]. }
    destruct (remove_fuel_calls _ _ _ _ _ _ _ _ H) as [->|Hev]; [|done].
    by destruct (remove_fuel_entered _ _ _ _ _ _ _ _ _ Hi H).
Qed.

Lemma cascade_once_witness :
  (add two_cycle 0 key_a (PAtom ANone) false).2 ≠ Err OutOfFuel ∧
  NoDup (mutated (add two_cycle 0 key_a (PAtom ANone) false).1.2) ∧
  mutated (add two_cycle 0 key_a (PAtom ANone) false).1.2 = [0; 1].
Proof.
  destruct (cascade_once two_cycle 0 (Obj LinkedSet ∅ ∅ [1; 0] ∅ None false)
              key_a (PAtom ANone) eq_refl) as [Ha _].
  destruct (Ha _ _ _ (outcome_eta _)) as (T & _ & N & _).
  split; [exact T|]. split; [exact N|]. by_compute.
Defined.

(** ** C10: looking a payload up *)

(** C10. In a store reached by a client program, indexing the set [i]
    with [k] returns the payload of the last insertion of [k] into that
    set that the trace of the program records (the insertion branch of
    [add], direct or cascaded), and raises [KeyError] when the trace
    records none.  So a set just constructed raises [KeyError] for every
    key, the seeded members included, and after a direct [add] of an
    absent key the lookup returns the payload given, [None] when none was
    given. *)
Theorem getitem_by_history ops (h : heap) ev i o k :
  run_trace ops = (h, ev) → h !! i = Some o →
  getitem h i k = match stored ev i k with
                  | Some p => Ok p
                  | None => Raise KeyError
                  end ∧
  (∀ c seed k', getitem (new h c seed).1 (new h c seed).2 k' = Raise KeyError) ∧
  (k ∉ members o → ∀ p, getitem (add h i k p false).1.1 i k = Ok p).
Proof.
  intros Hrun Hi. pose proof (run_trace_tracked ops) as [T _].
  rewrite Hrun in T. simpl in T. split; [|split].
  - unfold getitem. rewrite Hi, (T i o Hi k). by destruct (stored ev i k).
  - intros c seed k'. unfold getitem, new. simpl.
    rewrite lookup_app_r by done. by rewrite Nat.sub_diag.
  - intros Hk p. unfold add.
    destruct (add_fuel _ _ _ _ _ _) as [[h' ev'] res] eqn:H. simpl.
    destruct (add_fuel_direct _ _ _ _ _ _ _ _ _ Hi H) as (o' & Hi' & _ & Hr).
    destruct (Hr Hk) as [E _]. unfold getitem. rewrite Hi', E.
    by rewrite lookup_insert_eq.
Qed.

Lemma getitem_by_history_witness :
  getitem (run_trace seeded).1 0 key_a = Raise KeyError ∧
  getitem (run_trace seeded).1 0 key_b = Ok (PAtom ANone).
Proof.
  split.
  - destruct (getitem_by_history seeded (run_trace seeded).1
                (run_trace seeded).2 0
                (Obj LinkedSet {[key_a; key_b]} {[key_b := PAtom ANone]}
                     [] ∅ None false) key_a) as [G _].
    + by destruct (run_trace seeded).
    + by_compute.
    + rewrite G. by_compute.
  - destruct (getitem_by_history seeded (run_trace seeded).1
                (run_trace seeded).2 0
                (Obj LinkedSet {[key_a; key_b]} {[key_b := PAtom ANone]}
                     [] ∅ None false) key_b) as [G _].
    + by destruct (run_trace seeded).
    + by_compute.
    + rewrite G. by_compute.
Defined.

(** * Further properties *)

(** ** add and remove touch one key *)

(** X1. [add(k)] and [remove(k)] change nothing but [k]: in every set of
    the store the class, the links and the exclusive set stay, and for
    every other key membership and payload are as before.  [remove]
    leaves all payloads as they are, that of [k] included. *)
Theorem other_keys_untouched (h : heap) j oj k r c :
  h !! j = Some oj →
  ∀ i,
  (∃ oj', (add h i k r c).1.1 !! j = Some oj' ∧
          cls oj' = cls oj ∧ links oj' = links oj ∧
          exclusive oj' = exclusive oj ∧
          ∀ k', k' ≠ k →
            (k' ∈ members oj' ↔ k' ∈ members oj) ∧
            raw oj' !! k' = raw oj !! k') ∧
  (∃ oj', (remove h i k r c).1.1 !! j = Some oj' ∧
          cls oj' = cls oj ∧ links oj' = links oj ∧
          exclusive oj' = exclusive oj ∧ raw oj' = raw oj ∧
          ∀ k', k' ≠ k → (k' ∈ members oj' ↔ k' ∈ members oj)).
Proof.
  intros Hj i. split.
  - unfold add. destruct (add_fuel _ _ _ _ _ _) as [[h' ev] res] eqn:H.
    apply add_fuel_rel in H.
    destruct (heap_rel_lookup _ _ _ _ _ H Hj) as (oj' & Hj' & E).
    exists oj'. simpl. split; [done|].
    destruct E as (C & L & X & M & _).
    split; [done|]. split; [done|]. split; [done|].
    intros k' Hne. destruct M as [[-> ->]|(_ & -> & ->)]; [done|].
    split.
    + rewrite elem_of_union, elem_of_singleton. intuition congruence.
    + by rewrite lookup_insert_ne.
  - unfold remove. destruct (remove_fuel _ _ _ _ _) as [[h' ev] res] eqn:H.
    apply remove_fuel_rel in H.
    destruct (heap_rel_lookup _ _ _ _ _ H Hj) as (oj' & Hj' & E).
    exists oj'. simpl. split; [done|].
    destruct E as [->|[_ [->|[_ ->]]]]; simpl;
      (split; [done|]); (split; [done|]); (split; [done|]);
      (split; [done|]); intros k' Hne; try done;
      rewrite elem_of_difference, elem_of_singleton; intuition congruence.
Qed.

Lemma other_keys_untouched_witness :
  ∃ oj', (add scenario 0 key_a (PAtom ANone) false).1.1 !! 1 = Some oj' ∧
         raw oj' !! KAtom (AStr "x") = Some (PAtom (AInt 1)).
Proof.
  destruct (other_keys_untouched scenario 1
              (Obj LinkedSet {[KAtom (AStr "x")]}
                   {[KAtom (AStr "x") := PAtom (AInt 1)]} [] ∅ None false)
              key_a (PAtom ANone) false) with (i := 0)
    as [(oj' & Hj' & _ & _ & _ & K) _].
  - by_compute.
  - exists oj'. split; [exact Hj'|].
    destruct (K (KAtom (AStr "x"))) as [_ ->]; by_compute.
Defined.

(** ** Loops that end without an error *)

Lemma for_each_rel_ok (R : heap → list event → heap → Prop) body ls :
  (∀ h, R h [] h) →
  (∀ h1 e1 h2 e2 h3, R h1 e1 h2 → R h2 e2 h3 → R h1 (e1 ++ e2) h3) →
  (∀ l h h' ev, l ∈ ls → body h l = (h', ev, Ok tt) → R h ev h') →
  ∀ h h' ev, for_each body ls h = (h', ev, Ok tt) → R h ev h'.
Proof.
  intros Hrefl Htrans. induction ls as [|l ls IH]; intros Hb h h' ev H.
  - simpl in H. by simplify_eq.
  - simpl in H.
    destruct (body h l) as [[h1 e1] [[]|e]] eqn:Hl; [|done].
    destruct (for_each body ls h1) as [[h2 e2] r2] eqn:Hr. simplify_eq.
    eapply Htrans.
    + eapply Hb; [left|done].
    + eapply IH; [|done]. intros. eapply Hb; [by right|done].
Qed.

Lemma for_each_post (R : heap → heap → Prop) (Post : nat → heap → Prop)
    body ls :
  (∀ h, R h h) → (∀ h1 h2 h3, R h1 h2 → R h2 h3 → R h1 h3) →
  (∀ l a b e res, body a l = (b, e, res) → R a b) →
  (∀ l a b e, l ∈ ls → body a l = (b, e, Ok tt) → Post l b) →
  (∀ l a b, R a b → Post l a → Post l b) →
  ∀ h h' ev, for_each body ls h = (h', ev, Ok tt) →
    ∀ l, l ∈ ls → Post l h'.
Proof.
  intros Hrefl Htrans HR. induction ls as [|x ls IH];
    intros Hpost Hmono h h' ev H l Hl.
  - by apply elem_of_nil in Hl.
  - simpl in H.
    destruct (body h x) as [[h1 e1] [[]|e]] eqn:Hx; [|done].
    destruct (for_each body ls h1) as [[h2 e2] r2] eqn:Hr. simplify_eq.
    apply elem_of_cons in Hl as [->|Hl].
    + apply (Hmono x h1 h').
      * eapply (for_each_rel (λ a _ b, R a b)); [done| |by eauto|exact Hr].
        intros ?????. apply Htrans.
      * eapply Hpost; [left|done].
    + eapply IH; [| |exact Hr|done].
      * intros. eapply Hpost; [by right|done].
      * done.
Qed.

(** ** The cases of one call *)

Lemma add_fuel_cases n k r (h : heap) i o c h' ev res :
  h !! i = Some o → add_fuel (S n) k r h i c = (h', ev, res) →
  (c = true ∧ k ∈ exclusive o ∧ h' = h ∧ ev = [ECall i c] ∧ res = Ok tt) ∨
  (¬ (c = true ∧ k ∈ exclusive o) ∧ k ∈ members o ∧ ev = [ECall i c] ∧
   check_target h i = (h', res)) ∨
  (¬ (c = true ∧ k ∈ exclusive o) ∧ (k ∉ members o) ∧
   ∃ h1 e1 r1,
     for_each (λ a l, add_fuel n k r a l true) (links o)
              (<[i := with_entry k r o]> h) = (h1, e1, r1) ∧
     ev = ECall i c :: EInsert i k r :: e1 ∧
     ((r1 = Ok tt ∧ check_target h1 i = (h', res)) ∨
      (∃ e, r1 = Err e ∧ res = Err e ∧ h' = h1))).
Proof.
  intros Hi H. unfold_cascade add_fuel H. rewrite Hi in H.
  destruct c; simpl in H.
  - case_bool_decide as Hx; [left; by simplify_eq|].
    right. case_bool_decide as Hk.
    + left. destruct (check_target h i) as [h1 r1]. simplify_eq.
      split; [by intros [_ ?]|done].
    + right. split; [by intros [_ ?]|]. split; [done|].
      destruct (for_each _ _ _) as [[h1 e1] r1] eqn:Hf.
      exists h1, e1, r1. split; [done|].
      destruct r1 as [[]|e].
      * destruct (check_target h1 i) as [h2 r2]. simplify_eq.
        split; [done|]. by left.
      * simplify_eq. split; [done|]. right. by exists e.
  - right. case_bool_decide as Hk.
    + left. destruct (check_target h i) as [h1 r1]. simplify_eq.
      split; [by intros [? _]|done].
    + right. split; [by intros [? _]|]. split; [done|].
      destruct (for_each _ _ _) as [[h1 e1] r1] eqn:Hf.
      exists h1, e1, r1. split; [done|].
      destruct r1 as [[]|e].
      * destruct (check_target h1 i) as [h2 r2]. simplify_eq.
        split; [done|]. by left.
      * simplify_eq. split; [done|]. right. by exists e.
Qed.

Lemma remove_fuel_cases n k (h : heap) i o c h' ev res :
  h !! i = Some o → remove_fuel (S n) k h i c = (h', ev, res) →
  (c = true ∧ k ∈ exclusive o ∧ h' = h ∧ ev = [ECall i c] ∧ res = Ok tt) ∨
  (¬ (c = true ∧ k ∈ exclusive o) ∧ (k ∉ members o) ∧ h' = h ∧
   ev = [ECall i c] ∧ res = Raise KeyError) ∨
  (¬ (c = true ∧ k ∈ exclusive o) ∧ k ∈ members o ∧
   ∃ h1 e1 r1,
     for_each (remove_link (λ a l, remove_fuel n k a l true) k) (links o)
              (<[i := without_member k o]> h) = (h1, e1, r1) ∧
     ev = ECall i c :: EDiscard i k :: e1 ∧
     ((r1 = Ok tt ∧ check_target h1 i = (h', res)) ∨
      (∃ e, r1 = Err e ∧ res = Err e ∧ h' = h1))).
Proof.
  intros Hi H. unfold_cascade remove_fuel H. rewrite Hi in H.
  destruct c; simpl in H.
  - case_bool_decide as Hx; [left; by simplify_eq|].
    right. case_bool_decide as Hk.
    + right. split; [by intros [_ ?]|]. split; [done|].
      destruct (for_each _ _ _) as [[h1 e1] r1] eqn:Hf.
      exists h1, e1, r1. split; [done|].
      destruct r1 as [[]|e].
      * destruct (check_target h1 i) as [h2 r2]. simplify_eq.
        split; [done|]. by left.
      * simplify_eq. split; [done|]. right. by exists e.
    + left. simplify_eq. split; [by intros [_ ?]|done].
  - right. case_bool_decide as Hk.
    + right. split; [by intros [? _]|]. split; [done|].
      destruct (for_each _ _ _) as [[h1 e1] r1] eqn:Hf.
      exists h1, e1, r1. split; [done|].
      destruct r1 as [[]|e].
      * destruct (check_target h1 i) as [h2 r2]. simplify_eq.
        split; [done|]. by left.
      * simplify_eq. split; [done|]. right. by exists e.
    + left. simplify_eq. split; [by intros [? _]|done].
Qed.

(** ** What a cascade leaves alone *)

Lemma frame_add_refl k o : frame_add k o o.
Proof. by repeat split. Qed.

Lemma frame_add_trans k o1 o2 o3 :
  frame_add k o1 o2 → frame_add k o2 o3 → frame_add k o1 o3.
Proof.
  intros (L1 & X1 & M1) (L2 & X2 & M2).
  split; [congruence|]. split; [congruence|]. auto.
Qed.

Lemma add_evolve_frame k r o o' : add_evolve k r o o' → frame_add k o o'.
Proof.
  intros E. destruct E as (C & L & X & M & T).
  split; [done|]. split; [done|].
  eapply add_evolve_holds. by repeat split.
Qed.

Lemma ct_step_frame_add k o o' : ct_step o o' → frame_add k o o'.
Proof. intros [->|[_ ->]]; by repeat split. Qed.

Lemma frame_remove_refl k o : frame_remove k o o.
Proof. by repeat split. Qed.

Lemma frame_remove_trans k o1 o2 o3 :
  frame_remove k o1 o2 → frame_remove k o2 o3 → frame_remove k o1 o3.
Proof.
  intros (L1 & X1 & M1) (L2 & X2 & M2).
  split; [congruence|]. split; [congruence|]. auto.
Qed.

Lemma ct_step_frame_remove k o o' : ct_step o o' → frame_remove k o o'.
Proof. intros [->|[_ ->]]; by repeat split. Qed.

Lemma remove_evolve_frame k o o' :
  remove_evolve k o o' → frame_remove k o o'.
Proof.
  intros [->|[_ S]]; [apply frame_remove_refl|].
  destruct S as [->|[_ ->]]; (split; [done|]); (split; [done|]); simpl;
    by intros [? _]%elem_of_difference.
Qed.

Lemma add_fuel_frame n k r h i c h' ev res :
  add_fuel n k r h i c = (h', ev, res) → Forall2 (frame_add k) h h'.
Proof.
  intros H. eapply Forall2_impl; [by eapply add_fuel_rel|].
  apply add_evolve_frame.
Qed.

Lemma remove_fuel_frame n k h i c h' ev res :
  remove_fuel n k h i c = (h', ev, res) → Forall2 (frame_remove k) h h'.
Proof.
  intros H. eapply Forall2_impl; [by eapply remove_fuel_rel|].
  apply remove_evolve_frame.
Qed.

Lemma check_target_frame_add k h i h' res :
  check_target h i = (h', res) → Forall2 (frame_add k) h h'.
Proof.
  intros H. eapply Forall2_impl; [by eapply check_target_rel|].
  apply ct_step_frame_add.
Qed.

Lemma check_target_frame_remove k h i h' res :
  check_target h i = (h', res) → Forall2 (frame_remove k) h h'.
Proof.
  intros H. eapply Forall2_impl; [by eapply check_target_rel|].
  apply ct_step_frame_remove.
Qed.

Lemma frame_add_insert k r (h : heap) i o :
  h !! i = Some o → Forall2 (frame_add k) h (<[i := with_entry k r o]> h).
Proof.
  intros Hi. eapply heap_rel_insert; [apply frame_add_refl|done|].
  split; [done|]. split; [done|]. simpl. intros ?. by apply elem_of_union_r.
Qed.

Lemma frame_remove_insert k (h : heap) i o :
  h !! i = Some o → Forall2 (frame_remove k) h (<[i := without_member k o]> h).
Proof.
  intros Hi. eapply heap_rel_insert; [apply frame_remove_refl|done|].
  split; [done|]. split; [done|]. simpl. by intros [? _]%elem_of_difference.
Qed.

Lemma reached_mono k h h' l :
  Forall2 (frame_add k) h h' → reached k h l → reached k h' l.
Proof.
  intros F [(o & Ho & K)|(o & Ho & K)];
    destruct (heap_rel_lookup _ _ _ _ _ F Ho) as (o' & Ho' & _ & X & M).
  - left. exists o'. auto.
  - right. exists o'. split; [done|]. by rewrite X.
Qed.

Lemma cleared_mono k h h' l :
  Forall2 (frame_remove k) h h' → cleared k h l → cleared k h' l.
Proof.
  intros F [(o & Ho & K)|(o & Ho & K)];
    destruct (heap_rel_lookup _ _ _ _ _ F Ho) as (o' & Ho' & _ & X & M).
  - left. exists o'. split; [done|]. intros ?. by apply K, M.
  - right. exists o'. split; [done|]. by rewrite X.
Qed.

Lemma links_kept (R : obj → obj → Prop) (h h' : heap) j oj :
  (∀ o o', R o o' → links o' = links o) →
  Forall2 R h h' → h !! j = Some oj →
  ∃ oj', h' !! j = Some oj' ∧ links oj' = links oj.
Proof.
  intros HR F Hj. destruct (heap_rel_lookup _ _ _ _ _ F Hj) as (oj' & ? & E).
  exists oj'. split; [done|]. by apply HR.
Qed.

(** ** Where a finished cascade has been *)

(** A call of [add] that returns leaves its set holding [k], or was
    turned away by the exclusive set. *)
Lemma add_fuel_ok_reached n k r (h : heap) i c h' ev :
  add_fuel n k r h i c = (h', ev, Ok tt) → reached k h' i.
Proof.
  intros H. destruct n as [|n]; [done|].
  destruct (h !! i) as [o|] eqn:Hi; [|simpl in H; by rewrite Hi in H].
  pose proof (add_fuel_frame _ _ _ _ _ _ _ _ _ H) as F.
  destruct (add_fuel_trace _ _ _ _ _ _ _ _ _ H) as (_ & M & _).
  destruct (add_fuel_cases _ _ _ _ _ _ _ _ _ _ Hi H)
    as [(_ & Hx & -> & _)|[(_ & Hk & _)|(_ & Hk & h1 & e1 & r1 & _ & -> & _)]].
  - right. by exists o.
  - apply (reached_mono k h); [done|]. left. by exists o.
  - left. apply M. simpl. left.
Qed.

(** A call of [remove] that returns leaves its set without [k], or was
    turned away by the exclusive set. *)
Lemma remove_fuel_ok_cleared n k (h : heap) i c h' ev :
  remove_fuel n k h i c = (h', ev, Ok tt) → cleared k h' i.
Proof.
  intros H. destruct n as [|n]; [done|].
  destruct (h !! i) as [o|] eqn:Hi; [|simpl in H; by rewrite Hi in H].
  destruct (remove_fuel_trace _ _ _ _ _ _ _ _ H) as (_ & M & _).
  destruct (remove_fuel_cases _ _ _ _ _ _ _ _ _ Hi H)
    as [(_ & Hx & -> & _)|[(_ & _ & _ & _ & ?)|(_ & Hk & h1 & e1 & r1 & _ & -> & _)]].
  - right. by exists o.
  - done.
  - left. apply M. simpl. left.
Qed.

(** The loop of [remove] passes over a link without [k]. *)
Lemma remove_link_ok_cleared n k (h : heap) l h' ev :
  remove_link (λ a x, remove_fuel n k a x true) k h l = (h', ev, Ok tt) →
  cleared k h' l.
Proof.
  unfold remove_link. intros H.
  destruct (h !! l) as [ol|] eqn:Hl; [|done].
  case_bool_decide as Hk.
  - by eapply remove_fuel_ok_cleared.
  - simplify_eq. left. by exists ol.
Qed.

Lemma remove_link_frame n k (h : heap) l h' ev res :
  remove_link (λ a x, remove_fuel n k a x true) k h l = (h', ev, res) →
  Forall2 (frame_remove k) h h'.
Proof.
  apply (remove_link_rel (λ a _ b, Forall2 (frame_remove k) a b)).
  - intros. apply heap_rel_refl, frame_remove_refl.
  - intros ????????. apply remove_fuel_frame.
Qed.

(** The sets changed by a finished [add], and their links. *)
Lemma add_fuel_reaches n k r : ∀ (h : heap) i c h' ev,
  add_fuel n k r h i c = (h', ev, Ok tt) →
  ∀ j oj l, j ∈ mutated ev → h !! j = Some oj → l ∈ links oj →
    reached k h' l.
Proof.
  induction n as [|n IH]; intros h i c h' ev H; [done|].
  destruct (h !! i) as [o|] eqn:Hi; [|simpl in H; by rewrite Hi in H].
  destruct (add_fuel_cases _ _ _ _ _ _ _ _ _ _ Hi H)
    as [(_ & _ & _ & -> & _)|[(_ & _ & -> & _)|
        (_ & Hk & h1 & e1 & r1 & Hf & -> & Hres)]];
    [by intros j oj l ?%elem_of_nil|by intros j oj l ?%elem_of_nil|].
  destruct Hres as [[-> Hc]|(e & _ & ? & _)]; [|done].
  set (h0 := <[i := with_entry k r o]> h) in *.
  pose proof (frame_add_insert k r h i o Hi) as F0.
  pose proof (check_target_frame_add k _ _ _ _ Hc) as Fc.
  assert (∀ l, l ∈ links o → reached k h1 l) as Hlinks.
  { eapply (for_each_post (Forall2 (frame_add k)) (λ l b, reached k b l));
      [| | | | |exact Hf]; cbn beta.
    - intros. apply heap_rel_refl, frame_add_refl.
    - intros ???. apply heap_rel_trans, frame_add_trans.
    - intros l a b e0 res0. apply add_fuel_frame.
    - intros l a b e0 _. apply add_fuel_ok_reached.
    - intros l a b. apply reached_mono. }
  assert (∀ j oj l, j ∈ mutated e1 → h0 !! j = Some oj → l ∈ links oj →
            reached k h1 l) as Hin.
  { eapply (for_each_rel_ok
              (λ a e b, Forall2 (frame_add k) a b ∧
                        ∀ j oj l, j ∈ mutated e → a !! j = Some oj →
                                  l ∈ links oj → reached k b l));
      [| | |exact Hf].
    - intros a. split; [apply heap_rel_refl, frame_add_refl|].
      by intros j oj l ?%elem_of_nil.
    - intros a ea b eb c0 [Fa Pa] [Fb Pb]. split.
      { by eapply heap_rel_trans; [apply frame_add_trans|..]. }
      intros j oj l Hj Hoj Hl. rewrite mutated_app in Hj.
      apply elem_of_app in Hj as [Hj|Hj].
      + eapply reached_mono; [exact Fb|]. by eapply Pa.
      + destruct (heap_rel_lookup _ _ _ _ _ Fa Hoj) as (oj' & Hoj' & L & _).
        eapply Pb; [done|done|]. by rewrite L.
    - intros l a b e0 _ Hb. cbn beta in Hb.
      split; [eapply add_fuel_frame; exact Hb|]. eapply IH; exact Hb. }
  intros j oj l Hj Hoj Hl. simpl in Hj.
  eapply reached_mono; [exact Fc|].
  apply elem_of_cons in Hj as [->|Hj].
  - simplify_eq. by apply Hlinks.
  - destruct (heap_rel_lookup _ _ _ _ _ F0 Hoj) as (oj' & Hoj' & L & _).
    eapply Hin; [done|done|]. by rewrite L.
Qed.

(** The sets changed by a finished [remove], and their links. *)
Lemma remove_fuel_clears n k : ∀ (h : heap) i c h' ev,
  remove_fuel n k h i c = (h', ev, Ok tt) →
  ∀ j oj l, j ∈ mutated ev → h !! j = Some oj → l ∈ links oj →
    cleared k h' l.
Proof.
  induction n as [|n IH]; intros h i c h' ev H; [done|].
  destruct (h !! i) as [o|] eqn:Hi; [|simpl in H; by rewrite Hi in H].
  destruct (remove_fuel_cases _ _ _ _ _ _ _ _ _ Hi H)
    as [(_ & _ & _ & -> & _)|[(_ & _ & _ & _ & ?)|
        (_ & Hk & h1 & e1 & r1 & Hf & -> & Hres)]];
    [by intros j oj l ?%elem_of_nil|done|].
  destruct Hres as [[-> Hc]|(e & _ & ? & _)]; [|done].
  set (h0 := <[i := without_member k o]> h) in *.
  pose proof (frame_remove_insert k h i o Hi) as F0.
  pose proof (check_target_frame_remove k _ _ _ _ Hc) as Fc.
  assert (∀ l, l ∈ links o → cleared k h1 l) as Hlinks.
  { eapply (for_each_post (Forall2 (frame_remove k)) (λ l b, cleared k b l));
      [| | | | |exact Hf]; cbn beta.
    - intros. apply heap_rel_refl, frame_remove_refl.
    - intros ???. apply heap_rel_trans, frame_remove_trans.
    - intros l a b e0 res0. apply remove_link_frame.
    - intros l a b e0 _. apply remove_link_ok_cleared.
    - intros l a b. apply cleared_mono. }
  assert (∀ j oj l, j ∈ mutated e1 → h0 !! j = Some oj → l ∈ links oj →
            cleared k h1 l) as Hin.
  { eapply (for_each_rel_ok
              (λ a e b, Forall2 (frame_remove k) a b ∧
                        ∀ j oj l, j ∈ mutated e → a !! j = Some oj →
                                  l ∈ links oj → cleared k b l));
      [| | |exact Hf].
    - intros a. split; [apply heap_rel_refl, frame_remove_refl|].
      by intros j oj l ?%elem_of_nil.
    - intros a ea b eb c0 [Fa Pa] [Fb Pb]. split.
      { by eapply heap_rel_trans; [apply frame_remove_trans|..]. }
      intros j oj l Hj Hoj Hl. rewrite mutated_app in Hj.
      apply elem_of_app in Hj as [Hj|Hj].
      + eapply cleared_mono; [exact Fb|]. by eapply Pa.
      + destruct (heap_rel_lookup _ _ _ _ _ Fa Hoj) as (oj' & Hoj' & L & _).
        eapply Pb; [done|done|]. by rewrite L.
    - intros l a b e0 _ Hb.
      split; [eapply remove_link_frame; exact Hb|].
      unfold remove_link in Hb.
      destruct (a !! l) as [ol|]; [|done].
      case_bool_decide; [eapply IH; exact Hb|].
      simplify_eq. by intros j oj l' ?%elem_of_nil. }
  intros j oj l Hj Hoj Hl. simpl in Hj.
  eapply cleared_mono; [exact Fc|].
  apply elem_of_cons in Hj as [->|Hj].
  - simplify_eq. by apply Hlinks.
  - destruct (heap_rel_lookup _ _ _ _ _ F0 Hoj) as (oj' & Hoj' & L & _).
    eapply Hin; [done|done|]. by rewrite L.
Qed.

(** X2. Cascade of [add].  When a direct [add(k, r)] of an absent key
    returns without an exception, the set itself and every set the call
    changed hold [k] with the payload [r], and every link of each of them
    holds [k] or has [k] in its exclusive set: the key has been carried
    along every chain of links up to the sets that exclude it. *)
Theorem add_carries_along_links (h : heap) i o k r h' ev :
  h !! i = Some o → k ∉ members o →
  add h i k r false = (h', ev, Ok tt) →
  i ∈ mutated ev ∧
  ∀ j oj, j ∈ mutated ev → h !! j = Some oj →
    (∃ oj', h' !! j = Some oj' ∧ members oj' = {[k]} ∪ members oj ∧
            raw oj' !! k = Some r) ∧
    (∀ l, l ∈ links oj → reached k h' l).
Proof.
  intros Hi Hk H. unfold add in H.
  destruct (add_fuel_direct _ _ _ _ _ _ _ _ _ Hi H) as (o' & _ & _ & Hd).
  split; [by apply Hd|]. clear Hd.
  intros j oj Hj Hoj. split.
  - pose proof (add_fuel_rel _ _ _ _ _ _ _ _ _ H) as R.
    destruct (add_fuel_trace _ _ _ _ _ _ _ _ _ H) as (_ & M & _).
    destruct (heap_rel_lookup _ _ _ _ _ R Hoj) as (oj' & Hoj' & E).
    exists oj'. split; [done|].
    destruct (M j Hj) as [_ (o2 & H2 & K2)]. simplify_eq.
    destruct (M j Hj) as [(o1 & H1 & K1) _]. simplify_eq.
    destruct E as (_ & _ & _ & [[Em _]|(_ & Em & Er)] & _).
    + rewrite Em in K2. done.
    + split; [done|]. rewrite Er. by rewrite lookup_insert_eq.
  - intros l Hl. by eapply add_fuel_reaches.
Qed.

Lemma add_carries_along_links_witness :
  reached key_a (add chain3 0 key_a (PAtom (AInt 7)) false).1.1 2.
Proof.
  destruct (add_carries_along_links chain3 0
              (Obj LinkedSet ∅ ∅ [1] ∅ None false) key_a (PAtom (AInt 7))
              (add chain3 0 key_a (PAtom (AInt 7)) false).1.1
              (add chain3 0 key_a (PAtom (AInt 7)) false).1.2)
    as [_ H].
  - reflexivity.
  - by_compute.
  - by_compute.
  - destruct (H 1 (Obj LinkedSet ∅ ∅ [2] ∅ None false)) as [_ L].
    + by_compute.
    + reflexivity.
    + apply L. by_compute.
Defined.

(** X3. Cascade of [remove].  When a direct [remove(k)] of a member
    returns without an exception, the set itself and every set the call
    changed have lost exactly [k], and every link of each of them is
    without [k] or has [k] in its exclusive set. *)
Theorem remove_carries_along_links (h : heap) i o k r h' ev :
  h !! i = Some o → k ∈ members o →
  remove h i k r false = (h', ev, Ok tt) →
  i ∈ mutated ev ∧
  ∀ j oj, j ∈ mutated ev → h !! j = Some oj →
    (∃ oj', h' !! j = Some oj' ∧ members oj' = members oj ∖ {[k]} ∧
            raw oj' = raw oj) ∧
    (∀ l, l ∈ links oj → cleared k h' l).
Proof.
  intros Hi Hk H. unfold remove in H.
  destruct (remove_fuel_direct _ _ _ _ _ _ _ _ Hi Hk H) as (o' & _ & _ & _ & Hd).
  split; [done|].
  intros j oj Hj Hoj. split.
  - pose proof (remove_fuel_rel _ _ _ _ _ _ _ _ H) as R.
    destruct (remove_fuel_trace _ _ _ _ _ _ _ _ H) as (_ & M & _).
    destruct (heap_rel_lookup _ _ _ _ _ R Hoj) as (oj' & Hoj' & E).
    exists oj'. split; [done|].
    destruct (M j Hj) as [(o1 & H1 & K1) (o2 & H2 & K2)]. simplify_eq.
    by destruct E as [->|[_ [->|[_ ->]]]].
  - intros l Hl. by eapply remove_fuel_clears.
Qed.

Lemma remove_carries_along_links_witness :
  cleared (KAtom (AStr "x"))
          (remove scenario 0 (KAtom (AStr "x")) (PAtom ANone) false).1.1 1.
Proof.
  destruct (remove_carries_along_links scenario 0
              (Obj LinkedSet {[KAtom (AStr "x")]}
                   {[KAtom (AStr "x") := PAtom (AInt 1)]} [1] ∅ None false)
              (KAtom (AStr "x")) (PAtom ANone)
              (remove scenario 0 (KAtom (AStr "x")) (PAtom ANone) false).1.1
              (remove scenario 0 (KAtom (AStr "x")) (PAtom ANone) false).1.2)
    as [_ H].
  - by_compute.
  - by_compute.
  - by_compute.
  - destruct (H 0 (Obj LinkedSet {[KAtom (AStr "x")]}
                       {[KAtom (AStr "x") := PAtom (AInt 1)]} [1] ∅ None false))
      as [_ L].
    + by_compute.
    + by_compute.
    + apply L. by_compute.
Defined.

(** ** The way a cascade takes *)

Lemma cascades_same (R : obj → obj → Prop) k (h h' : heap) p l :
  (∀ o o', R o o' → links o' = links o ∧ exclusive o' = exclusive o) →
  Forall2 R h h' → cascades k h p l ↔ cascades k h' p l.
Proof.
  intros HR F. split.
  - intros (op & ol & Hp & Hl & Hol & Hx).
    destruct (Forall2_lookup_l _ _ _ _ _ F Hp) as (op' & Hp' & Ep).
    destruct (Forall2_lookup_l _ _ _ _ _ F Hol) as (ol' & Hol' & El).
    apply HR in Ep as [Lp _]. apply HR in El as [_ Xl].
    exists op', ol'. rewrite Lp, Xl. done.
  - intros (op' & ol' & Hp' & Hl' & Hol' & Hx').
    destruct (Forall2_lookup_r _ _ _ _ _ F Hp') as (op & Hp & Ep).
    destruct (Forall2_lookup_r _ _ _ _ _ F Hol') as (ol & Hol & El).
    apply HR in Ep as [Lp _]. apply HR in El as [_ Xl].
    exists op, ol. rewrite <- Lp, <- Xl. done.
Qed.

Lemma frame_add_same k o o' :
  frame_add k o o' → links o' = links o ∧ exclusive o' = exclusive o.
Proof. by intros (? & ? & _). Qed.

Lemma frame_remove_same k o o' :
  frame_remove k o o' → links o' = links o ∧ exclusive o' = exclusive o.
Proof. by intros (? & ? & _). Qed.

Lemma cascades_in_mono k (h : heap) M M' x y :
  (∀ j, j ∈ M → j ∈ M') →
  rtc (cascades_in k h M) x y → rtc (cascades_in k h M') x y.
Proof.
  intros HM. apply rtc_subrel. intros p l [C Hl]. split; auto.
Qed.

Lemma cascades_in_same (R : obj → obj → Prop) k (h h' : heap) M x y :
  (∀ o o', R o o' → links o' = links o ∧ exclusive o' = exclusive o) →
  Forall2 R h h' →
  rtc (cascades_in k h M) x y ↔ rtc (cascades_in k h' M) x y.
Proof.
  intros HR F. split; apply rtc_subrel; intros p l [C Hl]; (split; [|done]).
  - by apply (cascades_same R k h h' p l HR F).
  - by apply (cascades_same R k h h' p l HR F).
Qed.

(** Every set that [add] changes is reached from the set of the call
    along links that do not exclude [k], through sets that the call
    changes. *)
Lemma add_fuel_origin n k r : ∀ (h : heap) i c h' ev res,
  add_fuel n k r h i c = (h', ev, res) →
  ∀ j, j ∈ mutated ev →
    i ∈ mutated ev ∧
    (c = true → ∃ oi, h !! i = Some oi ∧ k ∉ exclusive oi) ∧
    rtc (cascades_in k h (mutated ev)) i j.
Proof.
  induction n as [|n IH]; intros h i c h' ev res H.
  { simpl in H. simplify_eq. by intros j ?%elem_of_nil. }
  destruct (h !! i) as [o|] eqn:Hi;
    [|simpl in H; rewrite Hi in H; simplify_eq; by intros j ?%elem_of_nil].
  destruct (add_fuel_cases _ _ _ _ _ _ _ _ _ _ Hi H)
    as [(_ & _ & _ & -> & _)|[(_ & _ & -> & _)|
        (Hx & Hk & h1 & e1 & r1 & Hf & -> & _)]];
    [by intros j ?%elem_of_nil|by intros j ?%elem_of_nil|].
  set (h0 := <[i := with_entry k r o]> h) in *.
  pose proof (frame_add_insert k r h i o Hi) as F0.
  assert (Forall2 (frame_add k) h0 h0 →
          Forall2 (frame_add k) h0 h1 ∧
          ∀ j, j ∈ mutated e1 →
            ∃ l, l ∈ links o ∧ l ∈ mutated e1 ∧
                 (∃ ol, h0 !! l = Some ol ∧ k ∉ exclusive ol) ∧
                 rtc (cascades_in k h0 (mutated e1)) l j) as Hloop.
  { eapply (for_each_rel
              (λ a e b, Forall2 (frame_add k) h0 a →
                 Forall2 (frame_add k) a b ∧
                 ∀ j, j ∈ mutated e →
                   ∃ l, l ∈ links o ∧ l ∈ mutated e ∧
                        (∃ ol, h0 !! l = Some ol ∧ k ∉ exclusive ol) ∧
                        rtc (cascades_in k h0 (mutated e)) l j));
      [| | |exact Hf]; cbn beta.
    - intros a _. split; [apply heap_rel_refl, frame_add_refl|].
      by intros j ?%elem_of_nil.
    - intros a ea b eb c0 Pa Pb Fa.
      destruct (Pa Fa) as [Fab Qa].
      assert (Forall2 (frame_add k) h0 b) as Fb.
      { by eapply heap_rel_trans; [apply frame_add_trans|..]. }
      destruct (Pb Fb) as [Fbc Qb].
      split; [by eapply heap_rel_trans; [apply frame_add_trans|..]|].
      intros j Hj. rewrite mutated_app in Hj |- *.
      apply elem_of_app in Hj as [Hj|Hj].
      + destruct (Qa j Hj) as (l & Hl & Hm & Hol & Hr).
        exists l. split; [done|]. split; [apply elem_of_app; by left|].
        split; [done|]. eapply cascades_in_mono; [|exact Hr].
        intros ??. apply elem_of_app. by left.
      + destruct (Qb j Hj) as (l & Hl & Hm & Hol & Hr).
        exists l. split; [done|]. split; [apply elem_of_app; by right|].
        split; [done|]. eapply cascades_in_mono; [|exact Hr].
        intros ??. apply elem_of_app. by right.
    - intros l a b e0 res0 Hl Hb Fa. cbn beta in Hb.
      split; [eapply add_fuel_frame; exact Hb|].
      intros j Hj. destruct (IH _ _ _ _ _ _ Hb j Hj) as (Hm & Hex & Hr).
      exists l. split; [done|]. split; [done|]. split.
      * destruct (Hex eq_refl) as (ol & Hol & Hxl).
        destruct (Forall2_lookup_r _ _ _ _ _ Fa Hol) as (ol0 & Hol0 & _ & X & _).
        exists ol0. split; [done|]. by rewrite <- X.
      * by apply (cascades_in_same (frame_add k) k h0 a _ l j
                    (frame_add_same k) Fa). }
  destruct Hloop as [_ Hloop]; [apply heap_rel_refl, frame_add_refl|].
  intros j Hj. simpl in Hj |- *. split; [left|]. split.
  { intros ->. exists o. split; [done|]. intros ?. by apply Hx. }
  apply elem_of_cons in Hj as [->|Hj]; [apply rtc_refl|].
  destruct (Hloop j Hj) as (l & Hl & Hm & (ol & Hol & Hxl) & Hr).
  destruct (Forall2_lookup_r _ _ _ _ _ F0 Hol) as (ol' & Hol' & _ & X & _).
  eapply rtc_l.
  - split; [|by right]. exists o, ol'. split; [done|]. split; [done|].
    split; [done|]. by rewrite <- X.
  - apply (cascades_in_same (frame_add k) k h h0 _ l j
             (frame_add_same k) F0).
    eapply cascades_in_mono; [|exact Hr]. intros ??. by right.
Qed.

Lemma union_difference_absent (k : key) (X : gset key) :
  k ∉ X → ({[k]} ∪ X) ∖ {[k]} = X.
Proof.
  intros Hk. apply set_eq. intros x.
  rewrite elem_of_difference, elem_of_union, elem_of_singleton. split.
  - by intros [[->|?] ?].
  - intros Hx. split; [by right|]. by intros ->.
Qed.

Lemma excludes_same (R : obj → obj → Prop) k (h h' : heap) l :
  (∀ o o', R o o' → links o' = links o ∧ exclusive o' = exclusive o) →
  Forall2 R h h' → excludes k h' l → excludes k h l.
Proof.
  intros HR F (ol' & Hl' & Hx).
  destruct (Forall2_lookup_r _ _ _ _ _ F Hl') as (ol & Hl & E).
  apply HR in E as [_ X]. exists ol. split; [done|]. by rewrite <- X.
Qed.

(** X4. [add] followed by [remove] gives the members back, in the whole
    store.  When no set holds [k], and a direct [add(k)] and then a
    direct [remove(k)] on the same set both return without an exception,
    every set of the store has the members it had before the [add]:
    [remove] reaches all the sets that [add] has reached, and no other. *)
Theorem add_then_remove_restores (h : heap) i o k r r' h1 ev1 h2 ev2 :
  h !! i = Some o →
  Forall (λ x, k ∉ members x) h →
  add h i k r false = (h1, ev1, Ok tt) →
  remove h1 i k r' false = (h2, ev2, Ok tt) →
  (∀ j, j ∈ mutated ev2 ↔ j ∈ mutated ev1) ∧
  ∀ j oj, h !! j = Some oj →
    ∃ oj2, h2 !! j = Some oj2 ∧ members oj2 = members oj.
Proof.
  intros Hi Hno Ha Hr. unfold add in Ha. unfold remove in Hr.
  assert (k ∉ members o) as Hk by by eapply (Forall_lookup_1 _ _ _ _ Hno).
  pose proof (add_fuel_rel _ _ _ _ _ _ _ _ _ Ha) as R1.
  pose proof (add_fuel_frame _ _ _ _ _ _ _ _ _ Ha) as F1.
  destruct (add_fuel_trace _ _ _ _ _ _ _ _ _ Ha) as (_ & Ma & _ & Ua & _).
  pose proof (remove_fuel_rel _ _ _ _ _ _ _ _ Hr) as R2.
  pose proof (remove_fuel_frame _ _ _ _ _ _ _ _ Hr) as F2.
  destruct (remove_fuel_trace _ _ _ _ _ _ _ _ Hr) as (_ & Mr & _ & Ur & _).
  destruct (add_fuel_direct _ _ _ _ _ _ _ _ _ Hi Ha) as (o1 & Hi1 & Hm1 & _).
  assert (k ∈ members o1) as Hk1.
  { rewrite Hm1. apply elem_of_union_l. by apply elem_of_singleton. }
  destruct (remove_fuel_direct _ _ _ _ _ _ _ _ Hi1 Hk1 Hr)
    as (o2 & _ & _ & _ & Hi2).
  assert (∀ j, rtc (cascades_in k h (mutated ev1)) i j → j ∈ mutated ev2)
    as Hreach.
  { apply (rtc_ind_r (λ j, j ∈ mutated ev2)); [done|].
    intros p j' _ [Hc Hj'] Hp2.
    destruct Hc as (op & oj & Hop & Hl & Hoj & Hx).
    destruct (links_kept (frame_add k) h h1 p op) as (op1 & Hop1 & L1);
      [by intros ?? (? & _)|done|done|].
    assert (cleared k h2 j') as Hcl.
    { eapply remove_fuel_clears; [exact Hr|exact Hp2|exact Hop1|].
      by rewrite L1. }
    destruct (decide (j' ∈ mutated ev2)) as [|Hn]; [done|exfalso].
    destruct (Ma j' Hj') as [_ (oj1 & Hoj1 & Kj1)].
    destruct (heap_rel_lookup _ _ _ _ _ F2 Hoj1) as (oj2 & Hoj2 & _).
    pose proof (Ur j' oj1 oj2 Hoj1 Hoj2 Hn) as Em.
    destruct Hcl as [(x & Hx2 & Kx)|Hex].
    - simplify_eq. apply Kx. by rewrite Em.
    - apply (excludes_same (frame_remove k) k h1 h2 j'
               (frame_remove_same k) F2) in Hex.
      apply (excludes_same (frame_add k) k h h1 j'
               (frame_add_same k) F1) in Hex.
      destruct Hex as (x & Hx' & Kx). by simplify_eq. }
  assert (∀ j, j ∈ mutated ev1 → j ∈ mutated ev2) as Hsub.
  { intros j Hj. apply Hreach.
    by destruct (add_fuel_origin _ _ _ _ _ _ _ _ _ Ha j Hj) as (_ & _ & ?). }
  assert (∀ j, j ∈ mutated ev2 → j ∈ mutated ev1) as Hsup.
  { intros j Hj. destruct (decide (j ∈ mutated ev1)) as [|Hn]; [done|exfalso].
    destruct (Mr j Hj) as [(oj1 & Hoj1 & Kj1) _].
    destruct (Forall2_lookup_r _ _ _ _ _ R1 Hoj1) as (oj & Hoj & _).
    destruct (Ua j oj oj1 Hoj Hoj1 Hn) as [Em _].
    apply (Forall_lookup_1 _ _ _ _ Hno Hoj). by rewrite <- Em. }
  split; [by split; auto|].
  intros j oj Hoj.
  destruct (heap_rel_lookup _ _ _ _ _ R1 Hoj) as (oj1 & Hoj1 & E1).
  destruct (heap_rel_lookup _ _ _ _ _ R2 Hoj1) as (oj2 & Hoj2 & E2).
  exists oj2. split; [done|].
  destruct (decide (j ∈ mutated ev1)) as [Hj|Hj].
  - destruct (Ma j Hj) as [(x & Hx & Kx) (y & Hy & Ky)]. simplify_eq.
    destruct (Mr j (Hsub j Hj)) as [_ (z & Hz & Kz)]. simplify_eq.
    assert (members oj1 = {[k]} ∪ members oj) as Em1.
    { destruct E1 as (_ & _ & _ & [[Em _]|(_ & Em & _)] & _); [|done].
      rewrite Em in Ky. done. }
    assert (members oj2 = members oj1 ∖ {[k]}) as Em2.
    { by destruct E2 as [->|[_ [->|[_ ->]]]]. }
    rewrite Em2, Em1. by apply union_difference_absent.
  - destruct (Ua j oj oj1 Hoj Hoj1 Hj) as [Em1 _].
    rewrite (Ur j oj1 oj2 Hoj1 Hoj2); [done|].
    intros Hj2. by apply Hj, Hsup.
Qed.

Lemma add_then_remove_restores_witness :
  ∃ oj2, (remove (add two_cycle 0 key_a (PAtom ANone) false).1.1
                 0 key_a (PAtom ANone) false).1.1 !! 1 = Some oj2 ∧
         members oj2 = ∅.
Proof.
  destruct (add_then_remove_restores two_cycle 0
              (Obj LinkedSet ∅ ∅ [1; 0] ∅ None false) key_a
              (PAtom ANone) (PAtom ANone)
              (add two_cycle 0 key_a (PAtom ANone) false).1.1
              (add two_cycle 0 key_a (PAtom ANone) false).1.2
              (remove (add two_cycle 0 key_a (PAtom ANone) false).1.1
                      0 key_a (PAtom ANone) false).1.1
              (remove (add two_cycle 0 key_a (PAtom ANone) false).1.1
                      0 key_a (PAtom ANone) false).1.2)
    as [_ H].
  - reflexivity.
  - by_compute.
  - by_compute.
  - by_compute.
  - apply (H 1 (Obj LinkedSet ∅ ∅ [0] ∅ None false)). reflexivity.
Defined.

(** ** When the event gets set *)

Lemma matches_same o o' t :
  cls o' = cls o → members o' = members o → matches o t → matches o' t.
Proof. intros C M (l & H1 & H2). exists l. by rewrite C, M. Qed.

Lemma settled_same o o' :
  cls o' = cls o → members o' = members o → _ct o' = _ct o →
  settled o → settled o'.
Proof.
  intros C M T [N|(t & l & l' & Ht & H1 & H2 & Hne)].
  - left. congruence.
  - right. exists t, l, l'. rewrite C, M, T. done.
Qed.

(** What [check_target] has found when it clears the target. *)
Lemma check_target_reached (h : heap) i o h' res o' t :
  check_target h i = (h', res) → h !! i = Some o → h' !! i = Some o' →
  _ct o = Some t → _ct o' = None →
  o' = with_target None true o ∧ matches o t.
Proof.
  unfold check_target. intros H Hi Hi' Ht Hn. rewrite Hi, Ht in H.
  destruct (filtered _ (members o)) as [l|] eqn:Hl;
    [|simplify_eq; congruence].
  destruct (filtered _ t) as [l'|] eqn:Hl'; [|simplify_eq; congruence].
  case_bool_decide as Heq; [|simplify_eq; congruence].
  simplify_eq. rewrite list_lookup_insert_eq in Hi'
    by by eapply lookup_lt_Some.
  simplify_eq. split; [done|]. by exists l'.
Qed.

(** What [check_target] has found when it returns. *)
Lemma check_target_settles (h : heap) i o h' :
  check_target h i = (h', Ok tt) → h !! i = Some o →
  ∃ o', h' !! i = Some o' ∧ cls o' = cls o ∧ members o' = members o ∧
        settled o'.
Proof.
  unfold check_target. intros H Hi. rewrite Hi in H.
  destruct (_ct o) as [t|] eqn:Ht.
  - destruct (filtered _ (members o)) as [l|] eqn:Hl; [|done].
    destruct (filtered _ t) as [l'|] eqn:Hl'; [|done].
    case_bool_decide as Heq; simplify_eq.
    + exists (with_target None true o). split; [|by repeat split; left].
      apply list_lookup_insert_eq. by eapply lookup_lt_Some.
    + exists o. split; [done|]. split; [done|]. split; [done|].
      right. by exists t, l, l'.
  - simplify_eq. exists o. split; [done|]. split; [done|]. split; [done|].
    by left.
Qed.

Lemma check_target_other (h : heap) i j :
  j ≠ i → (check_target h i).1 !! j = h !! j.
Proof.
  intros Hne. destruct (check_target h i) as [h' res] eqn:H.
  destruct (check_target_cases _ _ _ _ H) as [->|(o & _ & _ & _ & ->)];
    [done|]. simpl. by rewrite list_lookup_insert_ne.
Qed.

Lemma remove_loose_refl k o : remove_loose k o o.
Proof. repeat split; try done; by left. Qed.

Lemma remove_loose_trans k o1 o2 o3 :
  remove_loose k o1 o2 → remove_loose k o2 o3 → remove_loose k o1 o3.
Proof.
  intros (C1 & L1 & X1 & R1 & M1 & T1) (C2 & L2 & X2 & R2 & M2 & T2).
  split; [congruence|]. split; [congruence|]. split; [congruence|].
  split; [congruence|]. split; [|by eapply target_evolve_trans].
  destruct M1 as [Ma|[Ka Ma]], M2 as [Mb|[Kb Mb]].
  - left. congruence.
  - right. rewrite <- Ma. done.
  - right. split; [done|]. congruence.
  - exfalso. rewrite Ma in Kb. apply elem_of_difference in Kb as [_ Kb].
    apply Kb. by apply elem_of_singleton.
Qed.

Lemma ct_step_remove_loose k o o' : ct_step o o' → remove_loose k o o'.
Proof.
  intros H. pose proof (ct_step_target _ _ H) as T.
  destruct H as [->|[S ->]]; repeat split; try done; by left.
Qed.

Lemma remove_evolve_loose k o o' : remove_evolve k o o' → remove_loose k o o'.
Proof.
  intros [->|[K S]]; [apply remove_loose_refl|].
  pose proof (ct_step_target _ _ S) as T.
  destruct S as [->|[_ ->]]; repeat split; try done; by right.
Qed.

Lemma sound_add_refl k r h : sound_add k r h h.
Proof.
  split; [apply heap_rel_refl, add_evolve_refl|].
  intros j oj oj' t H1 H2 Ht Hn. congruence.
Qed.

Lemma sound_add_trans k r h1 h2 h3 :
  sound_add k r h1 h2 → sound_add k r h2 h3 → sound_add k r h1 h3.
Proof.
  intros [F1 S1] [F2 S2].
  split; [by eapply heap_rel_trans; [apply add_evolve_trans|..]|].
  intros j o1 o3 t H1 H3 Ht Hn.
  destruct (heap_rel_lookup _ _ _ _ _ F1 H1) as (o2 & H2 & E1).
  destruct (heap_rel_lookup _ _ _ _ _ F2 H2) as (o3' & H3' & E2).
  simplify_eq.
  destruct (_ct o2) as [t2|] eqn:Ht2.
  - assert (t2 = t) as ->.
    { destruct E1 as (_ & _ & _ & _ & [[E _]|(_ & E & _)]); congruence. }
    by eapply S2.
  - destruct (S1 j o1 o2 t H1 H2 Ht Ht2) as (K & T & M).
    destruct E2 as (C & _ & _ & [[Em _]|(N & _)] & [[_ Et]|(S & _)]).
    + split; [by rewrite Em|]. split; [congruence|].
      by eapply matches_same.
    + rewrite Ht2 in S. by destruct S.
    + done.
    + done.
Qed.

Lemma sound_add_check k r (h : heap) i h' res :
  check_target h i = (h', res) → has k h i → sound_add k r h h'.
Proof.
  intros H (o & Hi & K). split.
  { eapply Forall2_impl; [by eapply check_target_rel|].
    apply ct_step_add_evolve. }
  intros j oj oj' t Hj Hj' Ht Hn.
  destruct (decide (j = i)) as [->|Hne].
  - simplify_eq.
    destruct (check_target_reached _ _ _ _ _ _ _ H Hi Hj' Ht Hn) as [-> M].
    split; [done|]. split; [done|]. by eapply matches_same.
  - pose proof (check_target_other h i j Hne) as E. rewrite H in E.
    simpl in E. rewrite E in Hj'. congruence.
Qed.

Lemma sound_add_insert k r (h : heap) i o :
  h !! i = Some o → k ∉ members o →
  sound_add k r h (<[i := with_entry k r o]> h).
Proof.
  intros Hi Hk. split.
  { eapply heap_rel_insert; [apply add_evolve_refl|done|].
    by apply with_entry_add_evolve. }
  intros j oj oj' t Hj Hj' Ht Hn.
  destruct (lookup_insert_cases h i (with_entry k r o) j oj Hj)
    as (x & Hx & [->|[-> ->]]); rewrite Hx in Hj'; simplify_eq; simpl in *;
    congruence.
Qed.

Lemma add_fuel_sound n k r : ∀ (h : heap) i c h' ev res,
  add_fuel n k r h i c = (h', ev, res) → sound_add k r h h'.
Proof.
  induction n as [|n IH]; intros h i c h' ev res H.
  { simpl in H. simplify_eq. apply sound_add_refl. }
  destruct (h !! i) as [o|] eqn:Hi;
    [|simpl in H; rewrite Hi in H; simplify_eq; apply sound_add_refl].
  destruct (add_fuel_cases _ _ _ _ _ _ _ _ _ _ Hi H)
    as [(_ & _ & -> & _)|[(_ & Hk & _ & Hc)|
        (_ & Hk & h1 & e1 & r1 & Hf & _ & Hres)]].
  - apply sound_add_refl.
  - eapply sound_add_check; [done|]. by exists o.
  - assert (sound_add k r h h1) as S1.
    { eapply sound_add_trans; [by apply sound_add_insert|].
      eapply (for_each_rel (λ a _ b, sound_add k r a b)); [| | |exact Hf].
      - intros. apply sound_add_refl.
      - intros ?????. apply sound_add_trans.
      - intros l a b e0 res0 _ Hb. eapply IH. exact Hb. }
    destruct Hres as [[_ Hc]|(e & _ & _ & ->)]; [|done].
    eapply sound_add_trans; [exact S1|].
    eapply sound_add_check; [done|].
    apply (has_add_mono k r (<[i := with_entry k r o]> h) h1 i).
    + eapply (for_each_rel (λ a _ b, Forall2 (add_evolve k r) a b));
        [| | |exact Hf]; cbn beta.
      * intros. apply heap_rel_refl, add_evolve_refl.
      * intros ?????. apply heap_rel_trans, add_evolve_trans.
      * intros l a b e0 res0 _. apply add_fuel_rel.
    + exists (with_entry k r o). split.
      * apply list_lookup_insert_eq. by eapply lookup_lt_Some.
      * simpl. apply elem_of_union_l. by apply elem_of_singleton.
Qed.

Lemma sound_remove_refl k h : sound_remove k h h.
Proof.
  split; [apply heap_rel_refl, remove_loose_refl|].
  intros j oj oj' t H1 H2 Ht Hn. congruence.
Qed.

Lemma sound_remove_trans k h1 h2 h3 :
  sound_remove k h1 h2 → sound_remove k h2 h3 → sound_remove k h1 h3.
Proof.
  intros [F1 S1] [F2 S2].
  split; [by eapply heap_rel_trans; [apply remove_loose_trans|..]|].
  intros j o1 o3 t H1 H3 Ht Hn.
  destruct (heap_rel_lookup _ _ _ _ _ F1 H1) as (o2 & H2 & E1).
  destruct (heap_rel_lookup _ _ _ _ _ F2 H2) as (o3' & H3' & E2).
  simplify_eq.
  destruct (_ct o2) as [t2|] eqn:Ht2.
  - assert (t2 = t) as ->.
    { destruct E1 as (_ & _ & _ & _ & _ & [[E _]|(_ & E & _)]); congruence. }
    by eapply S2.
  - destruct (S1 j o1 o2 t H1 H2 Ht Ht2) as (K & T & M).
    destruct E2 as (C & _ & _ & _ & [Em|[N _]] & [[_ Et]|(S & _)]).
    + split; [by rewrite Em|]. split; [congruence|].
      by eapply matches_same.
    + rewrite Ht2 in S. by destruct S.
    + done.
    + done.
Qed.

Lemma sound_remove_check k (h : heap) i h' res :
  check_target h i = (h', res) → lacks k h i → sound_remove k h h'.
Proof.
  intros H (o & Hi & K). split.
  { eapply Forall2_impl; [by eapply check_target_rel|].
    apply ct_step_remove_loose. }
  intros j oj oj' t Hj Hj' Ht Hn.
  destruct (decide (j = i)) as [->|Hne].
  - simplify_eq.
    destruct (check_target_reached _ _ _ _ _ _ _ H Hi Hj' Ht Hn) as [-> M].
    split; [done|]. split; [done|]. by eapply matches_same.
  - pose proof (check_target_other h i j Hne) as E. rewrite H in E.
    simpl in E. rewrite E in Hj'. congruence.
Qed.

Lemma sound_remove_discard k (h : heap) i o :
  h !! i = Some o → k ∈ members o →
  sound_remove k h (<[i := without_member k o]> h).
Proof.
  intros Hi Hk. split.
  { eapply heap_rel_insert; [apply remove_loose_refl|done|].
    repeat split; try done; [by right|by left]. }
  intros j oj oj' t Hj Hj' Ht Hn.
  destruct (lookup_insert_cases h i (without_member k o) j oj Hj)
    as (x & Hx & [->|[-> ->]]); rewrite Hx in Hj'; simplify_eq; simpl in *;
    congruence.
Qed.

Lemma remove_fuel_loose n k (h : heap) i c h' ev res :
  remove_fuel n k h i c = (h', ev, res) → Forall2 (remove_loose k) h h'.
Proof.
  intros H. eapply Forall2_impl; [by eapply remove_fuel_rel|].
  apply remove_evolve_loose.
Qed.

Lemma remove_fuel_sound n k : ∀ (h : heap) i c h' ev res,
  remove_fuel n k h i c = (h', ev, res) → sound_remove k h h'.
Proof.
  induction n as [|n IH]; intros h i c h' ev res H.
  { simpl in H. simplify_eq. apply sound_remove_refl. }
  destruct (h !! i) as [o|] eqn:Hi;
    [|simpl in H; rewrite Hi in H; simplify_eq; apply sound_remove_refl].
  destruct (remove_fuel_cases _ _ _ _ _ _ _ _ _ Hi H)
    as [(_ & _ & -> & _)|[(_ & _ & -> & _)|
        (_ & Hk & h1 & e1 & r1 & Hf & _ & Hres)]].
  - apply sound_remove_refl.
  - apply sound_remove_refl.
  - assert (sound_remove k h h1) as S1.
    { eapply sound_remove_trans; [by apply sound_remove_discard|].
      eapply (for_each_rel (λ a _ b, sound_remove k a b)); [| | |exact Hf].
      - intros. apply sound_remove_refl.
      - intros ?????. apply sound_remove_trans.
      - intros l a b e0 res0 _.
        apply (remove_link_rel (λ a _ b, sound_remove k a b)).
        + intros. apply sound_remove_refl.
        + intros ???????? Hb. eapply IH. exact Hb. }
    destruct Hres as [[_ Hc]|(e & _ & _ & ->)]; [|done].
    eapply sound_remove_trans; [exact S1|].
    eapply sound_remove_check; [done|].
    apply (lacks_remove_mono k (<[i := without_member k o]> h) h1 i).
    + eapply (for_each_rel (λ a _ b, Forall2 (no_gain k) a b));
        [| | |exact Hf]; cbn beta.
      * intros. apply heap_rel_refl, no_gain_refl.
      * intros ?????. apply heap_rel_trans, no_gain_trans.
      * intros l a b e0 res0 _ Hb.
        eapply Forall2_impl; [eapply remove_link_frame; exact Hb|].
        by intros x y (_ & _ & ?).
    + exists (without_member k o). split.
      * apply list_lookup_insert_eq. by eapply lookup_lt_Some.
      * simpl. intros [_ K]%elem_of_difference. apply K.
        by apply elem_of_singleton.
Qed.

(** The methods that touch neither members nor target. *)
Lemma insert_same_target (h : heap) j oj x i o o' :
  h !! j = Some oj → h !! i = Some o → <[j := x]> h !! i = Some o' →
  _ct x = _ct oj → _ct o' = _ct o.
Proof.
  intros Hj Hi Hi' Hx.
  destruct (lookup_insert_cases h j x i o Hi) as (y & Hy & [->|[-> ->]]);
    rewrite Hy in Hi'; simplify_eq; [done|]. congruence.
Qed.

(** X5. The event is set for a reason.  Whenever an operation other
    than [set_target] on that set clears the target of a set (which is
    how reaching a target shows), the event of the set is set and the
    members it has after the operation are equal, under the filter, to
    the target it had. *)
Theorem target_cleared_means_reached (h : heap) q i o o' t :
  h !! i = Some o → (step h q).1.1 !! i = Some o' →
  not_set_target_on i q →
  _ct o = Some t → _ct o' = None →
  target o' = true ∧ matches o' t.
Proof.
  intros Hi Hi' Hq Ht Hn.
  destruct q as [c seed|j v|j|j a r c|j a r c|j k0|j k0|j l|j l];
    simpl in Hi'.
  - rewrite lookup_app_l in Hi' by by eapply lookup_lt_Some. congruence.
  - assert (j ≠ i) as Hne by (intros ->; by destruct (Hq v)).
    unfold set_target in Hi'.
    destruct (h !! j) as [oj|] eqn:Hj; [|simpl in Hi'; congruence].
    destruct v as [v|]; simpl in Hi'.
    + rewrite check_target_other in Hi' by done.
      rewrite list_lookup_insert_ne in Hi' by done. congruence.
    + rewrite list_lookup_insert_ne in Hi' by done. congruence.
  - destruct (decide (j = i)) as [->|Hne].
    + destruct (check_target h i) as [h' res] eqn:Hc. simpl in Hi'.
      destruct (check_target_reached _ _ _ _ _ _ _ Hc Hi Hi' Ht Hn)
        as [-> M].
      split; [done|]. by eapply matches_same.
    + rewrite check_target_other in Hi' by done. congruence.
  - unfold call_add in Hi'.
    destruct (h !! j) as [oj|] eqn:Hj; [|simpl in Hi'; congruence].
    assert (∀ k p c', (add h j k p c').1.1 !! i = Some o' →
              target o' = true ∧ matches o' t) as Hadd.
    { intros k p c' Hl. unfold add in Hl.
      destruct (add_fuel _ _ _ _ _ _) as [[h' ev] res] eqn:H. simpl in Hl.
      destruct (add_fuel_sound _ _ _ _ _ _ _ _ _ H) as [_ S].
      by destruct (S i o o' t Hi Hl Ht Hn) as (_ & ? & ?). }
    destruct (cls oj), a as [k|m]; simpl in Hi'; eauto. congruence.
  - unfold call_remove in Hi'.
    destruct (h !! j) as [oj|] eqn:Hj; [|simpl in Hi'; congruence].
    assert (∀ k p c', (remove h j k p c').1.1 !! i = Some o' →
              target o' = true ∧ matches o' t) as Hrem.
    { intros k p c' Hl. unfold remove in Hl.
      destruct (remove_fuel _ _ _ _ _) as [[h' ev] res] eqn:H. simpl in Hl.
      destruct (remove_fuel_sound _ _ _ _ _ _ _ _ H) as [_ S].
      by destruct (S i o o' t Hi Hl Ht Hn) as (_ & ? & ?). }
    destruct (cls oj), a as [k|m]; simpl in Hi'; eauto. congruence.
  - unfold unlink in Hi'.
    destruct (h !! j) as [oj|] eqn:Hj; [|simpl in Hi'; congruence].
    simpl in Hi'.
    pose proof (insert_same_target h j oj _ i o o' Hj Hi Hi' eq_refl).
    congruence.
  - unfold relink in Hi'.
    destruct (h !! j) as [oj|] eqn:Hj; [|simpl in Hi'; congruence].
    case_bool_decide; simpl in Hi'; [|congruence].
    pose proof (insert_same_target h j oj _ i o o' Hj Hi Hi' eq_refl).
    congruence.
  - unfold connect in Hi'.
    destruct (h !! j) as [oj|] eqn:Hj; [|simpl in Hi'; congruence].
    destruct (h !! l); simpl in Hi'; [|congruence].
    pose proof (insert_same_target h j oj _ i o o' Hj Hi Hi' eq_refl).
    congruence.
  - unfold disconnect in Hi'.
    destruct (h !! j) as [oj|] eqn:Hj; [|simpl in Hi'; congruence].
    destruct (list_remove_first _ _); simpl in Hi'; [|congruence].
    pose proof (insert_same_target h j oj _ i o o' Hj Hi Hi' eq_refl).
    congruence.
Qed.

Lemma target_cleared_means_reached_witness :
  ∃ o', addresses IPaddrSet !! 0 = Some o' ∧
        target o' = true ∧ matches o' {[addr_v4]}.
Proof.
  exists (Obj IPaddrSet {[addr_ll; addr_v4]}
              {[addr_ll := PAtom ANone; addr_v4 := PAtom ANone]}
              [] ∅ None true).
  split; [by_compute|].
  apply (target_cleared_means_reached
           (run [] [OpNew IPaddrSet []; OpSetTarget 0 (Some {[addr_v4]});
                    OpAdd 0 (Key addr_ll) (PAtom ANone) false])
           (OpAdd 0 (Key addr_v4) (PAtom ANone) false) 0
           (Obj IPaddrSet {[addr_ll]} {[addr_ll := PAtom ANone]}
                [] ∅ (Some {[addr_v4]}) false)).
  - by_compute.
  - by_compute.
  - intros v. discriminate.
  - reflexivity.
  - reflexivity.
Defined.

(** ** No target is left unevaluated *)

Lemma settled_add_evolve k r o o' :
  add_evolve k r o o' → k ∈ members o → settled o → settled o'.
Proof.
  intros (C & _ & _ & M & T) K S.
  assert (members o' = members o) as Em.
  { by destruct M as [[? _]|(? & _)]. }
  destruct T as [[Et _]|(_ & Et & _)].
  - by eapply settled_same.
  - by left.
Qed.

Lemma settled_remove_loose k o o' :
  remove_loose k o o' → k ∉ members o → settled o → settled o'.
Proof.
  intros (C & _ & _ & _ & M & T) K S.
  assert (members o' = members o) as Em.
  { by destruct M as [?|[? _]]. }
  destruct T as [[Et _]|(_ & Et & _)].
  - by eapply settled_same.
  - by left.
Qed.

Lemma add_fuel_settles n k r : ∀ (h : heap) i c h' ev,
  add_fuel n k r h i c = (h', ev, Ok tt) →
  ∀ j, j ∈ mutated ev →
    ∃ oj, h' !! j = Some oj ∧ k ∈ members oj ∧ settled oj.
Proof.
  induction n as [|n IH]; intros h i c h' ev H; [done|].
  destruct (h !! i) as [o|] eqn:Hi; [|simpl in H; by rewrite Hi in H].
  destruct (add_fuel_cases _ _ _ _ _ _ _ _ _ _ Hi H)
    as [(_ & _ & _ & -> & _)|[(_ & _ & -> & _)|
        (_ & Hk & h1 & e1 & r1 & Hf & -> & Hres)]];
    [by intros j ?%elem_of_nil|by intros j ?%elem_of_nil|].
  destruct Hres as [[-> Hc]|(e & _ & ? & _)]; [|done].
  set (h0 := <[i := with_entry k r o]> h) in *.
  assert (Forall2 (add_evolve k r) h0 h1 ∧
          ∀ j, j ∈ mutated e1 →
            ∃ oj, h1 !! j = Some oj ∧ k ∈ members oj ∧ settled oj)
    as [F1 Hin].
  { eapply (for_each_rel_ok
              (λ a e b, Forall2 (add_evolve k r) a b ∧
                        ∀ j, j ∈ mutated e →
                          ∃ oj, b !! j = Some oj ∧ k ∈ members oj ∧
                                settled oj));
      [| | |exact Hf].
    - intros a. split; [apply heap_rel_refl, add_evolve_refl|].
      by intros j ?%elem_of_nil.
    - intros a ea b eb c0 [Fa Pa] [Fb Pb]. split.
      { by eapply heap_rel_trans; [apply add_evolve_trans|..]. }
      intros j Hj. rewrite mutated_app in Hj.
      apply elem_of_app in Hj as [Hj|Hj]; [|by apply Pb].
      destruct (Pa j Hj) as (oj & Hoj & K & S).
      destruct (heap_rel_lookup _ _ _ _ _ Fb Hoj) as (oj' & Hoj' & E).
      exists oj'. split; [done|]. split; [by eapply add_evolve_holds|].
      by eapply settled_add_evolve.
    - intros l a b e0 _ Hb. cbn beta in Hb.
      split; [eapply add_fuel_rel; exact Hb|]. eapply IH; exact Hb. }
  assert (has k h1 i) as (o1 & Hi1 & K1).
  { apply (has_add_mono k r h0 h1 i F1). exists (with_entry k r o). split.
    - apply list_lookup_insert_eq. by eapply lookup_lt_Some.
    - simpl. apply elem_of_union_l. by apply elem_of_singleton. }
  destruct (check_target_settles _ _ _ _ Hc Hi1) as (o' & Hi' & _ & Em & S').
  intros j Hj. simpl in Hj. apply elem_of_cons in Hj as [->|Hj].
  - exists o'. split; [done|]. split; [by rewrite Em|done].
  - destruct (Hin j Hj) as (oj & Hoj & K & S).
    pose proof (check_target_rel _ _ _ _ Hc) as Fc.
    destruct (heap_rel_lookup _ _ _ _ _ Fc Hoj) as (oj' & Hoj' & E).
    apply (ct_step_add_evolve k r) in E.
    exists oj'. split; [done|]. split; [by eapply add_evolve_holds|].
    by eapply settled_add_evolve.
Qed.

Lemma remove_fuel_settles n k : ∀ (h : heap) i c h' ev,
  remove_fuel n k h i c = (h', ev, Ok tt) →
  ∀ j, j ∈ mutated ev →
    ∃ oj, h' !! j = Some oj ∧ (k ∉ members oj) ∧ settled oj.
Proof.
  induction n as [|n IH]; intros h i c h' ev H; [done|].
  destruct (h !! i) as [o|] eqn:Hi; [|simpl in H; by rewrite Hi in H].
  destruct (remove_fuel_cases _ _ _ _ _ _ _ _ _ Hi H)
    as [(_ & _ & _ & -> & _)|[(_ & _ & _ & _ & ?)|
        (_ & Hk & h1 & e1 & r1 & Hf & -> & Hres)]];
    [by intros j ?%elem_of_nil|done|].
  destruct Hres as [[-> Hc]|(e & _ & ? & _)]; [|done].
  set (h0 := <[i := without_member k o]> h) in *.
  assert (Forall2 (remove_loose k) h0 h1 ∧
          ∀ j, j ∈ mutated e1 →
            ∃ oj, h1 !! j = Some oj ∧ (k ∉ members oj) ∧ settled oj)
    as [F1 Hin].
  { eapply (for_each_rel_ok
              (λ a e b, Forall2 (remove_loose k) a b ∧
                        ∀ j, j ∈ mutated e →
                          ∃ oj, b !! j = Some oj ∧ (k ∉ members oj) ∧
                                settled oj));
      [| | |exact Hf].
    - intros a. split; [apply heap_rel_refl, remove_loose_refl|].
      by intros j ?%elem_of_nil.
    - intros a ea b eb c0 [Fa Pa] [Fb Pb]. split.
      { by eapply heap_rel_trans; [apply remove_loose_trans|..]. }
      intros j Hj. rewrite mutated_app in Hj.
      apply elem_of_app in Hj as [Hj|Hj]; [|by apply Pb].
      destruct (Pa j Hj) as (oj & Hoj & K & S).
      destruct (heap_rel_lookup _ _ _ _ _ Fb Hoj) as (oj' & Hoj' & E).
      exists oj'. split; [done|]. split.
      + destruct E as (_ & _ & _ & _ & [->|[? _]] & _); done.
      + by eapply settled_remove_loose.
    - intros l a b e0 _ Hb. unfold remove_link in Hb.
      destruct (a !! l) as [ol|]; [|done].
      case_bool_decide.
      + split; [eapply remove_fuel_loose; exact Hb|]. eapply IH; exact Hb.
      + simplify_eq. split; [apply heap_rel_refl, remove_loose_refl|].
        by intros j ?%elem_of_nil. }
  assert (∃ o1, h1 !! i = Some o1 ∧ k ∉ members o1) as (o1 & Hi1 & K1).
  { assert (h0 !! i = Some (without_member k o)) as Hi0.
    { apply list_lookup_insert_eq. by eapply lookup_lt_Some. }
    destruct (heap_rel_lookup _ _ _ _ _ F1 Hi0) as (o1 & Hi1 & E).
    exists o1. split; [done|].
    assert (k ∉ members (without_member k o)) as K0.
    { simpl. intros [_ K]%elem_of_difference. apply K.
      by apply elem_of_singleton. }
    destruct E as (_ & _ & _ & _ & [->|[? _]] & _); done. }
  destruct (check_target_settles _ _ _ _ Hc Hi1) as (o' & Hi' & _ & Em & S').
  intros j Hj. simpl in Hj. apply elem_of_cons in Hj as [->|Hj].
  - exists o'. split; [done|]. split; [by rewrite Em|done].
  - destruct (Hin j Hj) as (oj & Hoj & K & S).
    pose proof (check_target_rel _ _ _ _ Hc) as Fc.
    destruct (heap_rel_lookup _ _ _ _ _ Fc Hoj) as (oj' & Hoj' & E).
    apply (ct_step_remove_loose k) in E.
    exists oj'. split; [done|]. split.
    + destruct E as (_ & _ & _ & _ & [->|[? _]] & _); done.
    + by eapply settled_remove_loose.
Qed.

(** X6. No target is left unevaluated.  After a direct [add] or
    [remove] that returns without an exception, the set of the call and
    every set that the call changed have been checked against their
    target with the members they end up with: each of them has no active
    target, or its filtered members differ from its filtered target. *)
Theorem target_evaluated_after_call (h : heap) i o k r h' ev :
  h !! i = Some o →
  add h i k r false = (h', ev, Ok tt) ∨
  remove h i k r false = (h', ev, Ok tt) →
  ∀ j, j = i ∨ j ∈ mutated ev → ∃ oj, h' !! j = Some oj ∧ settled oj.
Proof.
  intros Hi [H|H] j Hj.
  - unfold add in H.
    assert (j ∈ mutated ev ∨ (j = i ∧ k ∈ members o)) as [Hm|[-> Hk]].
    { destruct Hj as [->|?]; [|by left].
      destruct (decide (k ∈ members o)) as [|Hk]; [by right|left].
      by destruct (add_fuel_direct _ _ _ _ _ _ _ _ _ Hi H)
        as (? & _ & _ & Hd); apply Hd. }
    + destruct (add_fuel_settles _ _ _ _ _ _ _ _ H j Hm) as (oj & ? & _ & ?).
      by exists oj.
    + destruct (add_fuel_cases _ _ _ _ _ _ _ _ _ _ Hi H)
        as [(? & _)|[(_ & _ & _ & Hc)|(_ & ? & _)]]; [done| |done].
      destruct (check_target_settles _ _ _ _ Hc Hi) as (o' & ? & _ & _ & ?).
      by exists o'.
  - unfold remove in H.
    assert (j ∈ mutated ev) as Hm.
    { destruct Hj as [->|?]; [|done].
      destruct (remove_fuel_cases _ _ _ _ _ _ _ _ _ Hi H)
        as [(? & _)|[(_ & _ & _ & _ & ?)|(_ & Hk & _)]]; [done|done|].
      by destruct (remove_fuel_direct _ _ _ _ _ _ _ _ Hi Hk H)
        as (? & _ & _ & _ & ?). }
    destruct (remove_fuel_settles _ _ _ _ _ _ _ H j Hm) as (oj & ? & _ & ?).
    by exists oj.
Qed.

Lemma target_evaluated_after_call_witness :
  ∃ oj, (add waiting 0 key_c (PAtom ANone) false).1.1 !! 0 = Some oj ∧
        settled oj.
Proof.
  apply (target_evaluated_after_call waiting 0
           (Obj LinkedSet {[key_a; key_b]} ∅ [] ∅
                (Some {[key_a; key_b]}) false)
           key_c (PAtom ANone)
           (add waiting 0 key_c (PAtom ANone) false).1.1
           (add waiting 0 key_c (PAtom ANone) false).1.2).
  - reflexivity.
  - left. by_compute.
  - by left.
Defined.

(** ** Switching a target off *)

(** X7. [set_target(None)] switches the target off: it clears the target
    and the event and runs no check, and from then on no operation other
    than a new [set_target] on that set sets the event again, whatever is
    added or removed. *)
Theorem target_switched_off (h : heap) i o ops :
  h !! i = Some o →
  Forall (not_set_target_on i) ops →
  set_target h i None = (<[i := with_target None false o]> h, Ok tt) ∧
  ∃ o', run (set_target h i None).1 ops !! i = Some o' ∧
        _ct o' = None ∧ target o' = false.
Proof.
  intros Hi F. unfold set_target. rewrite Hi. split; [done|]. simpl.
  eapply (run_no_target ops _ i (with_target None false o)); [|done|done].
  apply list_lookup_insert_eq. by eapply lookup_lt_Some.
Qed.

Lemma target_switched_off_witness :
  ∃ o', run (set_target waiting 0 None).1
            [OpRemove 0 (Key key_a) (PAtom ANone) false;
             OpAdd 0 (Key key_a) (PAtom ANone) false] !! 0 = Some o' ∧
        _ct o' = None ∧ target o' = false.
Proof.
  eapply (target_switched_off waiting 0).
  - reflexivity.
  - repeat constructor; intros v; discriminate.
Defined.

(** ** unlink and relink *)

Lemma with_exclusive_same o : with_exclusive (exclusive o) o = o.
Proof. by destruct o. Qed.

Lemma with_links_same o : with_links (links o) o = o.
Proof. by destruct o. Qed.

(** X8. [unlink] and [relink].  [relink(k)] on a set that does not
    exclude [k] raises [KeyError] and changes nothing; after [unlink(k)]
    it succeeds and gives back the store as it was before the [unlink];
    a second [unlink(k)] changes nothing more. *)
Theorem unlink_relink (h : heap) i o k :
  h !! i = Some o → k ∉ exclusive o →
  relink h i k = (h, Raise KeyError) ∧
  relink (unlink h i k).1 i k = (h, Ok tt) ∧
  unlink (unlink h i k).1 i k = unlink h i k.
Proof.
  intros Hi Hk.
  assert (i < length h) as Hlt by by eapply lookup_lt_Some.
  split; [|split].
  - unfold relink. rewrite Hi. by rewrite bool_decide_eq_false_2.
  - unfold unlink, relink. rewrite Hi. simpl.
    rewrite list_lookup_insert_eq by done. simpl.
    rewrite bool_decide_eq_true_2
      by (apply elem_of_union_l; by apply elem_of_singleton).
    rewrite list_insert_insert_eq.
    rewrite union_difference_absent by done.
    replace (with_exclusive (exclusive o)
               (with_exclusive ({[k]} ∪ exclusive o) o))
      with o by by destruct o.
    by rewrite list_insert_id.
  - unfold unlink. rewrite Hi. simpl.
    rewrite list_lookup_insert_eq by done. simpl.
    rewrite list_insert_insert_eq. do 2 f_equal.
    unfold with_exclusive. simpl. f_equal.
    apply set_eq. intros x. rewrite !elem_of_union. tauto.
Qed.

Lemma unlink_relink_witness :
  relink (unlink one_of_two 1 key_a).1 1 key_a = (one_of_two, Ok tt).
Proof.
  apply (unlink_relink one_of_two 1 (Obj LinkedSet ∅ ∅ [] ∅ None false)).
  - reflexivity.
  - by_compute.
Defined.

(** ** connect and disconnect *)

Lemma list_remove_first_none p ls :
  (∀ l, l ∈ ls → p l = false) → list_remove_first p ls = None.
Proof.
  induction ls as [|x ls IH]; intros H; [done|]. simpl.
  rewrite (H x) by left. rewrite IH; [done|]. intros l Hl. apply H. by right.
Qed.

Lemma list_remove_first_none_inv p ls :
  list_remove_first p ls = None → ∀ l, l ∈ ls → p l = false.
Proof.
  induction ls as [|x ls IH]; intros H l Hl; [by apply elem_of_nil in Hl|].
  simpl in H. destruct (p x) eqn:Hx; [done|].
  destruct (list_remove_first p ls); [done|].
  apply elem_of_cons in Hl as [->|Hl]; [done|]. by apply IH.
Qed.

Lemma list_remove_first_found p l1 x l2 :
  (∀ y, y ∈ l1 → p y = false) → p x = true →
  list_remove_first p (l1 ++ x :: l2) = Some (l1 ++ l2).
Proof.
  induction l1 as [|y l1 IH]; intros H Hx; simpl.
  - by rewrite Hx.
  - rewrite (H y) by left. rewrite IH; [done| |done].
    intros z Hz. apply H. by right.
Qed.

Lemma list_remove_first_split p ls r :
  list_remove_first p ls = Some r →
  ∃ l1 x l2, ls = l1 ++ x :: l2 ∧ r = l1 ++ l2 ∧ p x = true ∧
             ∀ y, y ∈ l1 → p y = false.
Proof.
  revert r. induction ls as [|z ls IH]; intros r H; [done|]. simpl in H.
  destruct (p z) eqn:Hz.
  - simplify_eq. exists [], z, r. split; [done|]. split; [done|].
    split; [done|]. by intros y ?%elem_of_nil.
  - destruct (list_remove_first p ls) as [r0|]; [|done]. simplify_eq.
    destruct (IH r0 eq_refl) as (l1 & x & l2 & -> & -> & Hx & Hl1).
    exists (z :: l1), x, l2. split; [done|]. split; [done|].
    split; [done|]. intros y [->|Hy]%elem_of_cons; auto.
Qed.

(** X9. [disconnect] compares with [==].  [disconnect(j)] removes from
    the links the first one that is [j] itself or a set with the same
    members as [j], keeps the others in their order, and changes nothing
    else; it raises [ValueError], changing nothing, exactly when no link
    is [j] or has the members of [j]. *)
Theorem disconnect_first_equal (h : heap) i o j :
  h !! i = Some o →
  ((∀ l, l ∈ links o → same_set h j l = false) →
     disconnect h i j = (h, Raise ValueError)) ∧
  (∀ l1 x l2, links o = l1 ++ x :: l2 →
     (∀ y, y ∈ l1 → same_set h j y = false) → same_set h j x = true →
     disconnect h i j = (<[i := with_links (l1 ++ l2) o]> h, Ok tt)) ∧
  (∀ h' res, disconnect h i j = (h', res) →
     (res = Raise ValueError ∧ h' = h ∧
      ∀ l, l ∈ links o → same_set h j l = false) ∨
     (res = Ok tt ∧
      ∃ l1 x l2, links o = l1 ++ x :: l2 ∧ same_set h j x = true ∧
                 (∀ y, y ∈ l1 → same_set h j y = false) ∧
                 h' = <[i := with_links (l1 ++ l2) o]> h)).
Proof.
  intros Hi. unfold disconnect. rewrite Hi. split; [|split].
  - intros H. by rewrite list_remove_first_none.
  - intros l1 x l2 -> H Hx. by rewrite list_remove_first_found.
  - intros h' res H.
    destruct (list_remove_first _ _) as [r|] eqn:Hr; simplify_eq.
    + right. split; [done|].
      destruct (list_remove_first_split _ _ _ Hr)
        as (l1 & x & l2 & E & -> & Hx & Hl1).
      by exists l1, x, l2.
    + left. split; [done|]. split; [done|].
      by apply list_remove_first_none_inv.
Qed.

Lemma disconnect_first_equal_witness :
  disconnect fan 0 2
  = (<[0 := with_links [2] (Obj LinkedSet ∅ ∅ [1; 2] ∅ None false)]> fan,
     Ok tt).
Proof.
  destruct (disconnect_first_equal fan 0
              (Obj LinkedSet ∅ ∅ [1; 2] ∅ None false) 2 eq_refl)
    as (_ & Hfirst & _).
  apply (Hfirst [] 1 [2]).
  - reflexivity.
  - by intros y ?%elem_of_nil.
  - by_compute.
Defined.

Lemma lookup_with_links (h : heap) i o ls x :
  h !! i = Some o →
  <[i := with_links ls o]> h !! x
  = (λ y, if bool_decide (x = i) then with_links ls y else y) <$> h !! x.
Proof.
  intros Hi. destruct (decide (x = i)) as [->|Hne].
  - rewrite list_lookup_insert_eq by by eapply lookup_lt_Some.
    rewrite Hi. simpl. by rewrite bool_decide_eq_true_2.
  - rewrite list_lookup_insert_ne by done.
    destruct (h !! x); simpl; [|done]. by rewrite bool_decide_eq_false_2.
Qed.

Lemma same_set_with_links (h : heap) i o ls j l :
  h !! i = Some o →
  same_set (<[i := with_links ls o]> h) j l = same_set h j l.
Proof.
  intros Hi. unfold same_set.
  rewrite !(lookup_with_links h i o ls) by done.
  destruct (h !! l) as [a|], (h !! j) as [b|]; simpl; try done.
  by repeat case_bool_decide.
Qed.

(** X10. [connect] and [disconnect].  [connect(j)] appends [j] to the
    links and changes nothing else (the members of neither set move); on
    something that is no set of the store the assertion fails.  When no
    link of the set is [j] or has the members of [j], a [disconnect(j)]
    right after gives back the store as it was. *)
Theorem connect_disconnect (h : heap) i o j :
  h !! i = Some o →
  (h !! j = None → connect h i j = (h, Raise AssertionError)) ∧
  (is_Some (h !! j) →
     connect h i j = (<[i := with_links (links o ++ [j]) o]> h, Ok tt) ∧
     ((∀ l, l ∈ links o → same_set h j l = false) →
        disconnect (connect h i j).1 i j = (h, Ok tt))).
Proof.
  intros Hi. unfold connect. rewrite Hi. split.
  - by intros ->.
  - intros [oj Hj]. rewrite Hj. split; [done|]. intros Hno. simpl.
    assert (i < length h) as Hlt by by eapply lookup_lt_Some.
    unfold disconnect. rewrite list_lookup_insert_eq by done. simpl.
    rewrite (list_remove_first_found _ (links o) j []).
    + rewrite app_nil_r, list_insert_insert_eq.
      replace (with_links (links o) (with_links (links o ++ [j]) o))
        with o by by destruct o.
      by rewrite list_insert_id.
    + intros y Hy. rewrite same_set_with_links by done. by apply Hno.
    + unfold same_set. by rewrite bool_decide_eq_true_2.
Qed.

Lemma connect_disconnect_witness :
  disconnect (connect one_of_two 1 0).1 1 0 = (one_of_two, Ok tt).
Proof.
  destruct (connect_disconnect one_of_two 1
              (Obj LinkedSet ∅ ∅ [] ∅ None false) 0 eq_refl)
    as (_ & Hback).
  destruct Hback as (_ & Hback); [by eexists|].
  apply Hback. by intros l ?%elem_of_nil.
Defined.

(** ** The links stay inside the store *)

Lemma linked_in_rel (R : obj → obj → Prop) (h h' : heap) :
  (∀ o o', R o o' → links o' = links o) →
  Forall2 R h h' → linked_in h → linked_in h'.
Proof.
  intros HR F L i o' l Hi Hl.
  destruct (Forall2_lookup_r _ _ _ _ _ F Hi) as (o & Ho & E).
  rewrite <- (Forall2_length _ _ _ F). eapply L; [exact Ho|].
  by rewrite <- (HR _ _ E).
Qed.

Lemma linked_in_insert (h : heap) i o' :
  linked_in h → (∀ l, l ∈ links o' → l < length h) →
  linked_in (<[i := o']> h).
Proof.
  intros L H j o l Hj Hl. rewrite length_insert.
  destruct (decide (j = i)) as [->|Hne].
  - pose proof (lookup_lt_Some _ _ _ Hj) as Hlt.
    rewrite length_insert in Hlt.
    rewrite list_lookup_insert_eq in Hj by done. simplify_eq. auto.
  - rewrite list_lookup_insert_ne in Hj by done. by eapply L.
Qed.

Lemma ct_step_links o o' : ct_step o o' → links o' = links o.
Proof. by intros [->|[_ ->]]. Qed.

Lemma check_target_linked_in (h : heap) i :
  linked_in h → linked_in (check_target h i).1.
Proof.
  intros L. destruct (check_target h i) as [h' res] eqn:H.
  eapply linked_in_rel; [apply ct_step_links|by eapply check_target_rel|done].
Qed.

Lemma add_linked_in (h : heap) i k r c :
  linked_in h → linked_in (add h i k r c).1.1.
Proof.
  intros L. unfold add.
  destruct (add_fuel _ _ _ _ _ _) as [[h' ev] res] eqn:H.
  eapply linked_in_rel; [|by eapply add_fuel_frame|done].
  by intros o o' (E & _).
Qed.

Lemma remove_linked_in (h : heap) i k r c :
  linked_in h → linked_in (remove h i k r c).1.1.
Proof.
  intros L. unfold remove.
  destruct (remove_fuel _ _ _ _ _) as [[h' ev] res] eqn:H.
  eapply linked_in_rel; [|by eapply remove_fuel_frame|done].
  by intros o o' (E & _).
Qed.

Lemma step_linked_in (h : heap) q :
  linked_in h → linked_in (step h q).1.1.
Proof.
  intros L.
  destruct q as [c seed|j v|j|j a r c|j a r c|j k|j k|j l|j l]; simpl.
  - intros i o l Hi Hl. rewrite length_app. simpl.
    apply lookup_app_Some in Hi as [Hi|[_ Hi]].
    + pose proof (L _ _ _ Hi Hl). lia.
    + apply list_lookup_singleton_Some in Hi as [_ <-].
      by apply elem_of_nil in Hl.
  - unfold set_target. destruct (h !! j) as [oj|] eqn:Hj; [|done].
    destruct v as [v|]; simpl.
    + apply check_target_linked_in, linked_in_insert; [done|].
      intros l Hl. eapply L; [exact Hj|exact Hl].
    + apply linked_in_insert; [done|]. intros l Hl. eapply L; [exact Hj|exact Hl].
  - by apply check_target_linked_in.
  - unfold call_add. destruct (h !! j) as [oj|]; [|done].
    destruct (cls oj), a as [k|m]; simpl; try done; by apply add_linked_in.
  - unfold call_remove. destruct (h !! j) as [oj|]; [|done].
    destruct (cls oj), a as [k|m]; simpl; try done; by apply remove_linked_in.
  - unfold unlink. destruct (h !! j) as [oj|] eqn:Hj; [|done]. simpl.
    apply linked_in_insert; [done|]. intros l Hl. eapply L; [exact Hj|exact Hl].
  - unfold relink. destruct (h !! j) as [oj|] eqn:Hj; [|done].
    case_bool_decide; [|done]. simpl.
    apply linked_in_insert; [done|]. intros l Hl. eapply L; [exact Hj|exact Hl].
  - unfold connect. destruct (h !! j) as [oj|] eqn:Hj; [|done].
    destruct (h !! l) as [ol|] eqn:Hl; [|done]. simpl.
    apply linked_in_insert; [done|]. intros x Hx. simpl in Hx.
    apply elem_of_app in Hx as [Hx|Hx]; [eapply L; [exact Hj|exact Hx]|].
    apply list_elem_of_singleton in Hx as ->. by eapply lookup_lt_Some.
  - unfold disconnect. destruct (h !! j) as [oj|] eqn:Hj; [|done].
    destruct (list_remove_first _ _) as [ls|] eqn:Hr; [|done]. simpl.
    destruct (list_remove_first_split _ _ _ Hr)
      as (l1 & x & l2 & E & -> & _ & _).
    apply linked_in_insert; [done|]. intros y Hy. simpl in Hy.
    eapply L; [exact Hj|]. rewrite E.
    apply elem_of_app in Hy as [Hy|Hy]; apply elem_of_app; [by left|].
    right. by right.
Qed.

Lemma run_linked_in (ops : list op) :
  ∀ h, linked_in h → linked_in (run h ops).
Proof.
  induction ops as [|q ops IH]; intros h L; [done|]. simpl.
  apply IH. by apply step_linked_in.
Qed.

Lemma reachable_linked_in (h : heap) : reachable h → linked_in h.
Proof.
  intros [ops ->]. apply run_linked_in. intros i o l Hi. done.
Qed.

(** X11. A link never dangles.  In every store that a client can bring
    about, each link of each set is a set of the store: [__init__] starts
    with no links, [connect] is the only method that adds one and it
    asserts that its argument is a set, and no method takes an object out
    of the store. *)
Theorem links_are_sets (h : heap) i o l :
  reachable h → h !! i = Some o → l ∈ links o → is_Some (h !! l).
Proof.
  intros R Hi Hl. apply lookup_lt_is_Some.
  by eapply reachable_linked_in.
Qed.

Lemma links_are_sets_witness : is_Some (scenario !! 1).
Proof.
  apply (links_are_sets scenario 0
           (Obj LinkedSet {[KAtom (AStr "x")]}
                {[KAtom (AStr "x") := PAtom (AInt 1)]} [1] ∅ None false) 1).
  - by eexists.
  - by_compute.
  - by_compute.
Defined.

(** ** The exceptions of add and remove *)

Lemma for_each_results (E : result unit → Prop) (P : heap → Prop) body ls :
  E (Ok tt) →
  (∀ l h h' ev res, l ∈ ls → P h → body h l = (h', ev, res) →
     P h' ∧ E res) →
  ∀ h h' ev res, P h → for_each body ls h = (h', ev, res) → P h' ∧ E res.
Proof.
  intros HE. induction ls as [|l ls IH]; intros Hb h h' ev res HP H;
    simpl in H.
  - by simplify_eq.
  - destruct (body h l) as [[h1 e1] [[]|e]] eqn:Hl.
    + destruct (for_each body ls h1) as [[h2 e2] r2] eqn:Hr. simplify_eq.
      eapply IH; [| |exact Hr].
      * intros l0 a b ev0 res0 Hl0. apply Hb. by right.
      * eapply (Hb l); [left|exact HP|exact Hl].
    + simplify_eq. eapply (Hb l); [left|exact HP|exact Hl].
Qed.

Lemma heap_rel_forall (R : obj → obj → Prop) (Q : obj → Prop) (h h' : heap) :
  (∀ o o', R o o' → Q o → Q o') → Forall2 R h h' → Forall Q h → Forall Q h'.
Proof.
  intros HR F. induction F as [|o o' h h' Ho F IH]; [done|].
  intros [Hq Hh]%Forall_cons. apply Forall_cons. split; eauto.
Qed.

Lemma check_target_raises (h : heap) i o h' e :
  h !! i = Some o → check_target h i = (h', Err e) →
  e = Exn TypeError ∨ e = Exn IndexError.
Proof.
  intros Hi H. unfold check_target in H. rewrite Hi in H.
  destruct (_ct o) as [t|]; [|done].
  destruct (filtered _ (members o)) as [l|e1] eqn:H1.
  - destruct (filtered _ t) as [l'|e2] eqn:H2.
    + by case_bool_decide.
    + simplify_eq. by eapply filtered_err.
  - simplify_eq. by eapply filtered_err.
Qed.

Lemma add_fuel_results (E : result unit → Prop) (Q : obj → Prop) k r :
  E (Ok tt) → E (Err OutOfFuel) →
  (∀ o o', add_evolve k r o o' → Q o → Q o') →
  (∀ h i o h' res, h !! i = Some o → Q o →
     check_target h i = (h', res) → E res) →
  ∀ n h i c h' ev res,
    linked_in h → Forall Q h → i < length h →
    add_fuel n k r h i c = (h', ev, res) → E res.
Proof.
  intros Eok Efuel HQ Hct.
  induction n as [|n IH]; intros h i c h' ev res L F Hi H.
  { simpl in H. by simplify_eq. }
  destruct (lookup_lt_is_Some_2 _ _ Hi) as [o Ho].
  destruct (add_fuel_cases _ _ _ _ _ _ _ _ _ _ Ho H)
    as [(_ & _ & _ & _ & ->)
       |[(_ & _ & _ & Hc)|(_ & Hk & h1 & e1 & r1 & Hf & _ & Hr)]].
  - done.
  - eapply Hct; [exact Ho| |exact Hc]. by eapply Forall_lookup_1.
  - assert (Q o) as Hqo by by eapply Forall_lookup_1.
    pose (P := λ a : heap, linked_in a ∧ Forall Q a ∧ length a = length h).
    assert (P h1 ∧ E r1) as [(L1 & F1 & N1) Er1].
    { eapply (for_each_results E P); [done| | |exact Hf].
      - intros l a b ev0 res0 Hl (La & Fa & Na) Hb. cbn beta in Hb.
        pose proof (add_fuel_rel _ _ _ _ _ _ _ _ _ Hb) as Rab.
        split.
        + split; [|split].
          * eapply linked_in_rel; [|exact Rab|done]. by intros ?? (_ & ? & _).
          * by eapply heap_rel_forall.
          * by rewrite <- (Forall2_length _ _ _ Rab).
        + eapply IH; [done|done| |exact Hb]. rewrite Na.
          eapply L; [exact Ho|exact Hl].
      - split; [|split].
        + apply linked_in_insert; [done|]. intros l Hl.
          eapply L; [exact Ho|exact Hl].
        + eapply heap_rel_forall; [exact HQ| |exact F].
          eapply heap_rel_insert; [apply add_evolve_refl|done|].
          by apply with_entry_add_evolve.
        + by rewrite length_insert. }
    destruct Hr as [[-> Hc]|(e & -> & -> & _)]; [|done].
    assert (i < length h1) as Hi1 by by rewrite N1.
    destruct (lookup_lt_is_Some_2 _ _ Hi1) as [o1 Ho1].
    eapply Hct; [exact Ho1| |exact Hc]. by eapply Forall_lookup_1.
Qed.

Lemma remove_fuel_results (E : result unit → Prop) (Q : obj → Prop) k :
  E (Ok tt) → E (Err OutOfFuel) →
  (∀ o o', remove_evolve k o o' → Q o → Q o') →
  (∀ h i o h' res, h !! i = Some o → Q o →
     check_target h i = (h', res) → E res) →
  ∀ n h i c h' ev res,
    linked_in h → Forall Q h → has k h i →
    remove_fuel n k h i c = (h', ev, res) → E res.
Proof.
  intros Eok Efuel HQ Hct.
  induction n as [|n IH]; intros h i c h' ev res L F (o & Ho & Hk) H.
  { simpl in H. by simplify_eq. }
  destruct (remove_fuel_cases _ _ _ _ _ _ _ _ _ Ho H)
    as [(_ & _ & _ & _ & ->)
       |[(_ & Hn & _)|(_ & _ & h1 & e1 & r1 & Hf & _ & Hr)]].
  - done.
  - done.
  - assert (Q o) as Hqo by by eapply Forall_lookup_1.
    assert (i < length h) as Hi by by eapply lookup_lt_Some.
    pose (P := λ a : heap, linked_in a ∧ Forall Q a ∧ length a = length h).
    assert (remove_evolve k o (without_member k o)) as Hwo.
    { right. split; [done|]. by left. }
    assert (P h1 ∧ E r1) as [(L1 & F1 & N1) Er1].
    { eapply (for_each_results E P); [done| | |exact Hf].
      - intros l a b ev0 res0 Hl (La & Fa & Na) Hb.
        unfold remove_link in Hb.
        destruct (a !! l) as [ol|] eqn:Hol.
        2:{ apply lookup_ge_None in Hol.
            assert (l < length h) by (eapply L; [exact Ho|exact Hl]). lia. }
        case_bool_decide as Hkl; [|by simplify_eq].
        pose proof (remove_fuel_rel _ _ _ _ _ _ _ _ Hb) as Rab.
        split.
        + split; [|split].
          * eapply linked_in_rel; [|eapply remove_fuel_frame; exact Hb|done].
            by intros ?? (? & _).
          * by eapply heap_rel_forall.
          * by rewrite <- (Forall2_length _ _ _ Rab).
        + eapply IH; [done|done| |exact Hb]. by exists ol.
      - split; [|split].
        + apply linked_in_insert; [done|]. intros l Hl.
          eapply L; [exact Ho|exact Hl].
        + eapply heap_rel_forall; [exact HQ| |exact F].
          eapply heap_rel_insert; [apply remove_evolve_refl|done|done].
        + by rewrite length_insert. }
    destruct Hr as [[-> Hc]|(e & -> & -> & _)]; [|done].
    assert (i < length h1) as Hi1 by by rewrite N1.
    destruct (lookup_lt_is_Some_2 _ _ Hi1) as [o1 Ho1].
    eapply Hct; [exact Ho1| |exact Hc]. by eapply Forall_lookup_1.
Qed.

Lemma target_filter_addr c x : is_addr x → ∃ b, target_filter c x = Ok b.
Proof.
  intros (s & b & ->). destruct c; simpl; [by eexists|].
  case_bool_decide; by eexists.
Qed.

Lemma filter_keys_total f l :
  (∀ x, x ∈ l → ∃ b, f x = Ok b) → ∃ r, filter_keys f l = Ok r.
Proof.
  induction l as [|y l IH]; intros H; simpl; [by eexists|].
  destruct (H y) as [b ->]; [left|].
  destruct IH as [r ->]; [intros x Hx; apply H; by right|]. by eexists.
Qed.

Lemma filtered_total f (s : gset key) :
  (∀ x, x ∈ s → ∃ b, f x = Ok b) → ∃ l, filtered f s = Ok l.
Proof.
  intros H. unfold filtered.
  destruct (filter_keys_total f (elements s)) as [r ->]; [|by eexists].
  intros x Hx. apply H. by apply elem_of_elements.
Qed.

Lemma check_target_tame k (h : heap) i o h' res :
  h !! i = Some o → tame k o → check_target h i = (h', res) → res = Ok tt.
Proof.
  intros Hi T H. unfold check_target in H. rewrite Hi in H.
  destruct (_ct o) as [t|] eqn:Ht; [|by simplify_eq].
  assert (∀ s : gset key, s = members o ∨ s = t →
            ∃ l, filtered (target_filter (cls o)) s = Ok l) as Hs.
  { intros s Hs. apply filtered_total. intros x Hx.
    destruct T as [->|(_ & Tm & Tt)]; [by eexists|].
    apply target_filter_addr. destruct Hs as [->| ->]; [by apply Tm|].
    by eapply Tt. }
  destruct (Hs (members o)) as [l Hl]; [by left|].
  destruct (Hs t) as [l' Hl']; [by right|].
  rewrite Hl, Hl' in H. by case_bool_decide; simplify_eq.
Qed.

Lemma target_evolve_ct (o o' : obj) (P : key → Prop) :
  target_evolve o o' →
  (∀ t, _ct o = Some t → ∀ x, x ∈ t → P x) →
  ∀ t, _ct o' = Some t → ∀ x, x ∈ t → P x.
Proof.
  intros [[E _]|(_ & E & _)] H t Ht; [|congruence].
  rewrite E in Ht. by apply H.
Qed.

Lemma add_evolve_tame k r o o' : add_evolve k r o o' → tame k o → tame k o'.
Proof.
  intros (C & _ & _ & M & T) [Hc|(Ka & Tm & Tt)]; [left; congruence|].
  right. split; [done|]. split; [|by eapply target_evolve_ct].
  destruct M as [[-> _]|(_ & -> & _)]; [done|].
  intros x [->%elem_of_singleton|Hx]%elem_of_union; auto.
Qed.

Lemma ct_step_tame k o o' : ct_step o o' → tame k o → tame k o'.
Proof.
  intros [->|[_ ->]]; [done|]. intros [Hc|(Ka & Tm & Tt)]; [by left|].
  right. split; [done|]. split; [done|]. by intros t ?.
Qed.

Lemma remove_evolve_tame k o o' : remove_evolve k o o' → tame k o → tame k o'.
Proof.
  intros [->|[_ S]] T; [done|]. eapply ct_step_tame; [exact S|].
  destruct T as [Hc|(Ka & Tm & Tt)]; [by left|].
  right. split; [done|]. split; [|done].
  intros x [Hx _]%elem_of_difference. by apply Tm.
Qed.

(** X12. The exceptions of [add] and [remove].  In every store that a
    client can bring about, [add] ends without an exception or with the
    [TypeError] or [IndexError] of a filter that cannot take a key;
    [remove] can also raise [KeyError], and does so only when the set of
    the call itself does not hold the key, leaving the store as it was.
    Where every set is a plain [LinkedSet], or the key and all members
    and targets are address pairs, [add] raises nothing and [remove] of
    a member raises nothing. *)
Theorem exceptions_of_add_remove (h : heap) i o k r c h' ev res :
  reachable h → h !! i = Some o →
  (add h i k r c = (h', ev, res) →
     (res = Ok tt ∨ res = Raise TypeError ∨ res = Raise IndexError) ∧
     (Forall (tame k) h → res = Ok tt)) ∧
  (remove h i k r c = (h', ev, res) →
     (res = Ok tt ∨ res = Raise KeyError ∨ res = Raise TypeError ∨
      res = Raise IndexError) ∧
     (res = Raise KeyError → (k ∉ members o) ∧ h' = h) ∧
     (Forall (tame k) h → k ∈ members o → res = Ok tt)).
Proof.
  intros R Hi. pose proof (reachable_linked_in _ R) as L.
  assert (i < length h) as Hlt by by eapply lookup_lt_Some.
  pose (E := λ x : result unit,
          x = Ok tt ∨ x = Err OutOfFuel ∨ x = Raise TypeError ∨
          x = Raise IndexError).
  pose (E0 := λ x : result unit, x = Ok tt ∨ x = Err OutOfFuel).
  assert (∀ (a : heap) j oj b x, a !! j = Some oj → True →
            check_target a j = (b, x) → E x) as Hct.
  { intros a j oj b x Hj _ Hc. destruct x as [[]|e]; [by left|].
    destruct (check_target_raises _ _ _ _ _ Hj Hc) as [-> | ->].
    - right; right; by left.
    - right; right; by right. }
  split.
  - intros H. pose proof (add_terminates h i k r c) as Hfuel.
    rewrite H in Hfuel. simpl in Hfuel. unfold add in H. split.
    + assert (E res) as [?|[?|[?|?]]]; [|by auto..].
      eapply (add_fuel_results E (λ _, True) k r);
        [by left|by right; left|done|exact Hct|exact L| |exact Hlt|exact H].
      by apply Forall_forall.
    + intros F. assert (E0 res) as [?|?]; [|done|done].
      eapply (add_fuel_results E0 (tame k) k r);
        [by left|by right|apply add_evolve_tame| |exact L|exact F|exact Hlt
        |exact H].
      intros a j oj b x Hj T Hc. left. by eapply check_target_tame.
  - intros H. pose proof (remove_terminates h i k r c) as Hfuel.
    rewrite H in Hfuel. simpl in Hfuel. unfold remove in H.
    destruct (remove_fuel_cases _ _ _ _ _ _ _ _ _ Hi H)
      as [(_ & _ & _ & _ & ->)
         |[(_ & Hn & -> & _ & ->)|(_ & Hk & _)]].
    + split; [by left|]. split; [done|done].
    + split; [right; by left|]. split; [done|]. by intros _ ?.
    + assert (has k h i) as Hhas by by exists o.
      split; [|split].
      * assert (E res) as [?|[?|[?|?]]]; [|by auto..].
        eapply (remove_fuel_results E (λ _, True) k);
          [by left|by right; left|done|exact Hct|exact L| |exact Hhas|exact H].
        by apply Forall_forall.
      * intros ->. exfalso.
        by eapply (remove_fuel_keyerror _ _ _ _ _ _ _ _ H Hhas).
      * intros F _. assert (E0 res) as [?|?]; [|done|done].
        eapply (remove_fuel_results E0 (tame k) k);
          [by left|by right|apply remove_evolve_tame| |exact L|exact F
          |exact Hhas|exact H].
        intros a j oj b x Hj T Hc. left. by eapply check_target_tame.
Qed.

Lemma exceptions_of_add_remove_witness :
  (add scenario 0 key_a (PAtom ANone) false).2 = Ok tt.
Proof.
  destruct (exceptions_of_add_remove scenario 0
              (Obj LinkedSet {[KAtom (AStr "x")]}
                   {[KAtom (AStr "x") := PAtom (AInt 1)]} [1] ∅ None false)
              key_a (PAtom ANone) false
              (add scenario 0 key_a (PAtom ANone) false).1.1
              (add scenario 0 key_a (PAtom ANone) false).1.2
              (add scenario 0 key_a (PAtom ANone) false).2)
    as [Hadd _].
  - by eexists.
  - by_compute.
  - destruct (Hadd (outcome_eta _)) as [_ Hok]. apply Hok.
    repeat constructor; by left.
Defined.

(** ** Sets that exclude a key *)

Lemma shielded_refl k h : shielded k h h.
Proof. by intros j oj. Qed.

Lemma shielded_trans k h1 h2 h3 :
  shielded k h1 h2 → shielded k h2 h3 → shielded k h1 h3.
Proof. intros A B j oj Hj Hk. apply B; [|done]. by apply A. Qed.

Lemma check_target_at (h : heap) i h' res j :
  check_target h i = (h', res) → j ≠ i → h' !! j = h !! j.
Proof.
  intros H Hne. pose proof (check_target_other h i j Hne) as X.
  by rewrite H in X.
Qed.

Lemma add_fuel_shielded n k r : ∀ h i c h' ev res j oj,
  add_fuel n k r h i c = (h', ev, res) → j ≠ i ∨ c = true →
  h !! j = Some oj → k ∈ exclusive oj → h' !! j = Some oj.
Proof.
  induction n as [|n IH]; intros h i c h' ev res j oj H Hj Ho Hk.
  { simpl in H. by simplify_eq. }
  destruct (h !! i) as [o|] eqn:Hi.
  2:{ simpl in H. rewrite Hi in H. by simplify_eq. }
  destruct (add_fuel_cases _ _ _ _ _ _ _ _ _ _ Hi H)
    as [(_ & _ & -> & _)
       |[(Hn & _ & _ & Hc)|(Hn & _ & h1 & e1 & r1 & Hf & _ & Hr)]].
  - done.
  - assert (j ≠ i) as Hne.
    { intros ->. destruct Hj as [?| ->]; [done|]. simplify_eq. by apply Hn. }
    by rewrite (check_target_at _ _ _ _ _ Hc Hne).
  - assert (j ≠ i) as Hne.
    { intros ->. destruct Hj as [?| ->]; [done|]. simplify_eq. by apply Hn. }
    assert (h1 !! j = Some oj) as H1.
    { eapply (for_each_rel (λ a _ b, shielded k a b));
        [apply shielded_refl|intros ?????; apply shielded_trans| |exact Hf| |done].
      - intros l a b ev0 res0 _ Hb j0 o0 Hj0 Hk0. cbn beta in Hb.
        eapply IH; [exact Hb|by right|done|done].
      - by rewrite list_lookup_insert_ne. }
    destruct Hr as [[_ Hc]|(e & _ & _ & ->)]; [|done].
    by rewrite (check_target_at _ _ _ _ _ Hc Hne).
Qed.

Lemma remove_fuel_shielded n k : ∀ h i c h' ev res j oj,
  remove_fuel n k h i c = (h', ev, res) → j ≠ i ∨ c = true →
  h !! j = Some oj → k ∈ exclusive oj → h' !! j = Some oj.
Proof.
  induction n as [|n IH]; intros h i c h' ev res j oj H Hj Ho Hk.
  { simpl in H. by simplify_eq. }
  destruct (h !! i) as [o|] eqn:Hi.
  2:{ simpl in H. rewrite Hi in H. by simplify_eq. }
  destruct (remove_fuel_cases _ _ _ _ _ _ _ _ _ Hi H)
    as [(_ & _ & -> & _)
       |[(_ & _ & -> & _)|(Hn & _ & h1 & e1 & r1 & Hf & _ & Hr)]].
  - done.
  - done.
  - assert (j ≠ i) as Hne.
    { intros ->. destruct Hj as [?| ->]; [done|]. simplify_eq. by apply Hn. }
    assert (h1 !! j = Some oj) as H1.
    { eapply (for_each_rel (λ a _ b, shielded k a b));
        [apply shielded_refl|intros ?????; apply shielded_trans| |exact Hf| |done].
      - intros l a b ev0 res0 _ Hb j0 o0 Hj0 Hk0.
        unfold remove_link in Hb. destruct (a !! l) as [ol|]; [|by simplify_eq].
        case_bool_decide; [|by simplify_eq].
        eapply IH; [exact Hb|by right|done|done].
      - by rewrite list_lookup_insert_ne. }
    destruct Hr as [[_ Hc]|(e & _ & _ & ->)]; [|done].
    by rewrite (check_target_at _ _ _ _ _ Hc Hne).
Qed.

(** X13. [unlink] shields a set from every cascade.  A set that has [k]
    in its exclusive set is left exactly as it is, members, payloads,
    target and event included, by every [add(k)] and [remove(k)] that is
    not a direct call on this very set, however the call gets to it; the
    trace does not mutate it. *)
Theorem excluded_set_untouched (h : heap) i j oj k r c h' ev res :
  h !! j = Some oj → k ∈ exclusive oj → j ≠ i ∨ c = true →
  add h i k r c = (h', ev, res) ∨ remove h i k r c = (h', ev, res) →
  h' !! j = Some oj ∧ j ∉ mutated ev.
Proof.
  intros Hj Hk Hc [H|H].
  - unfold add in H.
    assert (h' !! j = Some oj) as Hj'
      by by eapply add_fuel_shielded.
    split; [done|]. intros Hm.
    destruct (add_fuel_trace _ _ _ _ _ _ _ _ _ H) as (_ & M & _).
    destruct (M j Hm) as [(o1 & H1 & K1) (o2 & H2 & K2)]. by simplify_eq.
  - unfold remove in H.
    assert (h' !! j = Some oj) as Hj'
      by by eapply remove_fuel_shielded.
    split; [done|]. intros Hm.
    destruct (remove_fuel_trace _ _ _ _ _ _ _ _ H) as (_ & M & _).
    destruct (M j Hm) as [(o1 & H1 & K1) (o2 & H2 & K2)]. by simplify_eq.
Qed.

Lemma excluded_set_untouched_witness :
  (add guarded 0 key_a (PAtom ANone) false).1.1 !! 1
  = Some (Obj LinkedSet ∅ ∅ [] {[key_a]} None false).
Proof.
  eapply (excluded_set_untouched guarded 0 1 _ key_a (PAtom ANone) false).
  - reflexivity.
  - by_compute.
  - by left.
  - left. apply outcome_eta.
Defined.

(** ** Messages *)

(** X14. A message is added whatever the call says.  [IPaddrSet.add]
    with a message hands neither [cascade] nor the payload of the call to
    [LinkedSet.add]: the key of the message is inserted, with the payload
    built from the message, even in a cascaded call on a set that excludes
    the key, where the same key given as a plain key is turned away.
    [IPaddrSet.remove] does hand [cascade] on: a cascaded removal of the
    message is turned away by the exclusive set; a direct one finds the
    key that the [add] has inserted and raises no [KeyError]. *)
Theorem message_add_not_cascaded (h : heap) i o m r c :
  h !! i = Some o → cls o = IPaddrSet →
  _get_addr_nla m ∈ exclusive o → _get_addr_nla m ∉ members o →
  call_add h i (Key (_get_addr_nla m)) r true = (h, [ECall i true], Ok tt) ∧
  call_remove h i (Msg m) r true = (h, [ECall i true], Ok tt) ∧
  (∃ o', (call_add h i (Msg m) r c).1.1 !! i = Some o' ∧
         members o' = {[_get_addr_nla m]} ∪ members o ∧
         raw o' = <[_get_addr_nla m := raw_of_msg m]> (raw o)) ∧
  (call_remove (call_add h i (Msg m) r c).1.1 i (Msg m) r false).2
  ≠ Raise KeyError.
Proof.
  intros Hi Hc Hx Hk.
  assert (∃ o', (call_add h i (Msg m) r c).1.1 !! i = Some o' ∧
                cls o' = IPaddrSet ∧
                members o' = {[_get_addr_nla m]} ∪ members o ∧
                raw o' = <[_get_addr_nla m := raw_of_msg m]> (raw o))
    as (o' & Hi' & Hc' & Hm' & Hr').
  { unfold call_add. rewrite Hi, Hc. simpl. unfold add.
    destruct (add_fuel _ _ _ _ _ _) as [[h1 e1] r1] eqn:H. simpl.
    destruct (add_fuel_direct _ _ _ _ _ _ _ _ _ Hi H) as (o' & Hi' & Hm & Hr).
    exists o'. split; [done|].
    destruct (heap_rel_lookup _ _ _ _ _
                (add_fuel_rel _ _ _ _ _ _ _ _ _ H) Hi) as (o2 & Ho2 & C & _).
    simplify_eq. split; [congruence|]. split; [done|]. by apply Hr. }
  split; [|split; [|split]].
  - unfold call_add. rewrite Hi, Hc. simpl. unfold add. simpl.
    rewrite Hi. by rewrite bool_decide_eq_true_2.
  - unfold call_remove. rewrite Hi, Hc. simpl. unfold remove. simpl.
    rewrite Hi. by rewrite bool_decide_eq_true_2.
  - by exists o'.
  - unfold call_remove at 1. rewrite Hi', Hc'. simpl. unfold remove.
    destruct (remove_fuel _ _ _ _ _) as [[h2 e2] r2] eqn:H. simpl.
    eapply remove_fuel_keyerror; [exact H|]. exists o'. split; [done|].
    rewrite Hm'. apply elem_of_union_l. by apply elem_of_singleton.
Qed.

Lemma message_add_not_cascaded_witness :
  ∃ o', (call_add excluding 0 (Msg inet_msg) (PAtom ANone) true).1.1 !! 0
        = Some o' ∧
        members o' = {[addr_v4]} ∪ ∅ ∧
        raw o' = <[addr_v4 := PDict (AStr "10.0.0.5") ANone (AStr "10.0.0.5")
                                    ANone (AInt 24)]> ∅.
Proof.
  destruct (message_add_not_cascaded excluding 0
              (Obj IPaddrSet ∅ ∅ [] {[addr_v4]} None false)
              inet_msg (PAtom ANone) true)
    as (_ & _ & H & _).
  - reflexivity.
  - reflexivity.
  - by_compute.
  - by_compute.
  - exact H.
Defined.

(** ** Setting a target again *)

Lemma with_target_same c t c' t' o :
  with_target c t (with_target c' t' o) = with_target c t o.
Proof. by destruct o. Qed.

Lemma set_target_forgets (h : heap) i o c t v :
  h !! i = Some o →
  set_target (<[i := with_target c t o]> h) i v = set_target h i v.
Proof.
  intros Hi. assert (i < length h) as Hlt by by eapply lookup_lt_Some.
  unfold set_target. rewrite list_lookup_insert_eq by done. rewrite Hi.
  destruct v as [v|]; by rewrite list_insert_insert_eq, with_target_same.
Qed.

(** X15. [set_target] starts afresh, and checking twice changes nothing.
    The outcome of [set_target] does not depend on the target and the
    event that the set had before; calling it a second time with the same
    value gives the same store and the same result, and so does a second
    [check_target]. *)
Theorem set_target_idempotent (h : heap) i o c t v :
  h !! i = Some o →
  set_target (<[i := with_target c t o]> h) i v = set_target h i v ∧
  set_target (set_target h i v).1 i v = set_target h i v ∧
  check_target (check_target h i).1 i = check_target h i.
Proof.
  intros Hi. assert (i < length h) as Hlt by by eapply lookup_lt_Some.
  split; [by apply set_target_forgets|]. split.
  - destruct v as [v|].
    + unfold set_target at 2 3. rewrite Hi.
      set (h0 := <[i := with_target (Some v) false o]> h).
      destruct (check_target h0 i) as [h1 r1] eqn:Hc. simpl.
      destruct (check_target_cases _ _ _ _ Hc)
        as [->|(o0 & Hi0 & _ & _ & ->)].
      * subst h0. rewrite set_target_forgets by done.
        unfold set_target. rewrite Hi. exact Hc.
      * subst h0. rewrite list_lookup_insert_eq in Hi0 by done.
        simplify_eq. rewrite list_insert_insert_eq, with_target_same.
        rewrite set_target_forgets by done.
        unfold set_target. rewrite Hi. rewrite Hc.
        by rewrite list_insert_insert_eq, with_target_same.
    + unfold set_target at 2 3. rewrite Hi. simpl.
      rewrite set_target_forgets by done. unfold set_target. by rewrite Hi.
  - destruct (check_target h i) as [h1 r1] eqn:Hc. simpl.
    destruct (check_target_cases _ _ _ _ Hc)
      as [->|(o0 & Hi0 & _ & -> & ->)]; [done|].
    unfold check_target. by rewrite list_lookup_insert_eq by done.
Qed.

Lemma set_target_idempotent_witness :
  set_target (set_target waiting 0 (Some {[key_a]})).1 0 (Some {[key_a]})
  = set_target waiting 0 (Some {[key_a]}).
Proof.
  destruct (set_target_idempotent waiting 0
              (Obj LinkedSet {[key_a; key_b]} ∅ [] ∅
                   (Some {[key_a; key_b]}) false)
              None false (Some {[key_a]}) eq_refl)
    as (_ & H & _).
  exact H.
Defined.

(** ** Members and their payload entries *)


